(** * microphone_sample: the low-pass filter and the DFSDM capture hand-off

    A shallow embedding of the C sources of the board-support package:
    - [BSP/lpf/inc/bsp_lpf.h], [BSP/lpf/src/bsp_lpf.c]: the single-pole
      low-pass filter ([init_lowpass_filter], [filter_sample],
      [filter_block]);
    - [BSP/dfsdm/src/bsp_dfsdm.c] with its header: the two-microphone
      DFSDM callbacks, and the single-microphone variant of the same
      callbacks;
    - the function [find_peaks] of the MATLAB analysis script.

    [int16_t] and [uint32_t] values are integers of [Z] together with their
    range; [float32_t] is IEEE 754 binary32, taken from the parametric
    specification [SpecFloat] of the standard library at precision 24 and
    maximal exponent 128, every C operator being one correctly rounded
    (to nearest, ties to even) binary32 operation, evaluated as written.
    The global variables of the C files become explicit state, and what C
    leaves undefined (a conversion to [int16_t] of a NaN or of a value out
    of range, an access past the end of an array) has no result: such
    functions return an [option]. *)

From Stdlib Require Import ZArith Bool Lia.
From Stdlib Require Import Reals Lra Machin.
From Stdlib Require Import Floats.SpecFloat.
From stdpp Require Import base option list.

Local Open Scope Z_scope.

(** ** binary32 arithmetic *)

Module F32.

Definition prec : Z := 24.
Definition emax : Z := 128.

Definition float32 : Type := spec_float.

(** [(float32_t) z] for an integer [z]. *)
Definition of_int (z : Z) : float32 := binary_normalize prec emax z 0 false.

Definition add : float32 -> float32 -> float32 := SFadd prec emax.
Definition sub : float32 -> float32 -> float32 := SFsub prec emax.
Definition mul : float32 -> float32 -> float32 := SFmul prec emax.
Definition div : float32 -> float32 -> float32 := SFdiv prec emax.

(** The C comparisons [a < b] and [a > b]; both are false on a NaN. *)
Definition lt (a b : float32) : bool := SFltb a b.
Definition gt (a b : float32) : bool := SFltb b a.

(** The integer part of a float, rounding toward zero; nothing for an
    infinity or a NaN. *)
Definition trunc (f : float32) : option Z :=
  match f with
  | S754_zero _ => Some 0
  | S754_finite s m e =>
      let a := match e with
               | Zneg p => Z.shiftr (Zpos m) (Zpos p)
               | _ => Z.shiftl (Zpos m) e
               end in
      Some (if s then - a else a)
  | S754_infinity _ | S754_nan => None
  end.

Definition INT16_MIN : Z := -32768.
Definition INT16_MAX : Z := 32767.

Definition in_int16 (z : Z) : Prop := INT16_MIN <= z <= INT16_MAX.

Definition in_int16b (z : Z) : bool := (INT16_MIN <=? z) && (z <=? INT16_MAX).

(** [(int16_t) f]: the truncated value when [int16_t] can represent it.
    C leaves the conversion undefined otherwise (an infinity, a NaN, a
    value out of range), which is [None] here. *)
Definition to_int16 (f : float32) : option Z :=
  z ← trunc f; if in_int16b z then Some z else None.

(** [m / 2^n] for a natural number [m], rounded to the nearest integer,
    a tie going to the even one: the rounding of every operation. *)
Definition rne_shift (m n : Z) : Z :=
  if n =? 0 then m
  else
    let q := m / 2 ^ n in
    match m mod 2 ^ n ?= 2 ^ (n - 1) with
    | Lt => q
    | Gt => q + 1
    | Eq => if Z.even q then q else q + 1
    end.

(** A binary32 number: the mantissa and exponent of a finite float are
    the canonical ones. *)
Definition valid (f : float32) : bool := valid_binary prec emax f.

Definition is_nan (f : float32) : bool :=
  match f with S754_nan => true | _ => false end.

Definition is_finite (f : float32) : bool :=
  match f with S754_zero _ | S754_finite _ _ _ => true | _ => false end.

(** The value of a finite float in units of [2^-149], the smallest
    positive binary32 number: an integer for every valid float. *)
Definition scaled (f : float32) : Z :=
  match f with
  | S754_finite s m e => (if s then -1 else 1) * (Zpos m * 2 ^ (e + 149))
  | _ => 0
  end.

(** A binary32 number of magnitude [2^100] at most. *)
Definition moderate (f : float32) : Prop :=
  valid f = true /\ is_finite f = true /\ Z.abs (scaled f) <= 2 ^ 249.

(** The real number a finite float stands for. *)
Definition real_value (f : float32) : R :=
  (IZR (scaled f) / IZR (2 ^ 149))%R.

(** Rounding to binary32 on the scaled values: an integer of at most 24
    bits is kept, a longer one loses its low bits by [rne_shift]. *)
Definition round_scaled_pos (M : Z) : Z :=
  let n := Z.max (Zdigits2 M - 24) 0 in rne_shift M n * 2 ^ n.

Definition round_scaled (N : Z) : Z := Z.sgn N * round_scaled_pos (Z.abs N).

(** The literals [1.0f] and [2.0f]. *)
Definition one : float32 := S754_finite false 8388608 (-23).
Definition two : float32 := S754_finite false 8388608 (-22).

End F32.

Import F32.

(** ** bsp_lpf.h *)

Definition SAMPLE_RATE : Z := 48000.
Definition CUTOFF_FREQ : Z := 5000.
Definition BLOCK_SIZE : Z := 128.

(** Modelled from the spec: the constant [PI] of [arm_math.h], a header of
    the CMSIS DSP library that is not among the sources; it is the spec's
    pi as the binary32 number nearest to it, 13176795 * 2^-22. *)
Definition PI : float32 := S754_finite false 13176795 (-22).

(** [#define ALPHA (1.0f / (1.0f + 2.0f * PI * CUTOFF_FREQ / SAMPLE_RATE))]:
    the product and the quotient associate to the left, and the two
    integer constants are converted to [float]. *)
Definition ALPHA : float32 :=
  div one
      (add one
           (div (mul (mul two PI) (of_int CUTOFF_FREQ)) (of_int SAMPLE_RATE))).

Record simple_lowpass_filter_t : Type := {
  prev_output : Z;
  alpha : float32;
  min_val : Z;
  max_val : Z
}.

(** ** bsp_lpf.c

    The global [lowpass_filter] is the state the three functions thread. *)

Definition init_lowpass_filter (lowpass_filter : simple_lowpass_filter_t)
  : simple_lowpass_filter_t :=
  {| prev_output := 0;
     alpha := ALPHA;
     min_val := -32768;
     max_val := 32767 |}.

(** [lowpass_filter.prev_output = output]. *)
Definition set_prev_output (output : Z) (lowpass_filter : simple_lowpass_filter_t)
  : simple_lowpass_filter_t :=
  {| prev_output := output;
     alpha := alpha lowpass_filter;
     min_val := min_val lowpass_filter;
     max_val := max_val lowpass_filter |}.

(** [alpha * x[n] + (1 - alpha) * y[n-1]], the value of [output_float]
    before the two range tests. *)
Definition filter_output_float (lowpass_filter : simple_lowpass_filter_t) (input : Z)
  : float32 :=
  let input_float := of_int input in
  let prev_output_float := of_int (prev_output lowpass_filter) in
  add (mul (alpha lowpass_filter) input_float)
      (mul (sub one (alpha lowpass_filter)) prev_output_float).

(** The two [if] statements; the [int16_t] bound of each comparison and
    assignment is converted to [float]. *)
Definition filter_clamp (lowpass_filter : simple_lowpass_filter_t) (output_float : float32)
  : float32 :=
  let output_float :=
    if gt output_float (of_int (max_val lowpass_filter))
    then of_int (max_val lowpass_filter) else output_float in
  let output_float :=
    if lt output_float (of_int (min_val lowpass_filter))
    then of_int (min_val lowpass_filter) else output_float in
  output_float.

Definition filter_sample (lowpass_filter : simple_lowpass_filter_t) (input : Z)
  : option (Z * simple_lowpass_filter_t) :=
  let output_float := filter_output_float lowpass_filter input in
  let output_float := filter_clamp lowpass_filter output_float in
  output ← to_int16 output_float;
  Some (output, set_prev_output output lowpass_filter).

(** The [for] loop of [filter_block] from index [i] on, with [n]
    iterations left; reading or writing past the end of an array is
    undefined in C and [None] here. *)
Fixpoint filter_block_from (n i : nat) (lowpass_filter : simple_lowpass_filter_t)
    (input output : list Z) : option (list Z * simple_lowpass_filter_t) :=
  match n with
  | O => Some (output, lowpass_filter)
  | S n' =>
      x ← input !! i;
      '(y, lowpass_filter') ← filter_sample lowpass_filter x;
      if decide (i < length output)%nat
      then filter_block_from n' (S i) lowpass_filter' input (<[i:=y]> output)
      else None
  end.

Definition filter_block (lowpass_filter : simple_lowpass_filter_t)
    (input output : list Z) (size : nat)
  : option (list Z * simple_lowpass_filter_t) :=
  filter_block_from size 0 lowpass_filter input output.

(** The reading of the specification: [process_sample] applied to each
    element in turn, the state going from one call to the next. *)
Fixpoint process_samples (lowpass_filter : simple_lowpass_filter_t) (input : list Z)
  : option (list Z * simple_lowpass_filter_t) :=
  match input with
  | [] => Some ([], lowpass_filter)
  | x :: input' =>
      '(y, lowpass_filter') ← filter_sample lowpass_filter x;
      '(ys, lowpass_filter'') ← process_samples lowpass_filter' input';
      Some (y :: ys, lowpass_filter'')
  end.

(** ** bsp_dfsdm.h and the DFSDM callbacks *)

Module Dfsdm.

Definition SAMPLE_FREQUENCY : Z := 8000.
Definition BYTE_PER_SAMPLE : Z := 2.
Definition MICROPHEN_NUMBER : Z := 1.
Definition FRAME_NUMBER : Z := 1.

(** The division is that of C on [int]. *)
Definition BUF_LENGTH : Z :=
  SAMPLE_FREQUENCY ÷ 1000 * MICROPHEN_NUMBER * FRAME_NUMBER.

(** What a [DFSDM_Filter_HandleTypeDef *] can point to: one of the two
    handles the callbacks know, or any other handle object. *)
Inductive filter_handle : Type :=
| hdfsdm1_filter0
| hdfsdm1_filter1
| hdfsdm_other (n : nat).

#[global] Instance filter_handle_eq_dec : EqDecision filter_handle.
Proof. solve_decision. Defined.

(** The two notifications of the capture hardware. *)
Inductive notification : Type :=
| HalfCplt (hdfsdm_filter : filter_handle)
| Cplt (hdfsdm_filter : filter_handle).

Definition notification_handle (ev : notification) : filter_handle :=
  match ev with HalfCplt h | Cplt h => h end.

(** A [uint8_t *] into one of the sample arrays: the array and the byte
    offset from its start. A pointer [a + k] on [int16_t] elements is,
    once cast, [k * sizeof(int16_t)] bytes into [a]. *)
Record byte_ptr (array : Type) : Type := {
  ptr_array : array;
  ptr_offset : Z
}.
Arguments ptr_array {array} _.
Arguments ptr_offset {array} _.

Definition sizeof_int16_t : Z := 2.

Definition cast_uint8_ptr {array : Type} (a : array) (k : Z) : byte_ptr array :=
  {| ptr_array := a; ptr_offset := k * sizeof_int16_t |}.

(** One call [HAL_UART_Transmit_DMA(&huart1, pData, Size)]: [Size] bytes
    from [pData] on. *)
Record transmit_request (array : Type) : Type := {
  pData : byte_ptr array;
  Size : Z
}.
Arguments pData {array} _.
Arguments Size {array} _.

(** The bytes [first, first + count) of an array, as the specification
    names them: the two halves of a capture buffer of [BUF_LENGTH]
    samples. *)
Definition buffer_bytes : Z := BUF_LENGTH * sizeof_int16_t.
Definition half_length : Z := buffer_bytes ÷ 2.

Definition first_half {array : Type} (a : array) : transmit_request array :=
  {| pData := {| ptr_array := a; ptr_offset := 0 |}; Size := half_length |}.

Definition second_half {array : Type} (a : array) : transmit_request array :=
  {| pData := {| ptr_array := a; ptr_offset := half_length |};
     Size := half_length |}.

End Dfsdm.

(** *** bsp_dfsdm.c: two microphones *)

Module DualMic.
Import Dfsdm.

Inductive sample_array : Type := array_Buf_Mic0 | array_Buf_Mic1.

(** The globals of the file and the requests [huart1] has been handed,
    the oldest first. *)
Record bsp_state : Type := {
  Buf_Mic0 : list Z;
  Buf_Mic1 : list Z;
  huart1 : list (transmit_request sample_array)
}.

Definition initial_state : bsp_state :=
  {| Buf_Mic0 := replicate (Z.to_nat BUF_LENGTH) 0;
     Buf_Mic1 := replicate (Z.to_nat BUF_LENGTH) 0;
     huart1 := [] |}.

(** Modelled from the spec: the transport's [transmit_async], the HAL
    function [HAL_UART_Transmit_DMA] that is not among the sources; it
    starts one transfer and returns, and its status is not looked at. *)
Definition HAL_UART_Transmit_DMA (p : byte_ptr sample_array) (size : Z)
    (st : bsp_state) : bsp_state :=
  {| Buf_Mic0 := Buf_Mic0 st;
     Buf_Mic1 := Buf_Mic1 st;
     huart1 := huart1 st ++ [ {| pData := p; Size := size |} ] |}.

Definition HAL_DFSDM_FilterRegConvHalfCpltCallback
    (hdfsdm_filter : filter_handle) (st : bsp_state) : bsp_state :=
  if decide (hdfsdm_filter = hdfsdm1_filter0) then st
  else if decide (hdfsdm_filter = hdfsdm1_filter1) then
    HAL_UART_Transmit_DMA (cast_uint8_ptr array_Buf_Mic1 0) BUF_LENGTH st
  else st.

Definition HAL_DFSDM_FilterRegConvCpltCallback
    (hdfsdm_filter : filter_handle) (st : bsp_state) : bsp_state :=
  if decide (hdfsdm_filter = hdfsdm1_filter0) then st
  else if decide (hdfsdm_filter = hdfsdm1_filter1) then
    HAL_UART_Transmit_DMA (cast_uint8_ptr array_Buf_Mic1 (BUF_LENGTH ÷ 2))
                          BUF_LENGTH st
  else st.

Definition notify (st : bsp_state) (ev : notification) : bsp_state :=
  match ev with
  | HalfCplt h => HAL_DFSDM_FilterRegConvHalfCpltCallback h st
  | Cplt h => HAL_DFSDM_FilterRegConvCpltCallback h st
  end.

(** The callbacks run one after the other, in the order of the
    notifications. *)
Definition run (evs : list notification) (st : bsp_state) : bsp_state :=
  foldl notify st evs.

(** The half of [Buf_Mic1] a notification of [hdfsdm1_filter1] completes. *)
Definition completed_half (ev : notification) : transmit_request sample_array :=
  match ev with
  | HalfCplt _ => first_half array_Buf_Mic1
  | Cplt _ => second_half array_Buf_Mic1
  end.

End DualMic.

(** *** The single-microphone variant of the callbacks *)

Module SingleMic.
Import Dfsdm.

Inductive sample_array : Type := array_dfsdm_buf.

Record bsp_state : Type := {
  dfsdm_buf : list Z;
  huart1 : list (transmit_request sample_array)
}.

(** [int16_t dfsdm_buf[BUF_LENGTH] = {0x12};] *)
Definition initial_state : bsp_state :=
  {| dfsdm_buf := 18 :: replicate (Z.to_nat BUF_LENGTH - 1) 0;
     huart1 := [] |}.

(** Modelled from the spec: the transport's [transmit_async], the HAL
    function [HAL_UART_Transmit_DMA] that is not among the sources. *)
Definition HAL_UART_Transmit_DMA (p : byte_ptr sample_array) (size : Z)
    (st : bsp_state) : bsp_state :=
  {| dfsdm_buf := dfsdm_buf st;
     huart1 := huart1 st ++ [ {| pData := p; Size := size |} ] |}.

Definition HAL_DFSDM_FilterRegConvHalfCpltCallback
    (hdfsdm_filter : filter_handle) (st : bsp_state) : bsp_state :=
  HAL_UART_Transmit_DMA (cast_uint8_ptr array_dfsdm_buf 0) BUF_LENGTH st.

Definition HAL_DFSDM_FilterRegConvCpltCallback
    (hdfsdm_filter : filter_handle) (st : bsp_state) : bsp_state :=
  HAL_UART_Transmit_DMA (cast_uint8_ptr array_dfsdm_buf (BUF_LENGTH ÷ 2))
                        BUF_LENGTH st.

Definition notify (st : bsp_state) (ev : notification) : bsp_state :=
  match ev with
  | HalfCplt h => HAL_DFSDM_FilterRegConvHalfCpltCallback h st
  | Cplt h => HAL_DFSDM_FilterRegConvCpltCallback h st
  end.

Definition run (evs : list notification) (st : bsp_state) : bsp_state :=
  foldl notify st evs.

Definition completed_half (ev : notification) : transmit_request sample_array :=
  match ev with
  | HalfCplt _ => first_half array_dfsdm_buf
  | Cplt _ => second_half array_dfsdm_buf
  end.

End SingleMic.

(** The filter state of the impulse-response example: [alpha = 0.5]
    (that is 8388608 * 2^-24), no previous output, the [int16_t] bounds. *)
Definition half_filter : simple_lowpass_filter_t :=
  {| prev_output := 0;
     alpha := S754_finite false 8388608 (-24);
     min_val := -32768;
     max_val := 32767 |}.

(** ** Constant inputs

    What the analysis of a constant input stream needs: the two products of
    [filter_sample] as functions of the sample they multiply, and a check
    of the finitely many sample values. *)

Definition input_term (a : float32) (x : Z) : float32 := mul a (of_int x).

Definition feedback_term (a : float32) (p : Z) : float32 :=
  mul (sub one a) (of_int p).

(** What [filter_sample] returns, from its two products [x] and [y],
    when the bounds are those of [int16_t] (as they are in [half_filter]). *)
Definition clamp_output (x y : float32) : option Z :=
  to_int16 (filter_clamp half_filter (add x y)).

(** A valid finite float below [2^16] in magnitude. *)
Definition term_ok (f : float32) : bool :=
  valid f && is_finite f &&
  match f with S754_finite _ _ e => e <=? -8 | _ => true end.

Definition terms (a b : float32) (c : Z) : float32 * float32 :=
  let c_float := of_int c in (mul a c_float, mul b c_float).

(** The check of the sample value [c], from the products for [c], [c + 1]
    and [c + 2]: the products are finite and do not decrease from [c] to
    [c + 1]; the input [c] after the output [c] gives [c] again; an input
    two above (below) the previous output moves the output by one at least. *)
Definition index_ok (c : Z) (t0 t1 t2 : float32 * float32) : bool :=
  term_ok t0.1 && term_ok t0.2 &&
  negb (lt t1.1 t0.1) && negb (lt t1.2 t0.2) &&
  match clamp_output t0.1 t0.2 with Some y => y =? c | None => false end &&
  ((32765 <? c) ||
   match clamp_output t2.1 t0.2 with Some y => c + 1 <=? y | None => false end &&
   match clamp_output t0.1 t2.2 with Some y => y <=? c + 1 | None => false end).

(** [index_ok] on the [n] sample values from [c] on, each product being
    computed once. *)
Fixpoint scan (a b : float32) (n : nat) (c : Z) (t0 t1 : float32 * float32) : bool :=
  match n with
  | O => true
  | S n' =>
      let t2 := terms a b (c + 2) in
      index_ok c t0 t1 t2 && scan a b n' (c + 1) t1 t2
  end.

Definition constant_check_from (a : float32) (count : nat) : bool :=
  scan a (sub one a) count (-32768)
       (terms a (sub one a) (-32768)) (terms a (sub one a) (-32768 + 1)).

(** The number of [int16_t] values. *)
Definition sample_values : nat := Z.to_nat 65536.

(** From a scaled value to the output: the two range tests, then the
    integer part. *)
Definition clamp_scaled (v : Z) : Z :=
  Z.max (Z.min v (32767 * 2 ^ 149)) (-32768 * 2 ^ 149) ÷ 2 ^ 149.

(** The output for the input [x] after the output [p], on the scaled
    values of the two products. *)
Definition exact_output (a : float32) (x p : Z) : Z :=
  clamp_scaled (round_scaled (scaled (input_term a x) + scaled (feedback_term a p))).

(** A filter state whose coefficient is [a] and whose bounds and previous
    output are [int16_t] values. *)
Definition int16_state (a : float32) (st : simple_lowpass_filter_t) : Prop :=
  alpha st = a /\ min_val st = -32768 /\ max_val st = 32767 /\
  in_int16 (prev_output st).

(** A filter state with a small coefficient, 8912253 * 2^-27 (about
    0.0664), whose previous output is 98. *)
Definition drift_filter : simple_lowpass_filter_t :=
  {| prev_output := 98;
     alpha := S754_finite false 8912253 (-27);
     min_val := -32768;
     max_val := 32767 |}.

(** The state after [n] samples equal to [c], and its distance to [c]. *)
Definition after_constant (st : simple_lowpass_filter_t) (c : Z) (n : nat)
  : option simple_lowpass_filter_t :=
  snd <$> process_samples st (replicate n c).

Definition distance_after (st : simple_lowpass_filter_t) (c : Z) (n : nat)
  : option Z :=
  (fun st' => Z.abs (prev_output st' - c)) <$> after_constant st c n.

(** The two parts of the convergence property of the specification, for
    integer outputs: the distance to the constant input is 0 from some
    sample on, and it never grows from one sample to the next. *)
Definition distance_tends_to_zero (st : simple_lowpass_filter_t) (c : Z) : Prop :=
  exists N : nat, forall n : nat, (N <= n)%nat -> distance_after st c n = Some 0.

Definition distance_never_grows (st : simple_lowpass_filter_t) (c : Z) : Prop :=
  forall (n : nat) (d d' : Z),
    distance_after st c n = Some d ->
    distance_after st c (S n) = Some d' ->
    d' <= d.

(** ** [filter_block] on arrays that may overlap

    [input] and [output] are two pointers, and a caller may pass the same
    array twice or two parts of one array. Here the memory is one array of
    [int16_t] cells, and a pointer is the index of a cell of it. *)

Module Shared.

Fixpoint filter_block_from (n i : nat) (lowpass_filter : simple_lowpass_filter_t)
    (memory : list Z) (input output : nat)
  : option (list Z * simple_lowpass_filter_t) :=
  match n with
  | O => Some (memory, lowpass_filter)
  | S n' =>
      x ← memory !! (input + i)%nat;
      '(y, lowpass_filter') ← filter_sample lowpass_filter x;
      if decide (output + i < length memory)%nat
      then filter_block_from n' (S i) lowpass_filter'
             (<[(output + i)%nat:=y]> memory) input output
      else None
  end.

Definition filter_block (lowpass_filter : simple_lowpass_filter_t)
    (memory : list Z) (input output : nat) (size : nat)
  : option (list Z * simple_lowpass_filter_t) :=
  filter_block_from size 0 lowpass_filter memory input output.

End Shared.

(** ** The analysis script: [find_peaks]

    The function [find_peaks] of the MATLAB script [workspace_fft].
    A MATLAB number is an IEEE 754 binary64, [SpecFloat] at precision 53
    and maximal exponent 1024; a vector is a list, its indices start at 1,
    and an index outside the vector is an error, [None] here. The built-in
    functions [max] and [sort] are written out as MATLAB documents them. *)

Module Matlab.

Definition prec : Z := 53.
Definition emax : Z := 1024.

Definition double : Type := spec_float.

Definition isnan (a : double) : bool :=
  match a with S754_nan => true | _ => false end.

(** [a > b]: false when one of the two is a NaN. *)
Definition gt (a b : double) : bool := SFltb b a.

(** [a * b]. *)
Definition times (a b : double) : double := SFmul prec emax a b.

(** The literal [0.1], the double 7205759403792794 * 2^-56. *)
Definition tenth : double := S754_finite false 7205759403792794 (-56).

(** [v(i)]. *)
Definition index {A : Type} (v : list A) (i : nat) : option A :=
  match i with
  | O => None
  | S j => v !! j
  end.

(** [max(v)] for a vector: its largest element, a NaN counting only when
    there is nothing else; the empty matrix ([None]) for an empty vector. *)
Fixpoint max (v : list double) : option double :=
  match v with
  | [] => None
  | a :: v' =>
      match max v' with
      | None => Some a
      | Some b => Some (if isnan b then a else if gt a b then a else b)
      end
  end.

(** The order of [sort(v, 'descend')]: larger values first, a NaN before
    every number. *)
Definition sorts_before (a b : double) : bool :=
  (isnan a && negb (isnan b)) || gt a b.

(** One more element in a list in descending order: it goes after the
    elements that are not smaller, so that equal elements keep the order
    they came in. *)
Fixpoint insert_descend {A : Type} (x : double * A) (l : list (double * A))
  : list (double * A) :=
  match l with
  | [] => [x]
  | h :: l' =>
      if sorts_before x.1 h.1 then x :: l else h :: insert_descend x l'
  end.

Definition sort_descend {A : Type} (l : list (double * A)) : list (double * A) :=
  foldl (fun sorted x => insert_descend x sorted) [] l.

(** The second result of [sort(v, 'descend')]: the index in [v] of each
    element of the sorted vector. *)
Definition sort_descend_index (v : list double) : list nat :=
  snd <$> sort_descend (zip v (seq 1 (length v))).

(** [threshold = max(magnitude) * 0.1]; the product of an empty matrix
    and a number is empty. *)
Definition find_peaks_threshold (magnitude : list double) : option double :=
  (fun m => times m tenth) <$> max magnitude.

(** The condition of the [if] at index [i]; [&&] evaluates its right
    operand only when the left one is true, and an empty operand is an
    error. *)
Definition is_peak (magnitude : list double) (threshold : option double) (i : nat)
  : option bool :=
  a ← index magnitude i;
  b ← index magnitude (i - 1);
  if gt a b then
    c ← index magnitude (i + 1);
    if gt a c then
      t ← threshold;
      Some (gt a t)
    else Some false
  else Some false.

(** The [for] loop over the indices that are left, [peaks = [peaks; i]]
    adding [i] at the end. *)
Fixpoint find_peaks_loop (magnitude : list double) (threshold : option double)
    (indices : list nat) (peaks : list nat) : option (list nat) :=
  match indices with
  | [] => Some peaks
  | i :: indices' =>
      b ← is_peak magnitude threshold i;
      find_peaks_loop magnitude threshold indices'
                      (if b : bool then peaks ++ [i] else peaks)
  end.

Definition find_peaks (magnitude : list double) : option (list nat) :=
  let threshold := find_peaks_threshold magnitude in
  peaks ← find_peaks_loop magnitude threshold
             (seq 2 (length magnitude - 1 - 1)) [];
  values ← mapM (index magnitude) peaks;
  let sort_idx := sort_descend_index values in
  mapM (index peaks) sort_idx.

(** The place of a number in the order of [>]: the sign class (from -2
    for the negative infinity to 2 for the positive one), then the
    exponent and the mantissa, both negated for a negative number. *)
Definition order_key (a : double) : Z * Z * Z :=
  match a with
  | S754_zero _ | S754_nan => (0, 0, 0)
  | S754_infinity s => (if s then -2 else 2, 0, 0)
  | S754_finite s m e =>
      if s then (-1, - e, - Zpos m) else (1, e, Zpos m)
  end.

Definition key_lt (k1 k2 : Z * Z * Z) : Prop :=
  k1.1.1 < k2.1.1 \/
  (k1.1.1 = k2.1.1 /\
   (k1.1.2 < k2.1.2 \/ (k1.1.2 = k2.1.2 /\ k1.2 < k2.2))).

End Matlab.

(** ** Samples of opposite sign *)

(** Two floats that are the same number: the same float, or two zeros,
    whose signs no comparison and no conversion to an integer looks at. *)
Definition same_number (f g : float32) : Prop :=
  f = g \/ exists s s', f = S754_zero s /\ g = S754_zero s'.

(** ** Coefficients between 0 and 1 *)

(** A binary32 number between 0 and 1, the two ends included. *)
Definition in_unit_interval (a : float32) : Prop :=
  valid a = true /\ is_finite a = true /\
  lt a (S754_zero false) = false /\ gt a one = false.

(** The filter state with the coefficient [a], the [int16_t] bounds and
    the previous output [p]. *)
Definition filter_state (a : float32) (p : Z) : simple_lowpass_filter_t :=
  {| prev_output := p; alpha := a; min_val := -32768; max_val := 32767 |}.

(** The coefficient keeps every constant signal: the sample [c] after the
    output [c] gives [c] again, for every [int16_t] value [c]. *)
Definition keeps_constant (a : float32) : Prop :=
  forall c, in_int16 c ->
    filter_sample (filter_state a c) c = Some (c, filter_state a c).

(** A sample two above (below) the previous output moves the output up
    (down) by one at least. *)
Definition moves_toward_input (a : float32) : Prop :=
  forall c, in_int16 c -> in_int16 (c + 2) ->
    (exists y, filter_sample (filter_state a c) (c + 2)
                 = Some (y, filter_state a y) /\ c + 1 <= y) /\
    (exists y, filter_sample (filter_state a (c + 2)) c
                 = Some (y, filter_state a y) /\ y <= c + 1).

(** * Properties *)

(** ** The low-pass filter: state and block processing *)

Lemma set_prev_output_fields y st :
  prev_output (set_prev_output y st) = y /\
  alpha (set_prev_output y st) = alpha st /\
  min_val (set_prev_output y st) = min_val st /\
  max_val (set_prev_output y st) = max_val st.
Proof. by destruct st. Qed.

Lemma filter_sample_Some st x y st' :
  filter_sample st x = Some (y, st') ->
  to_int16 (filter_clamp st (filter_output_float st x)) = Some y /\
  st' = set_prev_output y st.
Proof.
  unfold filter_sample. intros H.
  destruct (to_int16 _) as [z|] eqn:E; simpl in H; [|done].
  by inversion H.
Qed.

Lemma to_int16_in_range f z : to_int16 f = Some z -> in_int16 z.
Proof.
  unfold to_int16. destruct (trunc f) as [t|]; simpl; [|done].
  destruct (in_int16b t) eqn:E; [|done].
  intros [= <-]. unfold in_int16b in E. unfold in_int16. lia.
Qed.

Lemma process_samples_length input : forall st ys st',
  process_samples st input = Some (ys, st') -> length ys = length input.
Proof.
  induction input as [|x input IH]; intros st ys st' H; simpl in H.
  - by inversion H.
  - destruct (filter_sample st x) as [[y st1]|]; simpl in H; [|done].
    destruct (process_samples st1 input) as [[zs st2]|] eqn:E; simpl in H; [|done].
    inversion H; subst. simpl. f_equal. by eapply IH.
Qed.

Lemma filter_block_from_process n : forall i st input output,
  (i + n <= length input)%nat -> (i + n <= length output)%nat ->
  filter_block_from n i st input output =
  (fun r => (take i output ++ r.1 ++ drop (i + n) output, r.2)) <$>
    process_samples st (take n (drop i input)).
Proof.
  induction n as [|n IH]; intros i st input output Hin Hout.
  - simpl. by rewrite Nat.add_0_r, take_drop.
  - destruct (lookup_lt_is_Some_2 input i) as [x Hx]; [lia|].
    cbn [filter_block_from]. rewrite Hx. cbn [mbind option_bind].
    rewrite (drop_S _ _ _ Hx). cbn [take process_samples].
    destruct (filter_sample st x) as [[y st1]|]; [|done].
    cbn [mbind option_bind].
    rewrite decide_True by lia.
    rewrite IH by (rewrite ?length_insert; lia).
    destruct (process_samples st1 (take n (drop (S i) input))) as [[ys st2]|];
      [|done].
    cbn. do 2 f_equal.
    rewrite (take_S_r _ _ y) by (apply list_lookup_insert_eq; lia).
    rewrite take_insert_ge by lia.
    rewrite drop_insert_lt by lia.
    rewrite <- app_assoc. cbn. by rewrite Nat.add_succ_r.
Qed.

(** ** Facts about the binary32 operations *)

(** *** The right shift of [binary_round_aux] *)

Section Shr.

(** [iter_pos] is plain iteration. *)
Lemma iter_pos_nat {A : Type} (f : A -> A) (p : positive) : forall x,
  SpecFloat.iter_pos f p x = Nat.iter (Pos.to_nat p) f x.
Proof.
  induction p as [p IH|p IH|]; intros x; cbn [SpecFloat.iter_pos].
  - rewrite !IH, Pos2Nat.inj_xI.
    replace (S (2 * Pos.to_nat p)) with (Pos.to_nat p + (Pos.to_nat p + 1))%nat by lia.
    rewrite !Nat.iter_add. done.
  - rewrite !IH, Pos2Nat.inj_xO.
    replace (2 * Pos.to_nat p)%nat with (Pos.to_nat p + Pos.to_nat p)%nat by lia.
    by rewrite Nat.iter_add.
  - done.
Qed.

Lemma shr_1_nonneg m r s :
  0 <= m ->
  shr_1 {| shr_m := m; shr_r := r; shr_s := s |} =
  {| shr_m := m / 2; shr_r := Z.odd m; shr_s := r || s |}.
Proof.
  intros Hm. rewrite <- Z.div2_div.
  destruct m as [|p|p]; [done| |lia].
  by destruct p.
Qed.

Lemma shr_iter m r s (n : nat) :
  0 <= m ->
  Nat.iter (S n) shr_1 {| shr_m := m; shr_r := r; shr_s := s |} =
  {| shr_m := m / 2 ^ Z.of_nat (S n);
     shr_r := Z.testbit m (Z.of_nat n);
     shr_s := r || s || negb (m mod 2 ^ Z.of_nat n =? 0) |}.
Proof.
  intros Hm. induction n as [|n IH].
  - cbn [Nat.iter]. rewrite shr_1_nonneg by done.
    change (Z.of_nat 0) with 0. change (Z.of_nat 1) with 1.
    rewrite Z.pow_1_r, Z.bit0_odd, Z.pow_0_r, Z.mod_1_r. simpl.
    by rewrite orb_false_r.
  - rewrite Nat.iter_succ, IH.
    assert (Hp : 0 < 2 ^ Z.of_nat (S n)) by (apply Z.pow_pos_nonneg; lia).
    rewrite shr_1_nonneg by (apply Z.div_pos; lia).
    f_equal.
    + rewrite Z.div_div by lia.
      rewrite (Nat2Z.inj_succ (S n)), Z.pow_succ_r by lia.
      f_equal. lia.
    + by rewrite Z.testbit_odd, Z.shiftr_div_pow2 by lia.
    + rewrite (Nat2Z.inj_succ n), Z.pow_succ_r by lia.
      rewrite (Z.mul_comm 2), Z.rem_mul_r by lia.
      rewrite <- Z.testbit_spec' by lia.
      assert (0 <= m mod 2 ^ Z.of_nat n < 2 ^ Z.of_nat n)
        by (apply Z.mod_pos_bound, Z.pow_pos_nonneg; lia).
      destruct (Z.testbit m (Z.of_nat n)), r, s; simpl;
        try reflexivity;
        destruct (Z.eqb_spec (m mod 2 ^ Z.of_nat n) 0) as [->|];
        simpl; try reflexivity; symmetry;
        try (apply Z.eqb_neq; lia); try (apply Z.eqb_eq; lia);
        try (apply negb_true_iff, Z.eqb_neq; lia);
        try (apply negb_false_iff, Z.eqb_eq; lia).
Qed.

End Shr.

(** *** The number of binary digits *)

Section Digits.

Lemma Zdigits2_log2 (p : positive) : Zdigits2 (Zpos p) = Z.log2 (Zpos p) + 1.
Proof.
  assert (H : forall q, digits2_pos q = Pos.size q).
  { induction q; simpl; congruence. }
  simpl. rewrite H. destruct p; simpl; try done; lia.
Qed.

Lemma Zdigits2_bounds m :
  0 < m -> 2 ^ (Zdigits2 m - 1) <= m < 2 ^ Zdigits2 m.
Proof.
  intros Hm. destruct m as [|p|p]; try lia.
  rewrite Zdigits2_log2.
  pose proof (Z.log2_spec (Zpos p) Hm) as H.
  replace (Z.log2 (Zpos p) + 1 - 1) with (Z.log2 (Zpos p)) by lia.
  by rewrite <- Z.add_1_r in H.
Qed.

Lemma Zdigits2_unique m d :
  0 < m -> 2 ^ (d - 1) <= m < 2 ^ d -> Zdigits2 m = d.
Proof.
  intros Hm H. destruct m as [|p|p]; try lia.
  rewrite Zdigits2_log2.
  assert (0 < d).
  { destruct (Z_lt_le_dec 0 d) as [|Hd]; [done|]. exfalso.
    destruct (Z.eq_dec d 0) as [->|]; [simpl in H; lia|].
    rewrite (Z.pow_neg_r 2 d) in H by lia. lia. }
  rewrite (Z.log2_unique (Zpos p) (d - 1)); [lia|lia|].
  by replace (Z.succ (d - 1)) with d by lia.
Qed.

Lemma Zdigits2_pos m : 0 < m -> 0 < Zdigits2 m.
Proof. destruct m; simpl; lia. Qed.

Lemma Zdigits2_nonneg m : 0 <= Zdigits2 m.
Proof. destruct m; simpl; lia. Qed.

Lemma Zdigits2_le m m' : 0 < m -> m <= m' -> Zdigits2 m <= Zdigits2 m'.
Proof.
  intros Hm Hle. destruct m as [|p|p], m' as [|p'|p']; try lia.
  rewrite !Zdigits2_log2. pose proof (Z.log2_le_mono _ _ Hle). lia.
Qed.

(** Dropping [n] low bits drops [n] digits. *)
Lemma Zdigits2_div m n :
  0 < m -> 0 <= n < Zdigits2 m ->
  0 < m / 2 ^ n /\ Zdigits2 (m / 2 ^ n) = Zdigits2 m - n.
Proof.
  intros Hm Hn.
  pose proof (Zdigits2_bounds m Hm) as [Hlo Hhi].
  assert (Hpn : 0 < 2 ^ n) by (apply Z.pow_pos_nonneg; lia).
  assert (Hq : 2 ^ (Zdigits2 m - n - 1) <= m / 2 ^ n < 2 ^ (Zdigits2 m - n)).
  { split.
    - apply Z.div_le_lower_bound; [done|].
      rewrite <- Z.pow_add_r by lia.
      by replace (n + (Zdigits2 m - n - 1)) with (Zdigits2 m - 1) by lia.
    - apply Z.div_lt_upper_bound; [done|].
      rewrite <- Z.pow_add_r by lia.
      by replace (n + (Zdigits2 m - n)) with (Zdigits2 m) by lia. }
  assert (0 < 2 ^ (Zdigits2 m - n - 1)) by (apply Z.pow_pos_nonneg; lia).
  split; [lia|]. apply Zdigits2_unique; [lia|done].
Qed.

Lemma Zdigits2_div_small m n :
  0 <= m -> Zdigits2 m <= n -> m / 2 ^ n = 0.
Proof.
  intros Hm Hn. destruct (Z.eq_dec m 0) as [->|Hne].
  - apply Z.div_0_l. apply Z.pow_nonzero; [lia|]. pose proof (Zdigits2_nonneg 0). lia.
  - apply Z.div_small. split; [done|].
    pose proof (Zdigits2_bounds m ltac:(lia)) as [_ Hhi].
    eapply Z.lt_le_trans; [exact Hhi|].
    apply Z.pow_le_mono_r; lia.
Qed.

(** Adding one keeps the digits, or reaches the next power of two. *)
Lemma Zdigits2_succ m :
  0 < m ->
  Zdigits2 (m + 1) = Zdigits2 m \/
  (m + 1 = 2 ^ Zdigits2 m /\ Zdigits2 (m + 1) = Zdigits2 m + 1).
Proof.
  intros Hm.
  pose proof (Zdigits2_bounds m Hm) as [Hlo Hhi].
  pose proof (Zdigits2_pos m Hm).
  destruct (Z.eq_dec (m + 1) (2 ^ Zdigits2 m)) as [Heq|Hne].
  - right. split; [done|].
    apply Zdigits2_unique; [lia|].
    replace (Zdigits2 m + 1 - 1) with (Zdigits2 m) by lia.
    rewrite Z.pow_add_r, Z.pow_1_r by lia. lia.
  - left. apply Zdigits2_unique; lia.
Qed.

Lemma Zdigits2_mul_pow2 m k :
  0 < m -> 0 <= k -> Zdigits2 (m * 2 ^ k) = Zdigits2 m + k.
Proof.
  intros Hm Hk.
  pose proof (Zdigits2_bounds m Hm) as [Hlo Hhi].
  pose proof (Zdigits2_pos m Hm).
  assert (0 < 2 ^ k) by (apply Z.pow_pos_nonneg; lia).
  apply Zdigits2_unique; [nia|].
  replace (Zdigits2 m + k - 1) with (Zdigits2 m - 1 + k) by lia.
  rewrite !Z.pow_add_r by lia. nia.
Qed.

End Digits.

(** *** Rounding to nearest, ties to even *)

Section Rounding.

Lemma fexp_eq x : fexp prec emax x = Z.max (x - 24) (-149).
Proof. reflexivity. Qed.

Lemma fexp_mono x y : x <= y -> fexp prec emax x <= fexp prec emax y.
Proof. rewrite !fexp_eq. lia. Qed.

Lemma rne_shift_0 m : rne_shift m 0 = m.
Proof. reflexivity. Qed.

(** The rounded quotient is the quotient or the next integer. *)
Lemma rne_shift_bounds m n :
  0 <= n -> m / 2 ^ n <= rne_shift m n <= m / 2 ^ n + 1.
Proof.
  intros Hn. unfold rne_shift.
  destruct (n =? 0) eqn:E.
  - apply Z.eqb_eq in E as ->. rewrite Z.pow_0_r, Z.div_1_r. lia.
  - destruct (_ ?= _); [destruct (Z.even _)| |]; lia.
Qed.

(** [shr] by [n] places, started without round or sticky bit, then
    [round_nearest_even]: the quotient by [2^n] rounded to nearest. *)
Lemma shr_exact_spec m e n :
  0 <= m -> 0 <= n ->
  exists mrs,
    shr (shr_record_of_loc m loc_Exact) e n = (mrs, e + n) /\
    shr_m mrs = m / 2 ^ n /\
    round_nearest_even (shr_m mrs) (loc_of_shr_record mrs) = rne_shift m n.
Proof.
  intros Hm Hn. destruct n as [|p|p]; [| |lia].
  - eexists. split; [simpl; by rewrite Z.add_0_r|].
    simpl. by rewrite Z.div_1_r.
  - cbn [shr shr_record_of_loc]. rewrite iter_pos_nat.
    destruct (Pos2Nat.is_succ p) as [k Hk]. rewrite Hk.
    assert (HZ : Z.pos p = Z.of_nat (S k)) by lia.
    rewrite shr_iter by done. rewrite <- HZ.
    eexists. split; [reflexivity|]. cbn [shr_m]. split; [done|].
    unfold rne_shift. cbn [Z.eqb].
    replace (Z.pos p - 1) with (Z.of_nat k) by lia.
    replace (Z.pos p) with (Z.succ (Z.of_nat k)) by lia.
    replace (2 ^ Z.succ (Z.of_nat k)) with (2 ^ Z.of_nat k * 2)
      by (rewrite Z.pow_succ_r; lia).
    rewrite (Z.rem_mul_r m (2 ^ Z.of_nat k) 2) by lia.
    rewrite <- Z.testbit_spec' by lia.
    assert (0 <= m mod 2 ^ Z.of_nat k < 2 ^ Z.of_nat k)
      by (apply Z.mod_pos_bound, Z.pow_pos_nonneg; lia).
    destruct (Z.testbit m (Z.of_nat k)); cbn [Z.b2z orb];
      destruct (Z.eqb_spec (m mod 2 ^ Z.of_nat k) 0) as [E0|E0];
      cbn [negb loc_of_shr_record round_nearest_even].
    + rewrite E0, Z.add_0_l, Z.mul_1_r, Z.compare_refl. done.
    + rewrite (proj2 (Z.compare_gt_iff _ _)) by lia. done.
    + rewrite E0, Z.add_0_l, Z.mul_0_r.
      rewrite (proj2 (Z.compare_lt_iff _ _)) by lia. done.
    + rewrite (proj2 (Z.compare_lt_iff _ _)) by lia. done.
Qed.

(** After the rounding the mantissa is canonical, up to one more shift
    when the rounding carried into a 25th bit. *)
Lemma round_canonical M e n m1 n2 :
  0 < M ->
  0 <= n ->
  n = fexp prec emax (Zdigits2 M + e) - e ->
  m1 = rne_shift M n ->
  n2 = fexp prec emax (Zdigits2 m1 + (e + n)) - (e + n) ->
  0 <= m1 /\ 0 <= n2 <= 1 /\ m1 / 2 ^ n2 * 2 ^ n2 = m1 /\
  fexp prec emax (Zdigits2 (m1 / 2 ^ n2) + (e + n + n2)) = e + n + n2.
Proof.
  intros HM Hn En Em1 En2.
  pose proof (rne_shift_bounds M n Hn) as Hm1. rewrite <- Em1 in Hm1.
  assert (Hfin : n2 = 0 -> 0 <= n2 <= 1 /\ m1 / 2 ^ n2 * 2 ^ n2 = m1 /\
                 Zdigits2 (m1 / 2 ^ n2) = Zdigits2 m1).
  { intros ->. rewrite Z.pow_0_r, Z.div_1_r. split; [lia|]. split; [lia|done]. }
  rewrite fexp_eq in En, En2. rewrite fexp_eq.
  destruct (Z_lt_le_dec n (Zdigits2 M)) as [Hlt|Hge].
  - destruct (Zdigits2_div M n HM ltac:(lia)) as [Hq Hdq].
    remember (M / 2 ^ n) as q eqn:Eq.
    split; [lia|].
    assert (Hcase : m1 = q \/ m1 = q + 1) by lia.
    destruct Hcase as [E|E].
    + assert (n2 = 0) as Hn2 by (rewrite E in En2; lia).
      destruct (Hfin Hn2) as (? & ? & Hd).
      split; [done|]. split; [done|]. rewrite Hd, E. lia.
    + destruct (Zdigits2_succ q Hq) as [Hs|[Hpow Hs]].
      * assert (n2 = 0) as Hn2 by (rewrite E, Hs in En2; lia).
        destruct (Hfin Hn2) as (? & ? & Hd).
        split; [done|]. split; [done|]. rewrite Hd, E, Hs. lia.
      * rewrite E, Hs in En2.
        destruct (Z.eq_dec (Zdigits2 q) 24) as [H24|H24].
        -- assert (n2 = 1) as Hn2 by lia.
           rewrite Hn2. rewrite E, Hpow, H24.
           change (2 ^ 24 / 2 ^ 1) with 8388608.
           change (Zdigits2 8388608) with 24.
           split; [lia|]. split; [done|]. lia.
        -- assert (n2 = 0) as Hn2 by lia.
           destruct (Hfin Hn2) as (? & ? & Hd).
           split; [done|]. split; [done|]. rewrite Hd, E, Hs. lia.
  - pose proof (Zdigits2_div_small M n ltac:(lia) Hge) as Hq.
    pose proof (Zdigits2_pos M HM) as HdM.
    assert (He' : e + n = -149) by lia.
    rewrite Hq in Hm1. split; [lia|].
    assert (Hcase : m1 = 0 \/ m1 = 1) by lia.
    assert (n2 = 0) as Hn2.
    { rewrite En2, He'. destruct Hcase as [-> | ->]; reflexivity. }
    destruct (Hfin Hn2) as (? & ? & Hd).
    split; [done|]. split; [done|]. rewrite Hd, Hn2, He'.
    destruct Hcase as [-> | ->]; reflexivity.
Qed.

(** [binary_round_aux] on an exact product or sum: the mantissa rounded
    to nearest at the exponent the format gives it, renormalised. *)
Lemma binary_round_aux_spec s (m : positive) e :
  e <= fexp prec emax (Zdigits2 (Zpos m) + e) ->
  let n := fexp prec emax (Zdigits2 (Zpos m) + e) - e in
  exists m2 e2,
    0 <= m2 /\
    m2 * 2 ^ (e2 - (e + n)) = rne_shift (Zpos m) n /\
    e + n <= e2 <= e + n + 1 /\
    fexp prec emax (Zdigits2 m2 + e2) = e2 /\
    binary_round_aux prec emax s (Zpos m) e loc_Exact =
      match m2 with
      | Z0 => S754_zero s
      | Zpos p =>
          if e2 <=? emax - prec then S754_finite s p e2 else S754_infinity s
      | Zneg _ => S754_nan
      end.
Proof.
  intros He n.
  remember (rne_shift (Zpos m) n) as m1 eqn:Em1.
  remember (fexp prec emax (Zdigits2 m1 + (e + n)) - (e + n)) as n2 eqn:En2.
  assert (Hn : 0 <= n) by (subst n; lia).
  destruct (round_canonical (Zpos m) e n m1 n2 ltac:(lia) Hn eq_refl Em1 En2)
    as (Hm1 & Hn2 & Hex & Hcan).
  destruct (shr_exact_spec (Zpos m) e n ltac:(lia) Hn)
    as (mrs1 & Hs1 & _ & Hr1).
  destruct (shr_exact_spec m1 (e + n) n2 Hm1 ltac:(lia))
    as (mrs2 & Hs2 & Hm2 & _).
  exists (m1 / 2 ^ n2), (e + n + n2).
  split; [apply Z.div_pos; [lia|apply Z.pow_pos_nonneg; lia]|].
  split; [by replace (e + n + n2 - (e + n)) with n2 by lia|].
  split; [lia|]. split; [done|].
  unfold binary_round_aux, shr_fexp. fold n. rewrite Hs1.
  rewrite Hr1, <- Em1, <- En2, Hs2. by rewrite Hm2.
Qed.

End Rounding.

(** *** The operations return binary32 numbers *)

Section Validity.

Lemma valid_finite s m e :
  valid (S754_finite s m e) = true <->
  fexp prec emax (Zdigits2 (Zpos m) + e) = e /\ e <= 104.
Proof.
  unfold valid, valid_binary, bounded, canonical_mantissa.
  rewrite andb_true_iff, Z.eqb_eq, Z.leb_le. done.
Qed.

(** Shape of a valid finite float: at most 24 digits, exactly 24 unless
    the exponent is the least one. *)
Lemma valid_finite_digits s m e :
  valid (S754_finite s m e) = true ->
  -149 <= e <= 104 /\ 0 < Zdigits2 (Zpos m) <= 24 /\
  (Zdigits2 (Zpos m) = 24 \/ e = -149).
Proof.
  rewrite valid_finite, fexp_eq. intros [Hc Hb].
  pose proof (Zdigits2_pos (Zpos m) ltac:(lia)). lia.
Qed.

Lemma binary_round_aux_valid s (m : positive) e :
  e <= fexp prec emax (Zdigits2 (Zpos m) + e) ->
  valid (binary_round_aux prec emax s (Zpos m) e loc_Exact) = true /\
  is_nan (binary_round_aux prec emax s (Zpos m) e loc_Exact) = false.
Proof.
  intros He.
  destruct (binary_round_aux_spec s m e He) as (m2 & e2 & Hm2 & _ & _ & Hc & ->).
  destruct m2 as [|p|p]; [done| |lia].
  destruct (Z.leb_spec e2 (emax - prec)) as [Hle|Hgt]; [|done].
  split; [|done]. apply valid_finite. split; [done|]. exact Hle.
Qed.

Lemma iter_xO (m d : positive) : Zpos (Pos.iter xO m d) = Zpos m * 2 ^ Zpos d.
Proof.
  induction d as [|d IH] using Pos.peano_ind.
  - simpl. lia.
  - rewrite Pos.iter_succ, Pos2Z.inj_xO, IH, Pos2Z.inj_succ, Z.pow_succ_r by lia.
    lia.
Qed.

(** [shl_align] keeps the value and lowers the exponent to [e'] at most. *)
Lemma shl_align_spec m e e' :
  exists mz ez,
    shl_align m e e' = (mz, ez) /\ ez = Z.min e e' /\
    Zpos mz = Zpos m * 2 ^ (e - ez) /\
    Zdigits2 (Zpos mz) + ez = Zdigits2 (Zpos m) + e.
Proof.
  unfold shl_align. destruct (e' - e) as [|d|d] eqn:E.
  - exists m, e. split; [done|]. split; [lia|].
    rewrite Z.sub_diag. split; [lia|done].
  - exists m, e. split; [done|]. split; [lia|].
    rewrite Z.sub_diag. split; [lia|done].
  - exists (Pos.iter xO m d), e'. split; [done|]. split; [lia|].
    rewrite iter_xO. replace (e - e') with (Zpos d) by lia. split; [done|].
    pose proof (Zdigits2_bounds (Zpos m) ltac:(lia)) as [Hlo Hhi].
    pose proof (Zdigits2_pos (Zpos m) ltac:(lia)).
    rewrite (Zdigits2_unique (Zpos m * 2 ^ Zpos d) (Zdigits2 (Zpos m) + Zpos d)).
    + lia.
    + assert (0 < 2 ^ Zpos d) by (apply Z.pow_pos_nonneg; lia). nia.
    + replace (Zdigits2 (Zpos m) + Zpos d - 1)
        with (Zdigits2 (Zpos m) - 1 + Zpos d) by lia.
      rewrite !Z.pow_add_r by lia.
      assert (0 < 2 ^ Zpos d) by (apply Z.pow_pos_nonneg; lia). nia.
Qed.

Lemma binary_round_valid s m e :
  valid (binary_round prec emax s m e) = true /\
  is_nan (binary_round prec emax s m e) = false.
Proof.
  unfold binary_round.
  destruct (shl_align_spec m e (fexp prec emax (Zpos (digits2_pos m) + e)))
    as (mz & ez & -> & Hez & _ & Hd).
  apply binary_round_aux_valid.
  rewrite Hd. change (Zdigits2 (Zpos m)) with (Zpos (digits2_pos m)). lia.
Qed.

Lemma binary_normalize_valid z e b :
  valid (binary_normalize prec emax z e b) = true /\
  is_nan (binary_normalize prec emax z e b) = false.
Proof. destruct z; [done| |]; apply binary_round_valid. Qed.

Lemma of_int_valid z : valid (of_int z) = true /\ is_nan (of_int z) = false.
Proof. apply binary_normalize_valid. Qed.

Lemma add_valid x y :
  valid x = true -> valid y = true -> valid (add x y) = true.
Proof.
  intros Hx Hy. unfold add.
  destruct x as [sx|sx| |sx mx ex], y as [sy|sy| |sy my ey];
    try done; try (by destruct sx, sy).
  cbn [SFadd]. apply binary_normalize_valid.
Qed.

Lemma sub_valid x y :
  valid x = true -> valid y = true -> valid (sub x y) = true.
Proof.
  intros Hx Hy. unfold sub.
  destruct x as [sx|sx| |sx mx ex], y as [sy|sy| |sy my ey];
    try done; try (by destruct sx, sy).
  cbn [SFsub]. apply binary_normalize_valid.
Qed.

Lemma mul_valid x y :
  valid x = true -> valid y = true -> valid (mul x y) = true.
Proof.
  intros Hx Hy. unfold mul.
  destruct x as [sx|sx| |sx mx ex], y as [sy|sy| |sy my ey]; try done.
  cbn [SFmul]. apply binary_round_aux_valid.
  apply valid_finite_digits in Hx as (Hex & Hdx & Hnx).
  apply valid_finite_digits in Hy as (Hey & Hdy & Hny).
  rewrite fexp_eq, Pos2Z.inj_mul.
  pose proof (Zdigits2_bounds (Zpos mx) ltac:(lia)) as [Hlx _].
  pose proof (Zdigits2_bounds (Zpos my) ltac:(lia)) as [Hly _].
  assert (Hd : Zdigits2 (Zpos mx) + Zdigits2 (Zpos my) - 1
               <= Zdigits2 (Zpos mx * Zpos my)).
  { destruct (Z_lt_le_dec (Zdigits2 (Zpos mx * Zpos my))
                (Zdigits2 (Zpos mx) + Zdigits2 (Zpos my) - 1)) as [Hlt|]; [|done].
    exfalso.
    pose proof (Zdigits2_bounds (Zpos mx * Zpos my) ltac:(lia)) as [_ Hhi].
    assert (2 ^ Zdigits2 (Zpos mx * Zpos my)
            <= 2 ^ (Zdigits2 (Zpos mx) - 1 + (Zdigits2 (Zpos my) - 1)))
      by (apply Z.pow_le_mono_r; lia).
    rewrite Z.pow_add_r in * by lia.
    assert (0 < 2 ^ (Zdigits2 (Zpos mx) - 1)) by (apply Z.pow_pos_nonneg; lia).
    assert (0 < 2 ^ (Zdigits2 (Zpos my) - 1)) by (apply Z.pow_pos_nonneg; lia).
    nia. }
  lia.
Qed.

End Validity.

(** *** Comparison and integer part *)

Section Order.

Lemma scaled_finite_pos m e : 0 < Zpos m * 2 ^ (e + 149) \/ e + 149 < 0.
Proof.
  destruct (Z_lt_le_dec (e + 149) 0); [by right|left].
  assert (0 < 2 ^ (e + 149)) by (apply Z.pow_pos_nonneg; lia). lia.
Qed.

(** Among valid floats a smaller exponent is a smaller magnitude. *)
Lemma valid_exponent_lt s1 m1 e1 s2 m2 e2 :
  valid (S754_finite s1 m1 e1) = true ->
  valid (S754_finite s2 m2 e2) = true ->
  e1 < e2 ->
  Zpos m1 * 2 ^ (e1 + 149) < Zpos m2 * 2 ^ (e2 + 149).
Proof.
  intros H1 H2 Hlt.
  apply valid_finite_digits in H1 as (He1 & Hd1 & _).
  apply valid_finite_digits in H2 as (He2 & Hd2 & Hn2).
  assert (Hd24 : Zdigits2 (Zpos m2) = 24) by lia.
  pose proof (Zdigits2_bounds (Zpos m1) ltac:(lia)) as [_ Hhi].
  pose proof (Zdigits2_bounds (Zpos m2) ltac:(lia)) as [Hlo _].
  rewrite Hd24 in Hlo. change (2 ^ (24 - 1)) with 8388608 in Hlo.
  assert (Zpos m1 < 16777216).
  { eapply Z.lt_le_trans; [exact Hhi|].
    change 16777216 with (2 ^ 24). apply Z.pow_le_mono_r; lia. }
  assert (Hp : 2 * 2 ^ (e1 + 149) <= 2 ^ (e2 + 149)).
  { rewrite <- Z.pow_succ_r by lia. apply Z.pow_le_mono_r; lia. }
  assert (0 < 2 ^ (e1 + 149)) by (apply Z.pow_pos_nonneg; lia).
  nia.
Qed.

Lemma magnitude_compare s1 m1 e1 s2 m2 e2 :
  valid (S754_finite s1 m1 e1) = true ->
  valid (S754_finite s2 m2 e2) = true ->
  match e1 ?= e2 with
  | Lt => Lt
  | Gt => Gt
  | Eq => Pos.compare_cont Eq m1 m2
  end = (Zpos m1 * 2 ^ (e1 + 149) ?= Zpos m2 * 2 ^ (e2 + 149)).
Proof.
  intros H1 H2. symmetry.
  destruct (Z.compare_spec e1 e2) as [->|Hlt|Hgt].
  - pose proof (valid_finite_digits _ _ _ H2) as (He2 & _).
    assert (0 < 2 ^ (e2 + 149)) by (apply Z.pow_pos_nonneg; lia).
    rewrite <- Zmult_compare_compat_r by lia. done.
  - apply Z.compare_lt_iff. by eapply valid_exponent_lt.
  - apply Z.compare_gt_iff. by eapply valid_exponent_lt.
Qed.

(** On valid finite floats [SFcompare] compares the scaled values. *)
Lemma compare_scaled x y :
  valid x = true -> valid y = true ->
  is_finite x = true -> is_finite y = true ->
  SFcompare x y = Some (scaled x ?= scaled y).
Proof.
  intros Hx Hy Fx Fy.
  destruct x as [sx|sx| |sx mx ex], y as [sy|sy| |sy my ey]; try done.
  - pose proof (valid_finite_digits _ _ _ Hy) as (He & _).
    destruct (scaled_finite_pos my ey) as [Hp|]; [|lia].
    cbn [SFcompare scaled]. f_equal. symmetry.
    destruct sy; [apply Z.compare_gt_iff|apply Z.compare_lt_iff]; lia.
  - pose proof (valid_finite_digits _ _ _ Hx) as (He & _).
    destruct (scaled_finite_pos mx ex) as [Hp|]; [|lia].
    cbn [SFcompare scaled]. f_equal. symmetry.
    destruct sx; [apply Z.compare_lt_iff|apply Z.compare_gt_iff]; lia.
  - pose proof (valid_finite_digits _ _ _ Hx) as (Hex & _).
    pose proof (valid_finite_digits _ _ _ Hy) as (Hey & _).
    destruct (scaled_finite_pos mx ex) as [Hpx|]; [|lia].
    destruct (scaled_finite_pos my ey) as [Hpy|]; [|lia].
    cbn [SFcompare scaled]. f_equal.
    destruct sx, sy.
    + replace (-1 * (Zpos mx * 2 ^ (ex + 149)) ?= -1 * (Zpos my * 2 ^ (ey + 149)))
        with (CompOpp (Zpos mx * 2 ^ (ex + 149) ?= Zpos my * 2 ^ (ey + 149))).
      * rewrite <- (magnitude_compare true mx ex true my ey Hx Hy).
        by destruct (ex ?= ey).
      * rewrite <- Z.compare_antisym, <- Z.compare_opp. f_equal; lia.
    + symmetry. apply Z.compare_lt_iff. lia.
    + symmetry. apply Z.compare_gt_iff. lia.
    + rewrite (magnitude_compare false mx ex false my ey Hx Hy).
      f_equal; lia.
Qed.

Lemma lt_scaled x y :
  valid x = true -> valid y = true ->
  is_finite x = true -> is_finite y = true ->
  lt x y = (scaled x <? scaled y).
Proof.
  intros Hx Hy Fx Fy. unfold lt, SFltb.
  rewrite (compare_scaled x y Hx Hy Fx Fy). unfold Z.ltb.
  by destruct (scaled x ?= scaled y).
Qed.

Lemma gt_scaled x y :
  valid x = true -> valid y = true ->
  is_finite x = true -> is_finite y = true ->
  gt x y = (scaled y <? scaled x).
Proof. intros. by apply (lt_scaled y x). Qed.

(** The integer part of a valid finite float is the quotient of its
    scaled value by [2^149], rounded toward zero. *)
Lemma trunc_scaled x :
  valid x = true -> is_finite x = true ->
  trunc x = Some (scaled x ÷ 2 ^ 149).
Proof.
  intros Hx Fx. destruct x as [sx|sx| |sx mx ex]; try done.
  pose proof (valid_finite_digits _ _ _ Hx) as (He & _).
  cbn [trunc scaled]. f_equal.
  assert (Hmag : match ex with
                 | Z.neg p => Z.shiftr (Z.pos mx) (Z.pos p)
                 | _ => Z.shiftl (Z.pos mx) ex
                 end = (Zpos mx * 2 ^ (ex + 149)) ÷ 2 ^ 149).
  { destruct ex as [|p|p].
    - rewrite Z.shiftl_0_r. change (0 + 149) with 149.
      by rewrite Z.quot_mul.
    - rewrite Z.shiftl_mul_pow2 by lia.
      rewrite Z.pow_add_r, Z.mul_assoc by lia. by rewrite Z.quot_mul.
    - rewrite Z.shiftr_div_pow2 by lia.
      assert (0 < 2 ^ (Z.neg p + 149)) by (apply Z.pow_pos_nonneg; lia).
      assert (0 < 2 ^ Zpos p) by (apply Z.pow_pos_nonneg; lia).
      rewrite Z.quot_div_nonneg by lia.
      replace (2 ^ 149) with (2 ^ Zpos p * 2 ^ (Z.neg p + 149)).
      + by rewrite Z.div_mul_cancel_r by lia.
      + rewrite <- Z.pow_add_r by lia. f_equal. lia. }
  rewrite Hmag. destruct sx.
  - rewrite <- Z.quot_opp_l by done. f_equal; lia.
  - f_equal; lia.
Qed.

End Order.

(** ** The range tests of [filter_sample] *)

Section Clamp.

Lemma of_int_max : of_int 32767 = S754_finite false 16776704 (-9).
Proof. reflexivity. Qed.

Lemma of_int_min : of_int (-32768) = S754_finite true 8388608 (-8).
Proof. reflexivity. Qed.

Lemma scaled_of_int_max : scaled (of_int 32767) = 32767 * 2 ^ 149.
Proof. reflexivity. Qed.

Lemma scaled_of_int_min : scaled (of_int (-32768)) = -32768 * 2 ^ 149.
Proof. reflexivity. Qed.

Lemma to_int16_scaled r :
  valid r = true -> is_finite r = true ->
  -32768 * 2 ^ 149 <= scaled r <= 32767 * 2 ^ 149 ->
  to_int16 r = Some (scaled r ÷ 2 ^ 149) /\ in_int16 (scaled r ÷ 2 ^ 149).
Proof.
  intros Hv Hf [Hlo Hhi].
  assert (Hr : in_int16 (scaled r ÷ 2 ^ 149)).
  { assert (0 < 2 ^ 149) by done.
    split.
    - change INT16_MIN with ((-32768 * 2 ^ 149) ÷ 2 ^ 149).
      apply Z.quot_le_mono; lia.
    - change INT16_MAX with ((32767 * 2 ^ 149) ÷ 2 ^ 149).
      apply Z.quot_le_mono; lia. }
  split; [|done].
  unfold to_int16. rewrite (trunc_scaled r Hv Hf). cbn [mbind option_bind].
  unfold in_int16 in Hr. unfold in_int16b.
  rewrite (proj2 (Z.leb_le _ _) (proj1 Hr)), (proj2 (Z.leb_le _ _) (proj2 Hr)).
  done.
Qed.

Lemma filter_clamp_to_int16 st f :
  min_val st = -32768 -> max_val st = 32767 ->
  valid f = true -> is_nan f = false ->
  exists y,
    to_int16 (filter_clamp st f) = Some y /\ in_int16 y /\
    (is_finite f = true ->
     y = Z.max (Z.min (scaled f) (32767 * 2 ^ 149)) (-32768 * 2 ^ 149) ÷ 2 ^ 149).
Proof.
  intros Hmin Hmax Hv Hn. unfold filter_clamp. rewrite Hmin, Hmax.
  destruct (is_finite f) eqn:Hf.
  - pose proof (of_int_valid 32767) as [Vhi _].
    pose proof (of_int_valid (-32768)) as [Vlo _].
    rewrite (gt_scaled f (of_int 32767)) by done.
    rewrite scaled_of_int_max.
    set (g := if 32767 * 2 ^ 149 <? scaled f then of_int 32767 else f).
    assert (Hg : valid g = true /\ is_finite g = true /\
                 scaled g = Z.min (scaled f) (32767 * 2 ^ 149)).
    { unfold g. destruct (Z.ltb_spec (32767 * 2 ^ 149) (scaled f)).
      - rewrite scaled_of_int_max. split; [done|]. split; [done|]. lia.
      - split; [done|]. split; [done|]. lia. }
    destruct Hg as (Vg & Fg & Sg).
    rewrite (lt_scaled g (of_int (-32768))) by done.
    rewrite scaled_of_int_min.
    set (r := if scaled g <? -32768 * 2 ^ 149 then of_int (-32768) else g).
    assert (Hr : valid r = true /\ is_finite r = true /\
                 scaled r = Z.max (scaled g) (-32768 * 2 ^ 149)).
    { unfold r. destruct (Z.ltb_spec (scaled g) (-32768 * 2 ^ 149)).
      - rewrite scaled_of_int_min. split; [done|]. split; [done|]. lia.
      - split; [done|]. split; [done|]. lia. }
    destruct Hr as (Vr & Fr & Sr).
    assert (0 < 2 ^ 149) by done.
    destruct (to_int16_scaled r Vr Fr) as [Hto Hin]; [lia|].
    eexists. split; [exact Hto|]. split; [exact Hin|].
    intros _. by rewrite Sr, Sg.
  - destruct f as [s|s| |s m e]; try done.
    destruct s.
    + exists (-32768). split; [reflexivity|]. split; [|done].
      unfold in_int16, INT16_MIN, INT16_MAX. lia.
    + exists 32767. split; [reflexivity|]. split; [|done].
      unfold in_int16, INT16_MIN, INT16_MAX. lia.
Qed.

Lemma filter_output_float_valid st x :
  valid (alpha st) = true -> valid (filter_output_float st x) = true.
Proof.
  intros Ha. unfold filter_output_float.
  apply add_valid; apply mul_valid; try done; try apply of_int_valid.
  by apply sub_valid.
Qed.

Lemma filter_sample_clamp_output st x :
  min_val st = -32768 -> max_val st = 32767 ->
  filter_sample st x =
    (fun y => (y, set_prev_output y st)) <$>
      clamp_output (input_term (alpha st) x)
                   (feedback_term (alpha st) (prev_output st)).
Proof.
  intros Hmin Hmax.
  unfold filter_sample, clamp_output, filter_clamp, filter_output_float,
    input_term, feedback_term.
  rewrite Hmin, Hmax. cbn [min_val max_val half_filter].
  by destruct (to_int16 _).
Qed.

(** In the model a NaN has no [int16_t] value, clamped or not. *)
Lemma filter_clamp_nan st : to_int16 (filter_clamp st S754_nan) = None.
Proof.
  unfold filter_clamp, gt, lt, SFltb.
  destruct (of_int (max_val st)); destruct (of_int (min_val st)); done.
Qed.

End Clamp.

(** ** The value of a rounded sum *)

Section Value.

Lemma rne_shift_exact m n :
  0 <= n -> m mod 2 ^ n = 0 -> rne_shift m n = m / 2 ^ n.
Proof.
  intros Hn Hmod. unfold rne_shift.
  destruct (Z.eqb_spec n 0) as [->|Hne].
  - by rewrite Z.pow_0_r, Z.div_1_r.
  - rewrite Hmod.
    assert (0 < 2 ^ (n - 1)) by (apply Z.pow_pos_nonneg; lia).
    by rewrite (proj2 (Z.compare_lt_iff _ _)) by lia.
Qed.

(** Rounding does not depend on the unit the mantissa is written in. *)
Lemma rne_shift_scale m n k :
  0 <= n -> 0 <= k -> rne_shift (m * 2 ^ k) (n + k) = rne_shift m n.
Proof.
  intros Hn Hk.
  assert (Hpk : 0 < 2 ^ k) by (apply Z.pow_pos_nonneg; lia).
  destruct (Z.eq_dec n 0) as [->|Hne].
  - rewrite rne_shift_0, Z.add_0_l.
    rewrite rne_shift_exact by (try apply Z.mod_mul; lia).
    by rewrite Z.div_mul by lia.
  - unfold rne_shift.
    rewrite (proj2 (Z.eqb_neq n 0)) by done.
    rewrite (proj2 (Z.eqb_neq (n + k) 0)) by lia.
    assert (Hpn : 0 < 2 ^ n) by (apply Z.pow_pos_nonneg; lia).
    rewrite Z.pow_add_r by lia.
    rewrite Z.div_mul_cancel_r by lia.
    rewrite Z.mul_mod_distr_r by lia.
    replace (n + k - 1) with (n - 1 + k) by lia.
    rewrite Z.pow_add_r by lia.
    by rewrite <- Zmult_compare_compat_r by lia.
Qed.

Lemma round_scaled_pos_0 : round_scaled_pos 0 = 0.
Proof. reflexivity. Qed.

Lemma round_scaled_pos_nonneg M : 0 <= M -> 0 <= round_scaled_pos M.
Proof.
  intros HM. unfold round_scaled_pos.
  set (n := Z.max (Zdigits2 M - 24) 0).
  assert (Hn : 0 <= n) by (unfold n; lia).
  pose proof (rne_shift_bounds M n Hn) as [Hlo _].
  assert (0 <= M / 2 ^ n) by (apply Z.div_pos; [done|apply Z.pow_pos_nonneg; lia]).
  apply Z.mul_nonneg_nonneg; [lia|]. apply Z.pow_nonneg. lia.
Qed.

(** [binary_round] of a mantissa and exponent that do not overflow: the
    scaled value is the rounded scaled value. *)
Lemma binary_round_scaled s m e :
  -149 <= e -> Zdigits2 (Zpos m) + e <= 127 ->
  is_finite (binary_round prec emax s m e) = true /\
  valid (binary_round prec emax s m e) = true /\
  scaled (binary_round prec emax s m e) =
    (if s then -1 else 1) * round_scaled_pos (Zpos m * 2 ^ (e + 149)).
Proof.
  intros He Hd.
  pose proof (binary_round_valid s m e) as [Hv _].
  split; [|split; [done|]]; revert Hv; unfold binary_round;
  destruct (shl_align_spec m e (fexp prec emax (Zpos (digits2_pos m) + e)))
    as (mz & ez & -> & Hez & Hmz & Hdz);
  change (Zpos (digits2_pos m)) with (Zdigits2 (Zpos m)) in Hez;
  (assert (Hpre : ez <= fexp prec emax (Zdigits2 (Zpos mz) + ez))
    by (rewrite Hdz; lia));
  destruct (binary_round_aux_spec s mz ez Hpre)
    as (m2 & e2 & Hm2 & Hval & He2 & Hc & ->);
  rewrite Hdz in He2, Hval; rewrite fexp_eq in He2, Hval, Hez;
  intros Hv.
  - destruct m2 as [|p|p]; [done| |lia].
    by rewrite (proj2 (Z.leb_le e2 (emax - prec))) by (unfold emax, prec; lia).
  - unfold round_scaled_pos.
    pose proof (Zdigits2_pos (Zpos m) ltac:(lia)) as Hdp.
    rewrite Zdigits2_mul_pow2 by lia.
    assert (Hn : Z.max (Zdigits2 (Zpos m) + (e + 149) - 24) 0
                 = (Z.max (Zdigits2 (Zpos m) + e - 24) (-149) - ez) + (ez + 149))
      by lia.
    rewrite Hn.
    replace (Zpos m * 2 ^ (e + 149)) with (Zpos mz * 2 ^ (ez + 149)).
    2:{ rewrite Hmz, <- Z.mul_assoc, <- Z.pow_add_r by lia. do 2 f_equal. lia. }
    rewrite rne_shift_scale by lia.
    rewrite <- Hval.
    rewrite <- Z.mul_assoc, <- Z.pow_add_r by lia.
    replace (e2 - (ez + (Z.max (Zdigits2 (Zpos m) + e - 24) (-149) - ez)) +
             (Z.max (Zdigits2 (Zpos m) + e - 24) (-149) - ez + (ez + 149)))
      with (e2 + 149) by lia.
    destruct m2 as [|p|p]; [by destruct s| |lia].
    by rewrite (proj2 (Z.leb_le e2 (emax - prec))) by (unfold emax, prec; lia).
Qed.

(** A valid float is its own rounding. *)
Lemma round_scaled_pos_valid s m e :
  valid (S754_finite s m e) = true ->
  round_scaled_pos (Zpos m * 2 ^ (e + 149)) = Zpos m * 2 ^ (e + 149).
Proof.
  intros Hv. apply valid_finite_digits in Hv as (He & Hd & Hn).
  unfold round_scaled_pos.
  rewrite Zdigits2_mul_pow2 by lia.
  replace (Z.max (Zdigits2 (Zpos m) + (e + 149) - 24) 0) with (0 + (e + 149)) by lia.
  rewrite rne_shift_scale by lia. by rewrite rne_shift_0, Z.add_0_l.
Qed.

Lemma round_scaled_valid x :
  valid x = true -> is_finite x = true ->
  round_scaled (scaled x) = scaled x.
Proof.
  intros Hv Hf. destruct x as [sx|sx| |sx mx ex]; try done.
  pose proof (round_scaled_pos_valid sx mx ex Hv) as Hr.
  pose proof (valid_finite_digits _ _ _ Hv) as (He & _).
  assert (0 < 2 ^ (ex + 149)) by (apply Z.pow_pos_nonneg; lia).
  assert (HM : 0 < Zpos mx * 2 ^ (ex + 149)) by lia.
  unfold round_scaled. cbn [scaled]. destruct sx.
  - rewrite Z.sgn_neg by lia.
    replace (Z.abs (-1 * (Zpos mx * 2 ^ (ex + 149))))
      with (Zpos mx * 2 ^ (ex + 149)) by lia.
    by rewrite Hr.
  - rewrite Z.sgn_pos by lia.
    replace (Z.abs (1 * (Zpos mx * 2 ^ (ex + 149))))
      with (Zpos mx * 2 ^ (ex + 149)) by lia.
    by rewrite Hr.
Qed.

Lemma Zdigits2_lt_pow2 M k : 0 < M -> 0 <= k -> M < 2 ^ k -> Zdigits2 M <= k.
Proof.
  intros HM Hk Hlt.
  destruct (Z_lt_le_dec k (Zdigits2 M)) as [Hc|]; [|done]. exfalso.
  pose proof (Zdigits2_bounds M HM) as [Hlo _].
  assert (2 ^ k <= 2 ^ (Zdigits2 M - 1)) by (apply Z.pow_le_mono_r; lia).
  lia.
Qed.

(** [binary_normalize] of an integer and an exponent that do not
    overflow. *)
Lemma binary_normalize_scaled z e :
  -149 <= e -> Z.abs (z * 2 ^ (e + 149)) < 2 ^ 276 ->
  is_finite (binary_normalize prec emax z e false) = true /\
  valid (binary_normalize prec emax z e false) = true /\
  scaled (binary_normalize prec emax z e false) = round_scaled (z * 2 ^ (e + 149)).
Proof.
  intros He Hb.
  assert (Hp : 0 < 2 ^ (e + 149)) by (apply Z.pow_pos_nonneg; lia).
  assert (Hd : forall p, Z.abs z = Zpos p -> Zdigits2 (Zpos p) + e <= 127).
  { intros p Hz.
    pose proof (Zdigits2_lt_pow2 (Zpos p * 2 ^ (e + 149)) 276) as H.
    rewrite Zdigits2_mul_pow2 in H by lia.
    assert (Z.abs (z * 2 ^ (e + 149)) = Zpos p * 2 ^ (e + 149))
      by (rewrite Z.abs_mul, Hz; lia).
    lia. }
  destruct z as [|p|p]; cbn [binary_normalize].
  - done.
  - destruct (binary_round_scaled false p e He (Hd p eq_refl)) as (Hf & Hv & ->).
    split; [done|]. split; [done|].
    unfold round_scaled. rewrite Z.sgn_pos, Z.abs_eq by lia. lia.
  - destruct (binary_round_scaled true p e He (Hd p eq_refl)) as (Hf & Hv & ->).
    split; [done|]. split; [done|].
    unfold round_scaled. rewrite Z.sgn_neg by lia.
    by replace (Z.abs (Z.neg p * 2 ^ (e + 149))) with (Zpos p * 2 ^ (e + 149)) by lia.
Qed.

(** The integer [SFadd] hands to [binary_normalize] is the exact sum. *)
Lemma aligned_sum sx mx ex sy my ey :
  -149 <= ex -> -149 <= ey ->
  (SpecFloat.cond_Zopp sx (Zpos (shl_align mx ex (Z.min ex ey)).1) +
   SpecFloat.cond_Zopp sy (Zpos (shl_align my ey (Z.min ex ey)).1))
  * 2 ^ (Z.min ex ey + 149)
  = scaled (S754_finite sx mx ex) + scaled (S754_finite sy my ey).
Proof.
  intros Hex Hey.
  destruct (shl_align_spec mx ex (Z.min ex ey)) as (mx' & ex' & -> & Hex' & Hmx' & _).
  destruct (shl_align_spec my ey (Z.min ex ey)) as (my' & ey' & -> & Hey' & Hmy' & _).
  cbn [fst scaled]. rewrite Hmx', Hmy'.
  replace (ex + 149) with (ex - ex' + (Z.min ex ey + 149)) by lia.
  replace (ey + 149) with (ey - ey' + (Z.min ex ey + 149)) by lia.
  rewrite (Z.pow_add_r 2 (ex - ex')), (Z.pow_add_r 2 (ey - ey')) by lia.
  destruct sx, sy; cbn [SpecFloat.cond_Zopp]; ring.
Qed.

(** The sum of two valid finite floats that does not overflow is the
    rounding of the exact sum. *)
Lemma add_scaled x y :
  valid x = true -> valid y = true ->
  is_finite x = true -> is_finite y = true ->
  Z.abs (scaled x + scaled y) < 2 ^ 276 ->
  is_finite (add x y) = true /\ valid (add x y) = true /\
  scaled (add x y) = round_scaled (scaled x + scaled y).
Proof.
  intros Hx Hy Fx Fy Hb.
  destruct x as [sx|sx| |sx mx ex], y as [sy|sy| |sy my ey]; try done.
  - by destruct sx, sy.
  - split; [done|]. split; [done|].
    change (scaled (S754_zero sx)) with 0. rewrite Z.add_0_l.
    symmetry. by apply round_scaled_valid.
  - split; [done|]. split; [done|].
    change (scaled (S754_zero sy)) with 0. rewrite Z.add_0_r.
    symmetry. by apply round_scaled_valid.
  - pose proof (valid_finite_digits _ _ _ Hx) as (Hex & _).
    pose proof (valid_finite_digits _ _ _ Hy) as (Hey & _).
    rewrite <- (aligned_sum sx mx ex sy my ey) in * by lia.
    apply binary_normalize_scaled; [lia|done].
Qed.

End Value.

(** ** Rounding is monotone *)

Section Monotone.

Lemma rne_shift_mono n M M' :
  0 <= n -> 0 <= M <= M' -> rne_shift M n <= rne_shift M' n.
Proof.
  intros Hn HM. unfold rne_shift.
  destruct (Z.eqb_spec n 0) as [->|Hne]; [lia|].
  assert (Hp : 0 < 2 ^ n) by (apply Z.pow_pos_nonneg; lia).
  pose proof (Z.div_le_mono M M' (2 ^ n) Hp ltac:(lia)) as Hq.
  pose proof (Z.div_mod M (2 ^ n) ltac:(lia)) as HdM.
  pose proof (Z.div_mod M' (2 ^ n) ltac:(lia)) as HdM'.
  destruct (Z.eq_dec (M / 2 ^ n) (M' / 2 ^ n)) as [Heq|Hne'].
  - rewrite <- Heq in *.
    assert (M mod 2 ^ n <= M' mod 2 ^ n) by lia.
    destruct (Z.compare_spec (M mod 2 ^ n) (2 ^ (n - 1)));
      destruct (Z.compare_spec (M' mod 2 ^ n) (2 ^ (n - 1)));
      destruct (Z.even (M / 2 ^ n)); lia.
  - destruct (Z.compare_spec (M mod 2 ^ n) (2 ^ (n - 1)));
      destruct (Z.compare_spec (M' mod 2 ^ n) (2 ^ (n - 1)));
      destruct (Z.even (M / 2 ^ n)); destruct (Z.even (M' / 2 ^ n)); lia.
Qed.

(** A rounded value does not pass a multiple of the rounding unit. *)
Lemma rne_shift_upper M n B :
  0 <= n -> 0 <= M <= B -> B mod 2 ^ n = 0 -> rne_shift M n * 2 ^ n <= B.
Proof.
  intros Hn HM HB.
  assert (Hp : 0 < 2 ^ n) by (apply Z.pow_pos_nonneg; lia).
  pose proof (Z.div_mod M (2 ^ n) ltac:(lia)) as HdM.
  pose proof (Z.div_mod B (2 ^ n) ltac:(lia)) as HdB.
  pose proof (Z.mod_pos_bound M (2 ^ n) Hp) as Hr.
  destruct (Z.eq_dec (M mod 2 ^ n) 0) as [H0|H0].
  - rewrite rne_shift_exact by done. lia.
  - pose proof (rne_shift_bounds M n Hn) as [_ Hhi].
    pose proof (Z.div_le_mono M B (2 ^ n) Hp ltac:(lia)) as Hq.
    assert (M / 2 ^ n <> B / 2 ^ n) by (intros E; rewrite E in HdM; lia).
    nia.
Qed.

Lemma rne_shift_lower M n B :
  0 <= n -> 0 <= B <= M -> B mod 2 ^ n = 0 -> B <= rne_shift M n * 2 ^ n.
Proof.
  intros Hn HM HB.
  assert (Hp : 0 < 2 ^ n) by (apply Z.pow_pos_nonneg; lia).
  pose proof (Z.div_mod B (2 ^ n) ltac:(lia)) as HdB.
  pose proof (rne_shift_bounds M n Hn) as [Hlo _].
  pose proof (Z.div_le_mono B M (2 ^ n) Hp ltac:(lia)) as Hq.
  nia.
Qed.

Lemma pow2_mod_pow2 a b : 0 <= b <= a -> 2 ^ a mod 2 ^ b = 0.
Proof.
  intros H. replace a with (a - b + b) by lia.
  rewrite Z.pow_add_r by lia. apply Z.mod_mul.
  apply Z.pow_nonzero; lia.
Qed.

Lemma round_scaled_pos_mono M M' :
  0 <= M <= M' -> round_scaled_pos M <= round_scaled_pos M'.
Proof.
  intros [HM HMM'].
  destruct (Z.eq_dec M 0) as [->|HM0].
  { rewrite round_scaled_pos_0. apply round_scaled_pos_nonneg. lia. }
  pose proof (Zdigits2_le M M' ltac:(lia) HMM') as Hd.
  pose proof (Zdigits2_pos M ltac:(lia)) as HdM.
  unfold round_scaled_pos.
  remember (Z.max (Zdigits2 M - 24) 0) as n eqn:En.
  remember (Z.max (Zdigits2 M' - 24) 0) as n' eqn:En'.
  destruct (Z.eq_dec n n') as [<-|Hne].
  - apply Z.mul_le_mono_nonneg_r; [apply Z.pow_nonneg; lia|].
    apply rne_shift_mono; lia.
  - pose proof (Zdigits2_bounds M ltac:(lia)) as [_ Hhi].
    pose proof (Zdigits2_bounds M' ltac:(lia)) as [Hlo' _].
    assert (Hpow : 2 ^ Zdigits2 M <= 2 ^ (Zdigits2 M' - 1))
      by (apply Z.pow_le_mono_r; lia).
    apply Z.le_trans with (2 ^ (Zdigits2 M' - 1)).
    + apply rne_shift_upper; [lia|lia|]. apply pow2_mod_pow2. lia.
    + apply rne_shift_lower; [lia| |apply pow2_mod_pow2; lia].
      split; [apply Z.pow_nonneg|]; lia.
Qed.

Lemma round_scaled_nonneg N : 0 <= N -> round_scaled N = round_scaled_pos N.
Proof.
  intros H. unfold round_scaled. destruct (Z.eq_dec N 0) as [->|].
  - done.
  - rewrite Z.sgn_pos, Z.abs_eq by lia. lia.
Qed.

Lemma round_scaled_nonpos N : N <= 0 -> round_scaled N = - round_scaled_pos (- N).
Proof.
  intros H. unfold round_scaled. destruct (Z.eq_dec N 0) as [->|].
  - done.
  - rewrite Z.sgn_neg, Z.abs_neq by lia. lia.
Qed.

Lemma round_scaled_mono N N' : N <= N' -> round_scaled N <= round_scaled N'.
Proof.
  intros H.
  destruct (Z_lt_le_dec N 0) as [HN|HN]; destruct (Z_lt_le_dec N' 0) as [HN'|HN'].
  - rewrite !round_scaled_nonpos by lia.
    pose proof (round_scaled_pos_mono (- N') (- N) ltac:(lia)). lia.
  - rewrite round_scaled_nonpos, round_scaled_nonneg by lia.
    pose proof (round_scaled_pos_nonneg (- N) ltac:(lia)).
    pose proof (round_scaled_pos_nonneg N' ltac:(lia)). lia.
  - lia.
  - rewrite !round_scaled_nonneg by lia.
    apply round_scaled_pos_mono. lia.
Qed.

(** A rounded value stays below the power of two above it. *)
Lemma round_scaled_bound N k :
  0 <= k -> Z.abs N < 2 ^ k -> Z.abs (round_scaled N) <= 2 ^ k.
Proof.
  intros Hk HN.
  assert (Hpos : forall M, 0 <= M < 2 ^ k -> 0 <= round_scaled_pos M <= 2 ^ k).
  { intros M [HM0 HMk]. split; [by apply round_scaled_pos_nonneg|].
    unfold round_scaled_pos.
    apply rne_shift_upper; [lia|lia|].
    destruct (Z.eq_dec M 0) as [->|HM].
    - cbn [Zdigits2]. rewrite Z.max_r by lia. by rewrite Z.pow_0_r, Z.mod_1_r.
    - pose proof (Zdigits2_lt_pow2 M k ltac:(lia) Hk HMk).
      pose proof (Zdigits2_pos M ltac:(lia)).
      apply pow2_mod_pow2. lia. }
  destruct (Z_lt_le_dec N 0).
  - rewrite round_scaled_nonpos by lia.
    pose proof (Hpos (- N) ltac:(lia)). lia.
  - rewrite round_scaled_nonneg by lia.
    pose proof (Hpos N ltac:(lia)). lia.
Qed.

End Monotone.

(** ** No NaN for a coefficient of moderate size *)

Section Magnitude.

(** An integer of at most 24 bits is converted exactly. *)
Lemma of_int_scaled x :
  Z.abs x < 2 ^ 24 ->
  is_finite (of_int x) = true /\ valid (of_int x) = true /\
  scaled (of_int x) = x * 2 ^ 149.
Proof.
  intros Hx.
  destruct (binary_normalize_scaled x 0) as (Hf & Hv & Hs); [lia| |].
  { rewrite Z.abs_mul, (Z.abs_eq (2 ^ (0 + 149))) by done.
    change (2 ^ 276) with (2 ^ 127 * 2 ^ (0 + 149)).
    apply Z.mul_lt_mono_pos_r; [done|].
    eapply Z.lt_le_trans; [exact Hx|]. by apply Z.pow_le_mono_r. }
  split; [exact Hf|]. split; [exact Hv|].
  unfold of_int. rewrite Hs. change (0 + 149) with 149.
  assert (Hpos : forall M, 0 <= M < 2 ^ 24 ->
                 round_scaled_pos (M * 2 ^ 149) = M * 2 ^ 149).
  { intros M [HM0 HM].
    destruct (Z.eq_dec M 0) as [->|HMne]; [done|].
    unfold round_scaled_pos. rewrite Zdigits2_mul_pow2 by lia.
    pose proof (Zdigits2_pos M ltac:(lia)).
    pose proof (Zdigits2_lt_pow2 M 24 ltac:(lia) ltac:(lia) HM).
    set (n := Z.max (Zdigits2 M + 149 - 24) 0).
    assert (Hn : 0 <= n <= 149) by (unfold n; lia).
    assert (Hp : 0 < 2 ^ n) by (apply Z.pow_pos_nonneg; lia).
    assert (Hmod : (M * 2 ^ 149) mod 2 ^ n = 0).
    { replace 149 with (149 - n + n) by lia.
      rewrite Z.pow_add_r, Z.mul_assoc by lia. apply Z.mod_mul. lia. }
    rewrite rne_shift_exact by (done || lia).
    pose proof (Z.div_mod (M * 2 ^ 149) (2 ^ n) ltac:(lia)). lia. }
  destruct (Z_lt_le_dec x 0).
  - rewrite round_scaled_nonpos by lia.
    replace (- (x * 2 ^ 149)) with (- x * 2 ^ 149) by lia.
    rewrite Hpos by lia. lia.
  - rewrite round_scaled_nonneg by lia. apply Hpos. lia.
Qed.

(** The integer [SFsub] hands to [binary_normalize] is the exact
    difference. *)
Lemma aligned_difference sx mx ex sy my ey :
  -149 <= ex -> -149 <= ey ->
  (SpecFloat.cond_Zopp sx (Zpos (shl_align mx ex (Z.min ex ey)).1) -
   SpecFloat.cond_Zopp sy (Zpos (shl_align my ey (Z.min ex ey)).1))
  * 2 ^ (Z.min ex ey + 149)
  = scaled (S754_finite sx mx ex) - scaled (S754_finite sy my ey).
Proof.
  intros Hex Hey.
  destruct (shl_align_spec mx ex (Z.min ex ey)) as (mx' & ex' & -> & Hex' & Hmx' & _).
  destruct (shl_align_spec my ey (Z.min ex ey)) as (my' & ey' & -> & Hey' & Hmy' & _).
  cbn [fst scaled]. rewrite Hmx', Hmy'.
  replace (ex + 149) with (ex - ex' + (Z.min ex ey + 149)) by lia.
  replace (ey + 149) with (ey - ey' + (Z.min ex ey + 149)) by lia.
  rewrite (Z.pow_add_r 2 (ex - ex')), (Z.pow_add_r 2 (ey - ey')) by lia.
  destruct sx, sy; cbn [SpecFloat.cond_Zopp]; ring.
Qed.

Lemma sub_scaled x y :
  valid x = true -> valid y = true ->
  is_finite x = true -> is_finite y = true ->
  Z.abs (scaled x - scaled y) < 2 ^ 276 ->
  is_finite (sub x y) = true /\ valid (sub x y) = true /\
  scaled (sub x y) = round_scaled (scaled x - scaled y).
Proof.
  intros Hx Hy Fx Fy Hb.
  destruct x as [sx|sx| |sx mx ex], y as [sy|sy| |sy my ey]; try done.
  - by destruct sx, sy.
  - split; [done|]. split; [done|].
    change (scaled (S754_zero sx)) with 0. rewrite Z.sub_0_l.
    unfold sub. cbn [SFsub].
    replace (- scaled (S754_finite sy my ey))
      with (scaled (S754_finite (negb sy) my ey))
      by (cbn [scaled]; destruct sy; cbn [negb]; lia).
    symmetry. by apply round_scaled_valid.
  - split; [done|]. split; [done|].
    change (scaled (S754_zero sy)) with 0. rewrite Z.sub_0_r.
    symmetry. by apply round_scaled_valid.
  - pose proof (valid_finite_digits _ _ _ Hx) as (Hex & _).
    pose proof (valid_finite_digits _ _ _ Hy) as (Hey & _).
    rewrite <- (aligned_difference sx mx ex sy my ey) in * by lia.
    apply binary_normalize_scaled; [lia|done].
Qed.

(** A product that does not overflow is finite. *)
Lemma mul_finite x y :
  valid x = true -> valid y = true ->
  is_finite x = true -> is_finite y = true ->
  Z.abs (scaled x) * Z.abs (scaled y) < 2 ^ 425 ->
  is_finite (mul x y) = true.
Proof.
  intros Hx Hy Fx Fy Hb.
  destruct x as [sx|sx| |sx mx ex], y as [sy|sy| |sy my ey]; try done.
  pose proof (valid_finite_digits _ _ _ Hx) as (Hex & Hdx & Hnx).
  pose proof (valid_finite_digits _ _ _ Hy) as (Hey & Hdy & Hny).
  assert (Hpx : 0 < 2 ^ (ex + 149)) by (apply Z.pow_pos_nonneg; lia).
  assert (Hpy : 0 < 2 ^ (ey + 149)) by (apply Z.pow_pos_nonneg; lia).
  assert (Hprod : Zpos (mx * my) * 2 ^ (ex + ey + 298) < 2 ^ 425).
  { replace (ex + ey + 298) with (ex + 149 + (ey + 149)) by lia.
    rewrite Z.pow_add_r, Pos2Z.inj_mul by lia.
    cbn [scaled] in Hb.
    assert (Ha : forall (s : bool) v, 0 < v ->
                 Z.abs ((if s then -1 else 1) * v) = v)
      by (intros [] v Hv; lia).
    rewrite !Ha in Hb by lia. lia. }
  assert (Hp : 0 < 2 ^ (ex + ey + 298)) by (apply Z.pow_pos_nonneg; lia).
  assert (Hpos : 0 < Zpos (mx * my) * 2 ^ (ex + ey + 298)) by (apply Z.mul_pos_pos; lia).
  pose proof (Zdigits2_lt_pow2 _ 425 Hpos ltac:(lia) Hprod) as Hd.
  rewrite Zdigits2_mul_pow2 in Hd by lia.
  assert (Hpre : ex + ey <= fexp prec emax (Zdigits2 (Zpos (mx * my)) + (ex + ey))).
  { rewrite fexp_eq, Pos2Z.inj_mul.
    pose proof (Zdigits2_bounds (Zpos mx) ltac:(lia)) as [Hlx _].
    pose proof (Zdigits2_bounds (Zpos my) ltac:(lia)) as [Hly _].
    assert (Zdigits2 (Zpos mx) + Zdigits2 (Zpos my) - 1
            <= Zdigits2 (Zpos mx * Zpos my)); [|lia].
    destruct (Z_lt_le_dec (Zdigits2 (Zpos mx * Zpos my))
                (Zdigits2 (Zpos mx) + Zdigits2 (Zpos my) - 1)) as [Hlt|]; [|done].
    exfalso.
    pose proof (Zdigits2_bounds (Zpos mx * Zpos my) ltac:(lia)) as [_ Hhi].
    assert (2 ^ Zdigits2 (Zpos mx * Zpos my)
            <= 2 ^ (Zdigits2 (Zpos mx) - 1 + (Zdigits2 (Zpos my) - 1)))
      by (apply Z.pow_le_mono_r; lia).
    rewrite Z.pow_add_r in * by lia.
    assert (0 < 2 ^ (Zdigits2 (Zpos mx) - 1)) by (apply Z.pow_pos_nonneg; lia).
    assert (0 < 2 ^ (Zdigits2 (Zpos my) - 1)) by (apply Z.pow_pos_nonneg; lia).
    nia. }
  unfold mul. cbn [SFmul].
  destruct (binary_round_aux_spec (xorb sx sy) (mx * my) (ex + ey) Hpre)
    as (m2 & e2 & Hm2 & _ & He2 & _ & ->).
  rewrite fexp_eq in He2.
  destruct m2 as [|p|p]; [done| |lia].
  by rewrite (proj2 (Z.leb_le e2 (emax - prec))) by (unfold emax, prec; lia).
Qed.

Lemma add_finite_not_nan x y :
  is_finite x = true -> is_finite y = true -> is_nan (add x y) = false.
Proof.
  intros Fx Fy. unfold add.
  destruct x as [sx|sx| |sx mx ex], y as [sy|sy| |sy my ey];
    try done; try (by destruct sx, sy).
  cbn [SFadd]. apply binary_normalize_valid.
Qed.

(** With a coefficient that is a binary32 number of magnitude [2^100] at
    most, so for every coefficient between 0 and 1, and [int16_t] input and
    previous output, [output_float] is not a NaN. *)
Lemma filter_output_float_not_nan st x :
  moderate (alpha st) ->
  in_int16 x -> in_int16 (prev_output st) ->
  is_nan (filter_output_float st x) = false.
Proof.
  intros (Va & Fa & Ba) Hx Hp. unfold in_int16, INT16_MIN, INT16_MAX in *.
  destruct (of_int_scaled x) as (Fx & Vx & Sx);
    [change (2 ^ 24) with 16777216; lia|].
  destruct (of_int_scaled (prev_output st)) as (Fp & Vp & Sp);
    [change (2 ^ 24) with 16777216; lia|].
  assert (H149 : 0 < 2 ^ 149) by done.
  assert (Hone : scaled one = 2 ^ 23 * 2 ^ 126) by reflexivity.
  destruct (sub_scaled one (alpha st)) as (Fb & Vb & Sb); try done.
  { change (2 ^ 276) with (2 ^ 27 * 2 ^ 249). rewrite Hone.
    change (2 ^ 23 * 2 ^ 126) with (2 ^ 149) in *.
    assert (2 ^ 149 <= 2 ^ 249) by (by apply Z.pow_le_mono_r). lia. }
  assert (Bb : Z.abs (scaled (sub one (alpha st))) <= 2 ^ 250).
  { rewrite Sb. apply round_scaled_bound; [lia|]. rewrite Hone.
    change (2 ^ 250) with (2 * 2 ^ 249).
    change (2 ^ 23 * 2 ^ 126) with (2 ^ 149) in *.
    assert (2 ^ 149 < 2 ^ 249) by (by apply Z.pow_lt_mono_r). lia. }
  unfold filter_output_float. apply add_finite_not_nan.
  - apply mul_finite; try done.
    rewrite Sx, Z.abs_mul, (Z.abs_eq (2 ^ 149)) by lia.
    change (2 ^ 425) with (2 ^ 249 * (2 ^ 27 * 2 ^ 149)).
    apply Z.le_lt_trans with (2 ^ 249 * (Z.abs x * 2 ^ 149)).
    + apply Z.mul_le_mono_nonneg_r; lia.
    + apply Z.mul_lt_mono_pos_l; [done|].
      apply Z.mul_lt_mono_pos_r; [done|]. change (2 ^ 27) with 134217728. lia.
  - apply mul_finite; try done.
    rewrite Sp, Z.abs_mul, (Z.abs_eq (2 ^ 149)) by lia.
    change (2 ^ 425) with (2 ^ 250 * (2 ^ 26 * 2 ^ 149)).
    apply Z.le_lt_trans with (2 ^ 250 * (Z.abs (prev_output st) * 2 ^ 149)).
    + apply Z.mul_le_mono_nonneg_r; lia.
    + apply Z.mul_lt_mono_pos_l; [done|].
      apply Z.mul_lt_mono_pos_r; [done|]. change (2 ^ 26) with 67108864. lia.
Qed.

End Magnitude.

(** ** Constant inputs *)

Lemma process_samples_snoc xs : forall st x,
  process_samples st (xs ++ [x]) =
    r ← process_samples st xs;
    r' ← filter_sample r.2 x;
    Some (r.1 ++ [r'.1], r'.2).
Proof.
  induction xs as [|x0 xs IH]; intros st x; cbn [app process_samples].
  - cbn. destruct (filter_sample st x) as [[y st1]|]; cbn; done.
  - destruct (filter_sample st x0) as [[y0 st1]|]; [|done].
    cbn [mbind option_bind]. rewrite IH.
    destruct (process_samples st1 xs) as [[ys st2]|]; [|done].
    cbn [mbind option_bind fst snd].
    destruct (filter_sample st2 x) as [[y st3]|]; cbn; done.
Qed.

Lemma after_constant_0 st c : after_constant st c 0 = Some st.
Proof. done. Qed.

Lemma after_constant_S st c n :
  after_constant st c (S n) =
    st' ← after_constant st c n; snd <$> filter_sample st' c.
Proof.
  unfold after_constant. rewrite replicate_S_end, process_samples_snoc.
  destruct (process_samples st (replicate n c)) as [[ys st1]|]; [|done].
  cbn. by destruct (filter_sample st1 c) as [[y st2]|].
Qed.

(** For a coefficient [a] that passes the check of the [count = 65536]
    sample values: the two products do not decrease when the sample grows,
    so neither does the output when the input or the previous output grows;
    with the outputs for an input equal to the previous output, this bounds
    every output. *)

Section ConstantInput.

Variable a : float32.
Variable count : nat.
Hypothesis count_eq : Z.of_nat count = 65536.
Hypothesis check_ok : constant_check_from a count = true.

Local Abbreviation b := (sub one a).
Local Abbreviation X := (input_term a).
Local Abbreviation Y := (feedback_term a).
Local Abbreviation G := clamp_scaled.
Local Abbreviation out := (exact_output a).

Lemma scan_index n : forall c,
  scan a b n c (terms a b c) (terms a b (c + 1)) = true ->
  forall i, c <= i < c + Z.of_nat n ->
  index_ok i (terms a b i) (terms a b (i + 1)) (terms a b (i + 2)) = true.
Proof.
  induction n as [|n IH]; intros c H i Hi; [lia|].
  cbn [scan] in H. apply andb_true_iff in H as [H1 H2].
  destruct (Z.eq_dec i c) as [->|Hne]; [done|].
  apply (IH (c + 1)); [|lia].
  by replace (c + 1 + 1) with (c + 2) by lia.
Qed.

Lemma index_ok_int16 i :
  in_int16 i ->
  index_ok i (terms a b i) (terms a b (i + 1)) (terms a b (i + 2)) = true.
Proof.
  intros [Hlo Hhi]. unfold INT16_MIN, INT16_MAX in *.
  apply (scan_index count (-32768) check_ok). lia.
Qed.

Lemma term_ok_spec f :
  term_ok f = true ->
  valid f = true /\ is_finite f = true /\ Z.abs (scaled f) < 2 ^ 165.
Proof.
  unfold term_ok. rewrite !andb_true_iff. intros [[Hv Hf] He].
  split; [done|]. split; [done|].
  destruct f as [s|s| |s m e]; try done.
  apply Z.leb_le in He.
  pose proof (valid_finite_digits _ _ _ Hv) as (Hb & Hd & _).
  pose proof (Zdigits2_bounds (Zpos m) ltac:(lia)) as [_ Hhi].
  assert (Zpos m < 2 ^ 24).
  { eapply Z.lt_le_trans; [exact Hhi|]. apply Z.pow_le_mono_r; lia. }
  assert (0 < 2 ^ (e + 149) <= 2 ^ 141).
  { split; [apply Z.pow_pos_nonneg; lia|apply Z.pow_le_mono_r; lia]. }
  cbn [scaled]. change (2 ^ 165) with (2 ^ 24 * 2 ^ 141).
  destruct s; nia.
Qed.

Lemma input_term_ok c :
  in_int16 c ->
  valid (X c) = true /\ is_finite (X c) = true /\ Z.abs (scaled (X c)) < 2 ^ 165.
Proof.
  intros Hc. pose proof (index_ok_int16 c Hc) as H.
  unfold index_ok in H. rewrite !andb_true_iff in H.
  apply term_ok_spec. destruct H as [[[[[H _] _] _] _] _]. exact H.
Qed.

Lemma feedback_term_ok c :
  in_int16 c ->
  valid (Y c) = true /\ is_finite (Y c) = true /\ Z.abs (scaled (Y c)) < 2 ^ 165.
Proof.
  intros Hc. pose proof (index_ok_int16 c Hc) as H.
  unfold index_ok in H. rewrite !andb_true_iff in H.
  apply term_ok_spec. destruct H as [[[[[_ H] _] _] _] _]. exact H.
Qed.

Lemma input_term_step c :
  in_int16 c -> in_int16 (c + 1) -> scaled (X c) <= scaled (X (c + 1)).
Proof.
  intros Hc Hc'. pose proof (index_ok_int16 c Hc) as H.
  unfold index_ok in H. rewrite !andb_true_iff in H.
  destruct H as [[[[_ H] _] _] _].
  destruct (input_term_ok c Hc) as (? & ? & _). destruct (input_term_ok (c + 1) Hc') as (? & ? & _).
  apply negb_true_iff in H. change (lt (X (c + 1)) (X c) = false) in H.
  rewrite lt_scaled in H by done. apply Z.ltb_ge in H. done.
Qed.

Lemma feedback_term_step c :
  in_int16 c -> in_int16 (c + 1) -> scaled (Y c) <= scaled (Y (c + 1)).
Proof.
  intros Hc Hc'. pose proof (index_ok_int16 c Hc) as H.
  unfold index_ok in H. rewrite !andb_true_iff in H.
  destruct H as [[[_ H] _] _].
  destruct (feedback_term_ok c Hc) as (? & ? & _). destruct (feedback_term_ok (c + 1) Hc') as (? & ? & _).
  apply negb_true_iff in H. change (lt (Y (c + 1)) (Y c) = false) in H.
  rewrite lt_scaled in H by done. apply Z.ltb_ge in H. done.
Qed.

Lemma steps_mono (f : Z -> Z) :
  (forall c, in_int16 c -> in_int16 (c + 1) -> f c <= f (c + 1)) ->
  forall c c', in_int16 c -> in_int16 c' -> c <= c' -> f c <= f c'.
Proof.
  intros Hstep c c' Hc Hc' Hle.
  replace c' with (c + Z.of_nat (Z.to_nat (c' - c))) in * by lia.
  induction (Z.to_nat (c' - c)) as [|n IH].
  - rewrite Z.add_0_r. lia.
  - unfold in_int16, INT16_MIN, INT16_MAX in *.
    rewrite Nat2Z.inj_succ in *.
    replace (c + Z.succ (Z.of_nat n)) with (c + Z.of_nat n + 1) in * by lia.
    etrans; [apply IH; lia|]. apply Hstep; unfold in_int16, INT16_MIN, INT16_MAX; lia.
Qed.

Lemma input_term_mono c c' :
  in_int16 c -> in_int16 c' -> c <= c' -> scaled (X c) <= scaled (X c').
Proof. apply (steps_mono (fun c => scaled (X c))), input_term_step. Qed.

Lemma feedback_term_mono c c' :
  in_int16 c -> in_int16 c' -> c <= c' -> scaled (Y c) <= scaled (Y c').
Proof. apply (steps_mono (fun c => scaled (Y c))), feedback_term_step. Qed.

Lemma clamp_scaled_mono v v' : v <= v' -> G v <= G v'.
Proof. intros H. unfold clamp_scaled. apply Z.quot_le_mono; [done|lia]. Qed.

(** The output for the input [x] after the output [p], in closed form. *)
Lemma clamp_output_value x p :
  in_int16 x -> in_int16 p ->
  clamp_output (X x) (Y p) = Some (out x p) /\
  is_nan (add (X x) (Y p)) = false.
Proof.
  intros Hx Hp.
  destruct (input_term_ok x Hx) as (Vx & Fx & Bx). destruct (feedback_term_ok p Hp) as (Vy & Fy & By).
  destruct (add_scaled (X x) (Y p) Vx Vy Fx Fy) as (Fo & Vo & So).
  { change (2 ^ 276) with (2 ^ 165 * 2 ^ 111). lia. }
  assert (No : is_nan (add (X x) (Y p)) = false)
    by (by destruct (add (X x) (Y p))).
  split; [|done]. unfold clamp_output.
  destruct (filter_clamp_to_int16 half_filter (add (X x) (Y p))
              eq_refl eq_refl Vo No) as (y & -> & _ & Hy).
  rewrite (Hy Fo), So. done.
Qed.

Lemma exact_output_mono x x' p p' :
  in_int16 x -> in_int16 x' -> in_int16 p -> in_int16 p' ->
  x <= x' -> p <= p' -> out x p <= out x' p'.
Proof.
  intros. apply clamp_scaled_mono, round_scaled_mono, Z.add_le_mono.
  - by apply input_term_mono.
  - by apply feedback_term_mono.
Qed.

Lemma exact_output_diag c : in_int16 c -> out c c = c.
Proof.
  intros Hc. pose proof (index_ok_int16 c Hc) as H.
  unfold index_ok in H. rewrite !andb_true_iff in H.
  destruct H as [[_ H] _].
  change (match clamp_output (X c) (Y c) with Some y => y =? c | None => false end = true) in H.
  destruct (clamp_output_value c c Hc Hc) as [E _]. rewrite E in H.
  apply Z.eqb_eq in H. done.
Qed.

Lemma exact_output_up c : in_int16 c -> in_int16 (c + 2) -> c + 1 <= out (c + 2) c.
Proof.
  intros Hc Hc2. pose proof (index_ok_int16 c Hc) as H.
  unfold index_ok in H. rewrite !andb_true_iff in H.
  destruct H as [_ H]. apply orb_true_iff in H as [H|H].
  { apply Z.ltb_lt in H. unfold in_int16, INT16_MAX in Hc2. lia. }
  apply andb_true_iff in H as [H _].
  change (match clamp_output (X (c + 2)) (Y c) with
          | Some y => c + 1 <=? y | None => false end = true) in H.
  destruct (clamp_output_value (c + 2) c Hc2 Hc) as [E _]. rewrite E in H.
  apply Z.leb_le in H. done.
Qed.

Lemma exact_output_down c : in_int16 c -> in_int16 (c + 2) -> out c (c + 2) <= c + 1.
Proof.
  intros Hc Hc2. pose proof (index_ok_int16 c Hc) as H.
  unfold index_ok in H. rewrite !andb_true_iff in H.
  destruct H as [_ H]. apply orb_true_iff in H as [H|H].
  { apply Z.ltb_lt in H. unfold in_int16, INT16_MAX in Hc2. lia. }
  apply andb_true_iff in H as [_ H].
  change (match clamp_output (X c) (Y (c + 2)) with
          | Some y => y <=? c + 1 | None => false end = true) in H.
  destruct (clamp_output_value c (c + 2) Hc Hc2) as [E _]. rewrite E in H.
  apply Z.leb_le in H. done.
Qed.

(** The output lies between the previous output and the input, and
    leaves the previous output when the two are 2 or more apart. *)
Lemma exact_output_between x p :
  in_int16 x -> in_int16 p ->
  Z.min p x <= out x p <= Z.max p x /\
  (p + 2 <= x -> p + 1 <= out x p) /\
  (x + 2 <= p -> out x p <= p - 1).
Proof.
  intros Hx Hp.
  assert (Hr : forall u v, in_int16 u -> in_int16 v -> u <= v ->
               u <= out v u <= v /\ u <= out u v <= v).
  { intros u v Hu Hv Huv.
    pose proof (exact_output_diag u Hu). pose proof (exact_output_diag v Hv).
    pose proof (exact_output_mono u v u u Hu Hv Hu Hu Huv ltac:(lia)).
    pose proof (exact_output_mono v v u v Hv Hv Hu Hv ltac:(lia) Huv).
    pose proof (exact_output_mono u u u v Hu Hu Hu Hv ltac:(lia) Huv).
    pose proof (exact_output_mono u v v v Hu Hv Hv Hv Huv ltac:(lia)).
    lia. }
  split; [|split].
  - destruct (Z_le_gt_dec p x) as [Hle|Hgt].
    + destruct (Hr p x Hp Hx Hle). lia.
    + destruct (Hr x p Hx Hp ltac:(lia)). lia.
  - intros H2.
    assert (Hp2 : in_int16 (p + 2))
      by (unfold in_int16, INT16_MIN, INT16_MAX in *; lia).
    pose proof (exact_output_up p Hp Hp2).
    pose proof (exact_output_mono (p + 2) x p p Hp2 Hx Hp Hp H2 ltac:(lia)). lia.
  - intros H2.
    assert (Hp2 : in_int16 (p - 2))
      by (unfold in_int16, INT16_MIN, INT16_MAX in *; lia).
    pose proof (exact_output_down (p - 2) Hp2) as Hd.
    replace (p - 2 + 2) with p in Hd by lia. specialize (Hd Hp).
    pose proof (exact_output_mono x (p - 2) p p Hx Hp2 Hp Hp ltac:(lia) ltac:(lia)). lia.
Qed.

(** One call of [filter_sample] in a state of coefficient [a]. *)
Lemma filter_sample_between st x :
  int16_state a st -> in_int16 x ->
  exists y,
    filter_sample st x = Some (y, set_prev_output y st) /\
    int16_state a (set_prev_output y st) /\
    Z.min (prev_output st) x <= y <= Z.max (prev_output st) x /\
    (prev_output st + 2 <= x -> prev_output st + 1 <= y) /\
    (x + 2 <= prev_output st -> y <= prev_output st - 1).
Proof.
  intros (Ha & Hmin & Hmax & Hp) Hx.
  exists (out x (prev_output st)).
  destruct (clamp_output_value x (prev_output st) Hx Hp) as [E _].
  pose proof (exact_output_between x (prev_output st) Hx Hp) as (Hb & Hu & Hd).
  split; [|split; [|done]].
  - rewrite (filter_sample_clamp_output st x Hmin Hmax), Ha, E. done.
  - destruct st as [p a' lo hi]. cbn in *. unfold int16_state. cbn.
    split; [done|]. split; [done|]. split; [done|].
    unfold in_int16, INT16_MIN, INT16_MAX in *. lia.
Qed.

(** [n] samples equal to [c]: the distance to [c] falls by one at least
    for each sample until it is 1 or 0, and never grows. *)
Lemma after_constant_between c n : forall st,
  int16_state a st -> in_int16 c ->
  exists st',
    after_constant st c n = Some st' /\ int16_state a st' /\
    Z.abs (prev_output st' - c)
      <= Z.max 1 (Z.abs (prev_output st - c) - Z.of_nat n) /\
    Z.abs (prev_output st' - c) <= Z.abs (prev_output st - c).
Proof.
  induction n as [|n IH]; intros st Hst Hc.
  - exists st. rewrite after_constant_0. split; [done|]. split; [done|]. lia.
  - destruct (IH st Hst Hc) as (st1 & E1 & Hst1 & Hd1 & Hle1).
    destruct (filter_sample_between st1 c Hst1 Hc) as (y & Ey & Hst2 & Hb & Hu & Hd).
    exists (set_prev_output y st1).
    rewrite after_constant_S, E1. cbn [mbind option_bind]. rewrite Ey.
    split; [done|]. split; [done|].
    destruct (set_prev_output_fields y st1) as (-> & _). lia.
Qed.

Lemma distance_never_grows_between st c :
  int16_state a st -> in_int16 c -> distance_never_grows st c.
Proof.
  intros Hst Hc n d d'. unfold distance_after.
  destruct (after_constant_between c n st Hst Hc) as (st1 & E1 & Hst1 & _).
  destruct (filter_sample_between st1 c Hst1 Hc) as (y & Ey & _ & Hb & _).
  rewrite after_constant_S, E1. cbn [mbind option_bind fmap option_fmap option_map].
  rewrite Ey. cbn.
  intros [= <-] [= <-]. lia.
Qed.

Lemma distance_strictly_falls st c n d :
  int16_state a st -> in_int16 c ->
  distance_after st c n = Some d -> 2 <= d ->
  exists d', distance_after st c (S n) = Some d' /\ d' < d.
Proof.
  intros Hst Hc. unfold distance_after.
  destruct (after_constant_between c n st Hst Hc) as (st1 & E1 & Hst1 & _).
  destruct (filter_sample_between st1 c Hst1 Hc) as (y & Ey & _ & Hb & Hu & Hd).
  rewrite after_constant_S, E1. cbn [mbind option_bind fmap option_fmap option_map].
  rewrite Ey. cbn.
  intros [= <-] H2. eexists. split; [done|]. lia.
Qed.

End ConstantInput.

(** ** The value of a product *)

Section Product.

(** The exponent of the product of two binary32 numbers is not above the
    canonical one. *)
Lemma mul_exponent_le (mx my : positive) ex ey sx sy :
  valid (S754_finite sx mx ex) = true ->
  valid (S754_finite sy my ey) = true ->
  ex + ey <= fexp prec emax (Zdigits2 (Zpos (mx * my)) + (ex + ey)).
Proof.
  intros Hx Hy.
  apply valid_finite_digits in Hx as (Hex & Hdx & Hnx).
  apply valid_finite_digits in Hy as (Hey & Hdy & Hny).
  rewrite fexp_eq, Pos2Z.inj_mul.
  pose proof (Zdigits2_bounds (Zpos mx) ltac:(lia)) as [Hlx _].
  pose proof (Zdigits2_bounds (Zpos my) ltac:(lia)) as [Hly _].
  assert (Zdigits2 (Zpos mx) + Zdigits2 (Zpos my) - 1
          <= Zdigits2 (Zpos mx * Zpos my)); [|lia].
  destruct (Z_lt_le_dec (Zdigits2 (Zpos mx * Zpos my))
              (Zdigits2 (Zpos mx) + Zdigits2 (Zpos my) - 1)) as [Hlt|]; [|done].
  exfalso.
  pose proof (Zdigits2_bounds (Zpos mx * Zpos my) ltac:(lia)) as [_ Hhi].
  assert (2 ^ Zdigits2 (Zpos mx * Zpos my)
          <= 2 ^ (Zdigits2 (Zpos mx) - 1 + (Zdigits2 (Zpos my) - 1)))
    by (apply Z.pow_le_mono_r; lia).
  rewrite Z.pow_add_r in * by lia.
  assert (0 < 2 ^ (Zdigits2 (Zpos mx) - 1)) by (apply Z.pow_pos_nonneg; lia).
  assert (0 < 2 ^ (Zdigits2 (Zpos my) - 1)) by (apply Z.pow_pos_nonneg; lia).
  nia.
Qed.

(** [binary_round_aux] on a mantissa and an exponent whose value, in units
    of [2^-149], is the integer [P]: the result is [P] rounded. *)
Lemma binary_round_aux_scaled s (m : positive) e P :
  e <= fexp prec emax (Zdigits2 (Zpos m) + e) ->
  0 < P < 2 ^ 276 ->
  P * 2 ^ 149 = Zpos m * 2 ^ (e + 298) ->
  is_finite (binary_round_aux prec emax s (Zpos m) e loc_Exact) = true /\
  scaled (binary_round_aux prec emax s (Zpos m) e loc_Exact) =
    (if s then -1 else 1) * round_scaled_pos P.
Proof.
  intros Hpre [HP0 HP] Heq.
  assert (H149 : 0 < 2 ^ 149) by done.
  assert (He298 : 0 <= e + 298).
  { destruct (Z_lt_le_dec (e + 298) 0) as [Hneg|]; [|done].
    rewrite (Z.pow_neg_r 2 (e + 298)) in Heq by done. nia. }
  set (d := Zdigits2 (Zpos m)) in *.
  assert (Hd : 0 < d) by (apply Zdigits2_pos; lia).
  (* the digits of P *)
  assert (HdP : Zdigits2 P = d + e + 149).
  { destruct (Z_lt_le_dec (e + 149) 0) as [Hk|Hk].
    - assert (Em : Zpos m = P * 2 ^ (- (e + 149))).
      { apply (Z.mul_cancel_r _ _ (2 ^ (e + 298))); [apply Z.pow_nonzero; lia|].
        rewrite <- Heq, <- Z.mul_assoc, <- Z.pow_add_r by lia.
        do 2 f_equal. lia. }
      unfold d. rewrite Em, Zdigits2_mul_pow2 by lia. lia.
    - assert (EP : P = Zpos m * 2 ^ (e + 149)).
      { apply (Z.mul_cancel_r _ _ (2 ^ 149)); [lia|].
        rewrite Heq, <- Z.mul_assoc, <- Z.pow_add_r by lia.
        do 2 f_equal. lia. }
      rewrite EP, Zdigits2_mul_pow2 by lia. unfold d. lia. }
  pose proof (Zdigits2_lt_pow2 P 276 HP0 ltac:(lia) HP) as HdP'.
  destruct (binary_round_aux_spec s m e Hpre)
    as (m2 & e2 & Hm2 & Hval & He2 & Hc & ->).
  fold d in Hval, He2. rewrite fexp_eq in Hval, He2.
  set (F := Z.max (d + e - 24) (-149)) in *.
  assert (HF : e <= F) by (unfold F; rewrite fexp_eq in Hpre; exact Hpre).
  (* the two roundings agree *)
  assert (Hr : rne_shift P (F + 149) = rne_shift (Zpos m) (F - e)).
  { destruct (Z_lt_le_dec (e + 149) 0) as [Hk|Hk].
    - assert (Em : Zpos m = P * 2 ^ (- (e + 149))).
      { apply (Z.mul_cancel_r _ _ (2 ^ (e + 298))); [apply Z.pow_nonzero; lia|].
        rewrite <- Heq, <- Z.mul_assoc, <- Z.pow_add_r by lia.
        do 2 f_equal. lia. }
      rewrite Em.
      replace (F - e) with (F + 149 + - (e + 149)) by lia.
      rewrite rne_shift_scale by (unfold F; lia). done.
    - assert (EP : P = Zpos m * 2 ^ (e + 149)).
      { apply (Z.mul_cancel_r _ _ (2 ^ 149)); [lia|].
        rewrite Heq, <- Z.mul_assoc, <- Z.pow_add_r by lia.
        do 2 f_equal. lia. }
      rewrite EP.
      replace (F + 149) with (F - e + (e + 149)) by lia.
      rewrite rne_shift_scale by lia. done. }
  assert (Hround : round_scaled_pos P = m2 * 2 ^ (e2 + 149)).
  { unfold round_scaled_pos. rewrite HdP.
    replace (Z.max (d + e + 149 - 24) 0) with (F + 149) by (unfold F; lia).
    rewrite Hr, <- Hval.
    replace (e + (F - e)) with F by lia.
    rewrite <- Z.mul_assoc, <- Z.pow_add_r by (unfold F; lia).
    do 2 f_equal. lia. }
  rewrite Hround.
  destruct m2 as [|p|p]; [by destruct s| |lia].
  rewrite (proj2 (Z.leb_le e2 (emax - prec))) by (unfold emax, prec, F in *; lia).
  done.
Qed.

(** The product of two binary32 numbers whose exact product is the
    integer [P] in units of [2^-149]. *)
Lemma mul_scaled x y P :
  valid x = true -> valid y = true ->
  is_finite x = true -> is_finite y = true ->
  scaled x * scaled y = P * 2 ^ 149 ->
  Z.abs P < 2 ^ 276 ->
  is_finite (mul x y) = true /\ valid (mul x y) = true /\
  scaled (mul x y) = round_scaled P.
Proof.
  intros Vx Vy Fx Fy Heq HP.
  split; [|split; [by apply mul_valid|]]; revert Heq;
    destruct x as [sx|sx| |sx mx ex], y as [sy|sy| |sy my ey]; try done;
    cbn [scaled]; intros Heq;
    try (assert (P = 0) as -> by lia; done).
  - (* finite *)
    pose proof (valid_finite_digits _ _ _ Vx) as (Hex & _).
    pose proof (valid_finite_digits _ _ _ Vy) as (Hey & _).
    assert (0 < 2 ^ (ex + 149)) by (apply Z.pow_pos_nonneg; lia).
    assert (0 < 2 ^ (ey + 149)) by (apply Z.pow_pos_nonneg; lia).
    assert (HP' : Z.abs P * 2 ^ 149 = Zpos (mx * my) * 2 ^ (ex + ey + 298)).
    { replace (ex + ey + 298) with (ex + 149 + (ey + 149)) by lia.
      rewrite Z.pow_add_r, Pos2Z.inj_mul by lia.
      destruct sx, sy; nia. }
    assert (0 < Z.abs P).
    { assert (0 < Zpos (mx * my) * 2 ^ (ex + ey + 298)); [|nia].
      apply Z.mul_pos_pos; [lia|]. apply Z.pow_pos_nonneg; lia. }
    unfold mul. cbn [SFmul].
    by destruct (binary_round_aux_scaled (xorb sx sy) (mx * my) (ex + ey) (Z.abs P)
                   (mul_exponent_le mx my ex ey sx sy Vx Vy) ltac:(lia) HP')
      as [-> _].
  - pose proof (valid_finite_digits _ _ _ Vx) as (Hex & _).
    pose proof (valid_finite_digits _ _ _ Vy) as (Hey & _).
    assert (0 < 2 ^ (ex + 149)) by (apply Z.pow_pos_nonneg; lia).
    assert (0 < 2 ^ (ey + 149)) by (apply Z.pow_pos_nonneg; lia).
    assert (HP' : Z.abs P * 2 ^ 149 = Zpos (mx * my) * 2 ^ (ex + ey + 298)).
    { replace (ex + ey + 298) with (ex + 149 + (ey + 149)) by lia.
      rewrite Z.pow_add_r, Pos2Z.inj_mul by lia.
      destruct sx, sy; nia. }
    assert (0 < Z.abs P).
    { assert (0 < Zpos (mx * my) * 2 ^ (ex + ey + 298)); [|nia].
      apply Z.mul_pos_pos; [lia|]. apply Z.pow_pos_nonneg; lia. }
    unfold mul. cbn [SFmul].
    destruct (binary_round_aux_scaled (xorb sx sy) (mx * my) (ex + ey) (Z.abs P)
                (mul_exponent_le mx my ex ey sx sy Vx Vy) ltac:(lia) HP')
      as [_ ->].
    unfold round_scaled.
    assert (Hs : Z.sgn P = if xorb sx sy then -1 else 1).
    { assert (0 < Zpos mx * 2 ^ (ex + 149)) by lia.
      assert (0 < Zpos my * 2 ^ (ey + 149)) by lia.
      destruct sx, sy; cbn [xorb]; nia. }
    by rewrite Hs.
Qed.

End Product.

(** ** Coefficients between 0 and 1 *)

Lemma of_int_int16 z :
  in_int16 z ->
  is_finite (of_int z) = true /\ valid (of_int z) = true /\
  scaled (of_int z) = z * 2 ^ 149.
Proof.
  intros Hz. apply of_int_scaled.
  unfold in_int16, INT16_MIN, INT16_MAX in Hz. lia.
Qed.

Lemma int16_state_filter_state a p : in_int16 p -> int16_state a (filter_state a p).
Proof. intros Hp. exact (conj eq_refl (conj eq_refl (conj eq_refl Hp))). Qed.

Lemma int16_state_set a st y :
  int16_state a st -> in_int16 y -> int16_state a (set_prev_output y st).
Proof.
  intros (Ha & Hmin & Hmax & _) Hy.
  destruct (set_prev_output_fields y st) as (Ep & Ea & Elo & Ehi).
  unfold int16_state. by rewrite Ep, Ea, Elo, Ehi.
Qed.

Lemma int16_state_eq a st :
  int16_state a st -> st = filter_state a (prev_output st).
Proof. intros (Ha & Hmin & Hmax & _). destruct st. cbn in *. by subst. Qed.

Lemma set_prev_output_filter_state a p y :
  set_prev_output y (filter_state a p) = filter_state a y.
Proof. done. Qed.

(** The product of a factor between 0 and 1 and an [int16_t] sample. *)
Lemma unit_term f x :
  valid f = true -> is_finite f = true -> 0 <= scaled f <= 2 ^ 149 ->
  in_int16 x ->
  valid (mul f (of_int x)) = true /\ is_finite (mul f (of_int x)) = true /\
  scaled (mul f (of_int x)) = round_scaled (scaled f * x) /\
  Z.abs (scaled (mul f (of_int x))) <= 2 ^ 165.
Proof.
  intros Vf Ff Bf Hx.
  destruct (of_int_int16 x Hx) as (Fx & Vx & Sx).
  unfold in_int16, INT16_MIN, INT16_MAX in Hx.
  assert (H149 : 0 < 2 ^ 149) by done.
  assert (HP : Z.abs (scaled f * x) < 2 ^ 165).
  { change (2 ^ 165) with (2 ^ 149 * 65536). rewrite Z.abs_mul.
    rewrite (Z.abs_eq (scaled f)) by lia. nia. }
  destruct (mul_scaled f (of_int x) (scaled f * x) Vf Vx Ff Fx) as (F & V & S).
  { rewrite Sx. ring. }
  { assert (2 ^ 165 < 2 ^ 276) by (by apply Z.pow_lt_mono_r). lia. }
  split; [done|]. split; [done|]. split; [done|].
  rewrite S. by apply round_scaled_bound.
Qed.

Lemma unit_term_mono f x x' :
  valid f = true -> is_finite f = true -> 0 <= scaled f <= 2 ^ 149 ->
  in_int16 x -> in_int16 x' -> x <= x' ->
  scaled (mul f (of_int x)) <= scaled (mul f (of_int x')).
Proof.
  intros Vf Ff Bf Hx Hx' Hle.
  destruct (unit_term f x Vf Ff Bf Hx) as (_ & _ & -> & _).
  destruct (unit_term f x' Vf Ff Bf Hx') as (_ & _ & -> & _).
  apply round_scaled_mono. nia.
Qed.

Section UnitInterval.

Variable a : float32.
Hypothesis a_unit : in_unit_interval a.

Local Abbreviation X := (input_term a).
Local Abbreviation Y := (feedback_term a).
Local Abbreviation out := (exact_output a).

Lemma unit_scaled : 0 <= scaled a <= 2 ^ 149.
Proof.
  destruct a_unit as (Va & Fa & Hlo & Hhi).
  rewrite lt_scaled in Hlo by done. rewrite gt_scaled in Hhi by done.
  apply Z.ltb_ge in Hlo, Hhi. change (scaled one) with (2 ^ 149) in Hhi.
  change (scaled (S754_zero false)) with 0 in Hlo. lia.
Qed.

Lemma unit_complement :
  valid (sub one a) = true /\ is_finite (sub one a) = true /\
  0 <= scaled (sub one a) <= 2 ^ 149.
Proof.
  destruct a_unit as (Va & Fa & _). pose proof unit_scaled as Ba.
  assert (H149 : 0 < 2 ^ 149) by done.
  destruct (sub_scaled one a eq_refl Va eq_refl Fa) as (F & V & S).
  { change (scaled one) with (2 ^ 149).
    assert (2 ^ 149 < 2 ^ 276) by (by apply Z.pow_lt_mono_r). lia. }
  split; [done|]. split; [done|]. rewrite S.
  change (scaled one) with (2 ^ 149).
  pose proof (round_scaled_mono 0 (2 ^ 149 - scaled a) ltac:(lia)) as H0.
  pose proof (round_scaled_mono (2 ^ 149 - scaled a) (2 ^ 149) ltac:(lia)) as H1.
  pose proof (round_scaled_valid one eq_refl eq_refl) as E1.
  change (scaled one) with (2 ^ 149) in E1. rewrite E1 in H1.
  change (round_scaled 0) with 0 in H0. lia.
Qed.

Lemma unit_input_term x :
  in_int16 x ->
  valid (X x) = true /\ is_finite (X x) = true /\ Z.abs (scaled (X x)) <= 2 ^ 165.
Proof.
  intros Hx. destruct a_unit as (Va & Fa & _).
  by destruct (unit_term a x Va Fa unit_scaled Hx) as (? & ? & _ & ?).
Qed.

Lemma unit_feedback_term p :
  in_int16 p ->
  valid (Y p) = true /\ is_finite (Y p) = true /\ Z.abs (scaled (Y p)) <= 2 ^ 165.
Proof.
  intros Hp. destruct unit_complement as (Vb & Fb & Bb).
  by destruct (unit_term (sub one a) p Vb Fb Bb Hp) as (? & ? & _ & ?).
Qed.

(** The value [filter_sample] returns, in closed form. *)
Lemma unit_filter_sample st x :
  int16_state a st -> in_int16 x ->
  filter_sample st x =
    Some (out x (prev_output st), set_prev_output (out x (prev_output st)) st) /\
  in_int16 (out x (prev_output st)).
Proof.
  intros (Ha & Hmin & Hmax & Hp) Hx.
  destruct (unit_input_term x Hx) as (Vx & Fx & Bx).
  destruct (unit_feedback_term _ Hp) as (Vy & Fy & By).
  destruct (add_scaled (X x) (Y (prev_output st)) Vx Vy Fx Fy) as (Fo & Vo & So).
  { assert (2 * 2 ^ 165 < 2 ^ 276)
      by (change (2 * 2 ^ 165) with (2 ^ 166); by apply Z.pow_lt_mono_r).
    lia. }
  assert (No : is_nan (add (X x) (Y (prev_output st))) = false)
    by (by destruct (add (X x) (Y (prev_output st)))).
  destruct (filter_clamp_to_int16 half_filter (add (X x) (Y (prev_output st)))
              eq_refl eq_refl Vo No) as (y & Ey & Hin & Hy).
  specialize (Hy Fo). rewrite So in Hy.
  assert (y = out x (prev_output st)) as -> by exact Hy.
  split; [|done].
  rewrite (filter_sample_clamp_output st x Hmin Hmax), Ha.
  unfold clamp_output. by rewrite Ey.
Qed.

Lemma unit_output_mono x x' p p' :
  in_int16 x -> in_int16 x' -> in_int16 p -> in_int16 p' ->
  x <= x' -> p <= p' -> out x p <= out x' p'.
Proof.
  intros Hx Hx' Hp Hp' Hxx Hpp. unfold exact_output, clamp_scaled.
  apply Z.quot_le_mono; [done|].
  apply Z.max_le_compat_r, Z.min_le_compat_r.
  apply round_scaled_mono, Z.add_le_mono.
  - destruct a_unit as (Va & Fa & _).
    exact (unit_term_mono a x x' Va Fa unit_scaled Hx Hx' Hxx).
  - destruct unit_complement as (Vb & Fb & Bb).
    exact (unit_term_mono (sub one a) p p' Vb Fb Bb Hp Hp' Hpp).
Qed.

(** Below 1, the sample 1 after the output 0 gives 0: the product
    [a * 1] is [a], and its integer part is 0. *)
Lemma unit_one_after_reset :
  lt a one = true ->
  filter_sample (filter_state a 0) 1 = Some (0, filter_state a 0).
Proof.
  intros Hlt. destruct a_unit as (Va & Fa & _).
  pose proof unit_scaled as Ba. destruct unit_complement as (Vb & Fb & Bb).
  rewrite lt_scaled in Hlt by done. apply Z.ltb_lt in Hlt.
  change (scaled one) with (2 ^ 149) in Hlt.
  assert (H1 : in_int16 1) by (unfold in_int16, INT16_MIN, INT16_MAX; lia).
  assert (H0 : in_int16 0) by (unfold in_int16, INT16_MIN, INT16_MAX; lia).
  destruct (unit_filter_sample (filter_state a 0) 1
              (int16_state_filter_state a 0 H0) H1) as [E _].
  cbn [prev_output filter_state] in E.
  assert (Ev : out 1 0 = 0).
  { unfold exact_output, input_term, feedback_term.
    destruct (unit_term a 1 Va Fa Ba H1) as (_ & _ & -> & _).
    destruct (unit_term (sub one a) 0 Vb Fb Bb H0) as (_ & _ & -> & _).
    rewrite Z.mul_1_r, Z.mul_0_r.
    change (round_scaled 0) with 0. rewrite Z.add_0_r.
    rewrite !(round_scaled_valid a Va Fa).
    unfold clamp_scaled.
    assert (0 < 2 ^ 149) by done.
    rewrite Z.min_l, Z.max_l by lia.
    apply Z.quot_small. lia. }
  rewrite E, Ev. done.
Qed.

Lemma unit_stays_after_reset n :
  lt a one = true ->
  after_constant (filter_state a 0) 1 n = Some (filter_state a 0).
Proof.
  intros Hlt. induction n as [|n IH]; [done|].
  rewrite after_constant_S, IH. cbn [mbind option_bind].
  by rewrite unit_one_after_reset.
Qed.

(** *** Coefficients that keep every constant signal *)

Hypothesis a_keeps : keeps_constant a.

Lemma unit_output_diag c : in_int16 c -> out c c = c.
Proof.
  intros Hc. pose proof (a_keeps c Hc) as E.
  destruct (unit_filter_sample (filter_state a c) c
              (int16_state_filter_state a c Hc) Hc) as [E' _].
  rewrite E' in E. cbn [prev_output filter_state] in E. congruence.
Qed.

Lemma unit_output_between x p :
  in_int16 x -> in_int16 p -> Z.min p x <= out x p <= Z.max p x.
Proof.
  intros Hx Hp.
  pose proof (unit_output_diag x Hx). pose proof (unit_output_diag p Hp).
  destruct (Z_le_gt_dec p x) as [Hle|Hgt].
  - pose proof (unit_output_mono p x p p Hp Hx Hp Hp Hle ltac:(lia)).
    pose proof (unit_output_mono x x p x Hx Hx Hp Hx ltac:(lia) Hle). lia.
  - pose proof (unit_output_mono x p p p Hx Hp Hp Hp ltac:(lia) ltac:(lia)).
    pose proof (unit_output_mono x x x p Hx Hx Hx Hp ltac:(lia) ltac:(lia)). lia.
Qed.

Lemma unit_sample_between st x :
  int16_state a st -> in_int16 x ->
  exists y,
    filter_sample st x = Some (y, set_prev_output y st) /\
    int16_state a (set_prev_output y st) /\
    Z.min (prev_output st) x <= y <= Z.max (prev_output st) x.
Proof.
  intros Hst Hx. destruct (unit_filter_sample st x Hst Hx) as [E Hin].
  exists (out x (prev_output st)). split; [done|].
  split; [by apply int16_state_set|].
  apply unit_output_between; [done|apply Hst].
Qed.

Lemma unit_after_constant c n : forall st,
  int16_state a st -> in_int16 c ->
  exists st',
    after_constant st c n = Some st' /\ int16_state a st' /\
    Z.abs (prev_output st' - c) <= Z.abs (prev_output st - c).
Proof.
  induction n as [|n IH]; intros st Hst Hc.
  - exists st. rewrite after_constant_0. split; [done|]. split; [done|]. lia.
  - destruct (IH st Hst Hc) as (st1 & E1 & Hst1 & Hle1).
    destruct (unit_sample_between st1 c Hst1 Hc) as (y & Ey & Hst2 & Hb).
    exists (set_prev_output y st1).
    rewrite after_constant_S, E1. cbn [mbind option_bind]. rewrite Ey.
    split; [done|]. split; [done|].
    destruct (set_prev_output_fields y st1) as (-> & _). lia.
Qed.

Lemma unit_never_grows st c :
  int16_state a st -> in_int16 c -> distance_never_grows st c.
Proof.
  intros Hst Hc n d d'. unfold distance_after.
  destruct (unit_after_constant c n st Hst Hc) as (st1 & E1 & Hst1 & _).
  destruct (unit_sample_between st1 c Hst1 Hc) as (y & Ey & _ & Hb).
  rewrite after_constant_S, E1. cbn [mbind option_bind fmap option_fmap option_map].
  rewrite Ey. cbn.
  destruct (set_prev_output_fields y st1) as (Ep & _).
  intros [= <-] [= <-]. lia.
Qed.

(** *** Coefficients that move the output toward the input *)

Hypothesis a_moves : moves_toward_input a.

Lemma unit_output_up c : in_int16 c -> in_int16 (c + 2) -> c + 1 <= out (c + 2) c.
Proof.
  intros Hc Hc2. destruct (a_moves c Hc Hc2) as [(y & E & Hy) _].
  destruct (unit_filter_sample (filter_state a c) (c + 2)
              (int16_state_filter_state a c Hc) Hc2) as [E' _].
  rewrite E' in E. cbn [prev_output filter_state] in E.
  injection E as E _. lia.
Qed.

Lemma unit_output_down c : in_int16 c -> in_int16 (c + 2) -> out c (c + 2) <= c + 1.
Proof.
  intros Hc Hc2. destruct (a_moves c Hc Hc2) as [_ (y & E & Hy)].
  destruct (unit_filter_sample (filter_state a (c + 2)) c
              (int16_state_filter_state a (c + 2) Hc2) Hc) as [E' _].
  rewrite E' in E. cbn [prev_output filter_state] in E.
  injection E as E _. lia.
Qed.

Lemma unit_sample_toward st x :
  int16_state a st -> in_int16 x ->
  exists y,
    filter_sample st x = Some (y, set_prev_output y st) /\
    int16_state a (set_prev_output y st) /\
    Z.min (prev_output st) x <= y <= Z.max (prev_output st) x /\
    (prev_output st + 2 <= x -> prev_output st + 1 <= y) /\
    (x + 2 <= prev_output st -> y <= prev_output st - 1).
Proof.
  intros Hst Hx. destruct (unit_filter_sample st x Hst Hx) as [E Hin].
  assert (Hp : in_int16 (prev_output st)) by apply Hst.
  exists (out x (prev_output st)). split; [done|].
  split; [by apply int16_state_set|].
  split; [by apply unit_output_between|]. split.
  - intros H2.
    assert (Hp2 : in_int16 (prev_output st + 2))
      by (unfold in_int16, INT16_MIN, INT16_MAX in *; lia).
    pose proof (unit_output_up _ Hp Hp2).
    pose proof (unit_output_mono (prev_output st + 2) x (prev_output st)
                  (prev_output st) Hp2 Hx Hp Hp H2 ltac:(lia)). lia.
  - intros H2.
    assert (Hp2 : in_int16 (prev_output st - 2))
      by (unfold in_int16, INT16_MIN, INT16_MAX in *; lia).
    pose proof (unit_output_down (prev_output st - 2) Hp2) as Hd.
    replace (prev_output st - 2 + 2) with (prev_output st) in Hd by lia.
    specialize (Hd Hp).
    pose proof (unit_output_mono x (prev_output st - 2) (prev_output st)
                  (prev_output st) Hx Hp2 Hp Hp ltac:(lia) ltac:(lia)). lia.
Qed.

Lemma unit_after_constant_toward c n : forall st,
  int16_state a st -> in_int16 c ->
  exists st',
    after_constant st c n = Some st' /\ int16_state a st' /\
    Z.abs (prev_output st' - c)
      <= Z.max 1 (Z.abs (prev_output st - c) - Z.of_nat n).
Proof.
  induction n as [|n IH]; intros st Hst Hc.
  - exists st. rewrite after_constant_0. split; [done|]. split; [done|]. lia.
  - destruct (IH st Hst Hc) as (st1 & E1 & Hst1 & Hd1).
    destruct (unit_sample_toward st1 c Hst1 Hc) as (y & Ey & Hst2 & Hb & Hu & Hd).
    exists (set_prev_output y st1).
    rewrite after_constant_S, E1. cbn [mbind option_bind]. rewrite Ey.
    split; [done|]. split; [done|].
    destruct (set_prev_output_fields y st1) as (-> & _). lia.
Qed.

Lemma unit_strictly_falls st c n d :
  int16_state a st -> in_int16 c ->
  distance_after st c n = Some d -> 2 <= d ->
  exists d', distance_after st c (S n) = Some d' /\ d' < d.
Proof.
  intros Hst Hc. unfold distance_after.
  destruct (unit_after_constant c n st Hst Hc) as (st1 & E1 & Hst1 & _).
  destruct (unit_sample_toward st1 c Hst1 Hc) as (y & Ey & _ & Hb & Hu & Hd).
  rewrite after_constant_S, E1. cbn [mbind option_bind fmap option_fmap option_map].
  rewrite Ey. cbn.
  destruct (set_prev_output_fields y st1) as (Ep & _).
  intros [= <-] H2. eexists. split; [done|]. lia.
Qed.

End UnitInterval.



(** ** The claims on the low-pass filter *)

(** The check of the 65536 sample values for the coefficient that
    [init_lowpass_filter] sets. *)
Lemma constant_check_ALPHA : constant_check_from ALPHA sample_values = true.
Proof. vm_compute. reflexivity. Qed.

Lemma sample_count : Z.of_nat sample_values = 65536.
Proof. apply Z2Nat.id. lia. Qed.

(** C1: in a filter state whose bounds are -32768 and 32767, whatever
    [filter_sample] returns lies within [min_val, max_val]. It returns a
    value exactly when [output_float] is not a NaN (the conversion of a NaN
    to [int16_t] is undefined), which is the case for every [int16_t] input
    and previous output when the coefficient is a binary32 number of
    magnitude [2^100] at most, as every coefficient between 0 and 1 is. *)
Theorem filter_sample_within_bounds
    (st : simple_lowpass_filter_t) (x : Z) :
  min_val st = -32768 ->
  max_val st = 32767 ->
  (forall y st', filter_sample st x = Some (y, st') ->
                 min_val st <= y <= max_val st) /\
  (valid (alpha st) = true ->
   is_nan (filter_output_float st x) = false ->
   exists y, filter_sample st x = Some (y, set_prev_output y st) /\
             min_val st <= y <= max_val st) /\
  (is_nan (filter_output_float st x) = true -> filter_sample st x = None) /\
  (moderate (alpha st) -> in_int16 x -> in_int16 (prev_output st) ->
   exists y, filter_sample st x = Some (y, set_prev_output y st) /\
             min_val st <= y <= max_val st).
Proof.
  intros Hmin Hmax. rewrite Hmin, Hmax.
  assert (Hret : forall y st', filter_sample st x = Some (y, st') ->
                               -32768 <= y <= 32767).
  { intros y st' H. apply filter_sample_Some in H as [H _].
    by apply to_int16_in_range in H. }
  assert (Hdef : valid (alpha st) = true ->
                 is_nan (filter_output_float st x) = false ->
                 exists y, filter_sample st x = Some (y, set_prev_output y st) /\
                           -32768 <= y <= 32767).
  { intros Hv Hn.
    destruct (filter_clamp_to_int16 st (filter_output_float st x) Hmin Hmax
                (filter_output_float_valid st x Hv) Hn) as (y & Hy & Hin & _).
    exists y. split; [|done]. unfold filter_sample. by rewrite Hy. }
  split; [done|]. split; [done|]. split.
  - intros Hn. unfold filter_sample.
    destruct (filter_output_float st x); try done.
    by rewrite filter_clamp_nan.
  - intros Ha Hx Hp. apply Hdef; [apply Ha|].
    by apply filter_output_float_not_nan.
Qed.

Lemma filter_sample_within_bounds_witness :
  min_val half_filter = -32768 /\ max_val half_filter = 32767 /\
  moderate (alpha half_filter) /\ in_int16 32767 /\
  in_int16 (prev_output half_filter) /\
  exists y,
    filter_sample half_filter 32767 = Some (y, set_prev_output y half_filter) /\
    min_val half_filter <= y <= max_val half_filter.
Proof.
  assert (Ha : moderate (alpha half_filter)).
  { split; [reflexivity|]. split; [reflexivity|]. by vm_compute. }
  assert (Hx : in_int16 32767) by (by vm_compute).
  assert (Hp : in_int16 (prev_output half_filter)) by (by vm_compute).
  repeat (split; [reflexivity || assumption|]).
  exact (proj2 (proj2 (proj2
           (filter_sample_within_bounds half_filter 32767 eq_refl eq_refl)))
           Ha Hx Hp).
Defined.

(** C2: on every input array and from every filter state, [filter_block]
    over the first [size] samples computes what [size] successive calls of
    [filter_sample] compute, the state going from each call to the next: the
    same outputs in the same order (written over the first [size] cells of
    the output array), the same final state, and undefined exactly when one
    of the calls is; the outputs are as many as the inputs. *)
Theorem filter_block_is_sequential_filter_sample
    (st : simple_lowpass_filter_t) (input output : list Z) (size : nat) :
  (size <= length input)%nat ->
  (size <= length output)%nat ->
  filter_block st input output size =
    ((fun r => (r.1 ++ drop size output, r.2)) <$>
       process_samples st (take size input)) /\
  (forall ys st', process_samples st (take size input) = Some (ys, st') ->
                  length ys = size).
Proof.
  intros Hin Hout. split.
  - unfold filter_block.
    rewrite filter_block_from_process by (simpl; lia).
    by rewrite drop_0.
  - intros ys st' H. apply process_samples_length in H.
    rewrite H, length_take. lia.
Qed.

Lemma filter_block_is_sequential_filter_sample_witness :
  filter_block half_filter [32767; 0; 0] [7; 7; 7; 7] 3 =
    ((fun r => (r.1 ++ drop 3 [7; 7; 7; 7], r.2)) <$>
       process_samples half_filter (take 3 [32767; 0; 0])) /\
  (forall ys st',
      process_samples half_filter (take 3 [32767; 0; 0]) = Some (ys, st') ->
      length ys = 3%nat).
Proof.
  apply (filter_block_is_sequential_filter_sample
           half_filter [32767; 0; 0] [7; 7; 7; 7] 3); simpl; lia.
Defined.

(** C10: a call of [filter_sample] that returns [y] leaves a state that
    differs from the one it started in by [prev_output] alone, which is [y];
    and [filter_block] with [size = 0] writes no cell of the output array
    and leaves the filter state as it was. *)
Theorem filter_sample_writes_prev_output_only :
  (forall st x y st',
      filter_sample st x = Some (y, st') ->
      st' = set_prev_output y st /\
      prev_output st' = y /\ alpha st' = alpha st /\
      min_val st' = min_val st /\ max_val st' = max_val st) /\
  (forall st input output, filter_block st input output 0 = Some (output, st)).
Proof.
  split.
  - intros st x y st' H. apply filter_sample_Some in H as [_ ->].
    split; [done|]. apply set_prev_output_fields.
  - done.
Qed.

Lemma filter_sample_writes_prev_output_only_witness :
  filter_sample half_filter 32767 = Some (16383, set_prev_output 16383 half_filter) /\
  prev_output (set_prev_output 16383 half_filter) = 16383.
Proof.
  split; [vm_compute; reflexivity|].
  apply (proj1 filter_sample_writes_prev_output_only half_filter 32767 16383
           (set_prev_output 16383 half_filter)).
  vm_compute; reflexivity.
Defined.

(** Rational bounds of pi, from the Machin-like series of the standard
    library. *)
Lemma PI_bounds :
  (314159265 / 100000000 < Rtrigo1.PI < 314159266 / 100000000)%R.
Proof.
  pose proof (PI_2_3_7_ineq 4) as [Hlo Hhi].
  unfold sum_f_R0, tg_alt, PI_2_3_7_tg, Ratan_seq in Hlo, Hhi.
  cbn [Nat.mul Nat.add] in Hlo, Hhi.
  repeat rewrite S_INR in Hlo, Hhi.
  cbn [pow INR] in Hlo, Hhi.
  split; lra.
Qed.

(** The constant [PI] is the binary32 number nearest to pi: binary32
    numbers between 2 and 4 are [2^-22] apart, and [PI] is less than half
    of that away from pi. *)
Lemma PI_nearest :
  (Rabs (real_value PI - Rtrigo1.PI) < 1 / IZR (2 ^ 23))%R.
Proof.
  pose proof PI_bounds as [Hlo Hhi].
  unfold real_value.
  change (scaled PI) with (13176795 * 2 ^ 127).
  replace (IZR (13176795 * 2 ^ 127) / IZR (2 ^ 149))%R
    with (13176795 / 4194304)%R.
  2:{ rewrite mult_IZR. change (2 ^ 149) with (2 ^ 22 * 2 ^ 127).
      rewrite mult_IZR. change (2 ^ 22) with 4194304.
      assert (IZR (2 ^ 127) <> 0)%R by (apply not_0_IZR; done).
      field. done. }
  change (2 ^ 23) with 8388608.
  apply Rabs_def1; lra.
Qed.

Lemma ALPHA_value : ALPHA = S754_finite false 10140363 (-24).
Proof. reflexivity. Qed.

(** The binary32 number [ALPHA] is within [2^-24], one unit of its last
    place, of the real number [1 / (1 + 2 pi CUTOFF_FREQ / SAMPLE_RATE)]. *)
Lemma ALPHA_real :
  (Rabs (real_value ALPHA
         - 1 / (1 + 2 * Rtrigo1.PI * IZR CUTOFF_FREQ / IZR SAMPLE_RATE))
   < 1 / IZR (2 ^ 24))%R.
Proof.
  pose proof PI_bounds as [Hlo Hhi].
  unfold real_value. rewrite ALPHA_value.
  change (scaled (S754_finite false 10140363 (-24))) with (10140363 * 2 ^ 125).
  unfold CUTOFF_FREQ, SAMPLE_RATE.
  replace (IZR (10140363 * 2 ^ 125) / IZR (2 ^ 149))%R
    with (10140363 / 16777216)%R.
  2:{ rewrite mult_IZR. change (2 ^ 149) with (2 ^ 24 * 2 ^ 125).
      rewrite mult_IZR. change (2 ^ 24) with 16777216.
      assert (IZR (2 ^ 125) <> 0)%R by (apply not_0_IZR; done).
      field. done. }
  change (2 ^ 24) with 16777216.
  set (D := (1 + 2 * Rtrigo1.PI * 5000 / 48000)%R).
  assert (HD : (1 + 2 * (314159265 / 100000000) * 5000 / 48000 < D
                < 1 + 2 * (314159266 / 100000000) * 5000 / 48000)%R)
    by (unfold D; lra).
  assert (HDpos : (0 < D)%R) by lra.
  assert (Hr : (1 / D * D = 1)%R) by (field; lra).
  assert (Hrpos : (0 < 1 / D)%R) by (apply Rdiv_lt_0_compat; lra).
  apply Rabs_def1; nra.
Qed.

(** C4: [init_lowpass_filter] leaves [prev_output = 0], the bounds
    -32768 and 32767 of [int16_t], and for [alpha] the macro [ALPHA]: the
    expression [1 / (1 + 2 * PI * CUTOFF_FREQ / SAMPLE_RATE)] with the
    configured 5000 Hz and 48000 Hz, evaluated in binary32, which is
    10140363 * 2^-24 (about 0.6044) and differs from the real number
    [1 / (1 + 2 pi cutoff / sample_rate)] by less than [2^-24]. *)
Theorem init_lowpass_filter_state (st : simple_lowpass_filter_t) :
  prev_output (init_lowpass_filter st) = 0 /\
  alpha (init_lowpass_filter st)
    = div one (add one (div (mul (mul two PI) (of_int CUTOFF_FREQ))
                            (of_int SAMPLE_RATE))) /\
  alpha (init_lowpass_filter st) = S754_finite false 10140363 (-24) /\
  (Rabs (real_value (alpha (init_lowpass_filter st))
         - 1 / (1 + 2 * Rtrigo1.PI * IZR CUTOFF_FREQ / IZR SAMPLE_RATE))
   < 1 / IZR (2 ^ 24))%R /\
  min_val (init_lowpass_filter st) = INT16_MIN /\
  max_val (init_lowpass_filter st) = INT16_MAX /\
  INT16_MIN = -32768 /\ INT16_MAX = 32767.
Proof.
  split; [reflexivity|]. split; [reflexivity|]. split; [reflexivity|].
  split; [exact ALPHA_real|]. repeat split; reflexivity.
Qed.

(** C7: whatever the filter state is, and so after any number of processed
    samples, [init_lowpass_filter] leaves [prev_output = 0]. *)
Theorem init_lowpass_filter_resets_prev_output :
  (forall st, prev_output (init_lowpass_filter st) = 0) /\
  (forall st input ys st',
      process_samples st input = Some (ys, st') ->
      prev_output (init_lowpass_filter st') = 0).
Proof. split; reflexivity. Qed.

Lemma init_lowpass_filter_resets_prev_output_witness :
  process_samples half_filter [32767; 0]
    = Some ([16383; 8191], set_prev_output 8191 half_filter) /\
  prev_output (init_lowpass_filter (set_prev_output 8191 half_filter)) = 0.
Proof.
  split; [reflexivity|].
  exact (proj2 init_lowpass_filter_resets_prev_output half_filter [32767; 0]
           [16383; 8191] (set_prev_output 8191 half_filter) eq_refl).
Defined.

(** C5: with [alpha = 0.5] and [prev_output = 0] the impulse
    [32767, 0, 0, 0] gives four outputs that are the geometric sequence
    [32767 * alpha * (1 - alpha)^k] of ratio 1/2 with each term truncated
    toward zero: the first is one of 16383 and 16384 (it is 16383), the
    second one of 8191 and 8192 (it is 8191), then 4095 and 2047; each
    output is the truncated half of the one before, and [filter_block]
    returns the same four values. *)
Theorem impulse_response_alpha_half :
  exists y0 y1 y2 y3 st',
    process_samples half_filter [32767; 0; 0; 0] = Some ([y0; y1; y2; y3], st') /\
    filter_block half_filter [32767; 0; 0; 0] [0; 0; 0; 0] 4
      = Some ([y0; y1; y2; y3], st') /\
    [y0; y1; y2; y3] = (fun k => 32767 ÷ 2 ^ (k + 1)) <$> [0; 1; 2; 3] /\
    (y0 = 16383 \/ y0 = 16384) /\ (y1 = 8191 \/ y1 = 8192) /\
    y1 = y0 ÷ 2 /\ y2 = y1 ÷ 2 /\ y3 = y2 ÷ 2 /\
    y0 > y1 /\ y1 > y2 /\ y2 > y3 /\ y3 = 2047.
Proof.
  exists 16383, 8191, 4095, 2047, (set_prev_output 2047 half_filter).
  repeat split; try (vm_compute; reflexivity); by left.
Qed.

(** ** The DFSDM callbacks *)

Lemma BUF_LENGTH_value : Dfsdm.BUF_LENGTH = 8.
Proof. reflexivity. Qed.

Section DualMicFacts.
Import Dfsdm DualMic.

Lemma dual_notify_mapped ev st :
  notification_handle ev = hdfsdm1_filter1 ->
  notify st ev =
    {| Buf_Mic0 := Buf_Mic0 st;
       Buf_Mic1 := Buf_Mic1 st;
       huart1 := huart1 st ++ [completed_half ev] |}.
Proof. destruct ev as [h|h]; simpl; by intros ->. Qed.

Lemma dual_notify_unmapped ev st :
  notification_handle ev <> hdfsdm1_filter1 -> notify st ev = st.
Proof.
  destruct ev as [h|h]; simpl; intros Hne;
    unfold HAL_DFSDM_FilterRegConvHalfCpltCallback,
           HAL_DFSDM_FilterRegConvCpltCallback;
    repeat case_decide; done.
Qed.

Lemma dual_run_mapped evs : forall st,
  Forall (fun ev => notification_handle ev = hdfsdm1_filter1) evs ->
  run evs st =
    {| Buf_Mic0 := Buf_Mic0 st;
       Buf_Mic1 := Buf_Mic1 st;
       huart1 := huart1 st ++ (completed_half <$> evs) |}.
Proof.
  unfold run.
  induction evs as [|ev evs IH]; intros st Hall; simpl.
  - rewrite app_nil_r. by destruct st.
  - inversion Hall as [|? ? Hev Hevs]; subst.
    rewrite (dual_notify_mapped _ _ Hev), (IH _ Hevs). simpl.
    by rewrite <- app_assoc.
Qed.

Lemma dual_run_unmapped evs : forall st,
  Forall (fun ev => notification_handle ev <> hdfsdm1_filter1) evs ->
  run evs st = st.
Proof.
  unfold run.
  induction evs as [|ev evs IH]; intros st Hall; simpl; [done|].
  inversion Hall as [|? ? Hev Hevs]; subst.
  by rewrite (dual_notify_unmapped _ _ Hev), (IH _ Hevs).
Qed.

End DualMicFacts.

Section SingleMicFacts.
Import Dfsdm SingleMic.

Lemma single_run evs : forall st,
  run evs st =
    {| dfsdm_buf := dfsdm_buf st;
       huart1 := huart1 st ++ (completed_half <$> evs) |}.
Proof.
  unfold run.
  induction evs as [|ev evs IH]; intros st; simpl.
  - rewrite app_nil_r. by destruct st.
  - rewrite IH. destruct ev; simpl; by rewrite <- app_assoc.
Qed.

End SingleMicFacts.

(** C3: [N] half-complete and full-complete notifications that carry
    [hdfsdm1_filter1], in any order, add exactly [N] transmit requests, one
    for each notification and in the same order: the first half of
    [Buf_Mic1] (from byte 0) for a half-complete, the second half for a
    full-complete, which starts at the half length, [BUF_LENGTH / 2] samples
    into the buffer; the buffers are not written. The single-microphone
    callbacks do the same with [dfsdm_buf], for every handle. *)
Theorem handoff_transmits_completed_halves :
  (forall evs st,
      Forall (fun ev => Dfsdm.notification_handle ev = Dfsdm.hdfsdm1_filter1) evs ->
      DualMic.huart1 (DualMic.run evs st)
        = DualMic.huart1 st ++ (DualMic.completed_half <$> evs) /\
      length (DualMic.huart1 (DualMic.run evs st))
        = (length (DualMic.huart1 st) + length evs)%nat /\
      DualMic.Buf_Mic0 (DualMic.run evs st) = DualMic.Buf_Mic0 st /\
      DualMic.Buf_Mic1 (DualMic.run evs st) = DualMic.Buf_Mic1 st) /\
  (forall evs st,
      SingleMic.huart1 (SingleMic.run evs st)
        = SingleMic.huart1 st ++ (SingleMic.completed_half <$> evs) /\
      length (SingleMic.huart1 (SingleMic.run evs st))
        = (length (SingleMic.huart1 st) + length evs)%nat /\
      SingleMic.dfsdm_buf (SingleMic.run evs st) = SingleMic.dfsdm_buf st) /\
  (forall A (a : A),
      Dfsdm.ptr_offset (Dfsdm.pData (Dfsdm.first_half a)) = 0 /\
      Dfsdm.ptr_offset (Dfsdm.pData (Dfsdm.second_half a))
        = Dfsdm.BUF_LENGTH ÷ 2 * Dfsdm.sizeof_int16_t /\
      Dfsdm.ptr_offset (Dfsdm.pData (Dfsdm.second_half a)) = Dfsdm.half_length /\
      Dfsdm.Size (Dfsdm.first_half a) = Dfsdm.half_length /\
      Dfsdm.Size (Dfsdm.second_half a) = Dfsdm.half_length /\
      Dfsdm.half_length + Dfsdm.half_length = Dfsdm.buffer_bytes).
Proof.
  split; [|split].
  - intros evs st Hall. rewrite (dual_run_mapped evs st Hall). simpl.
    by rewrite length_app, length_fmap.
  - intros evs st. rewrite single_run. simpl.
    by rewrite length_app, length_fmap.
  - intros A a. by vm_compute.
Qed.

Lemma handoff_transmits_completed_halves_witness :
  DualMic.huart1
    (DualMic.run [Dfsdm.HalfCplt Dfsdm.hdfsdm1_filter1;
                  Dfsdm.Cplt Dfsdm.hdfsdm1_filter1;
                  Dfsdm.HalfCplt Dfsdm.hdfsdm1_filter1] DualMic.initial_state)
  = [Dfsdm.first_half DualMic.array_Buf_Mic1;
     Dfsdm.second_half DualMic.array_Buf_Mic1;
     Dfsdm.first_half DualMic.array_Buf_Mic1].
Proof.
  refine (proj1 (proj1 handoff_transmits_completed_halves
                   [Dfsdm.HalfCplt Dfsdm.hdfsdm1_filter1;
                    Dfsdm.Cplt Dfsdm.hdfsdm1_filter1;
                    Dfsdm.HalfCplt Dfsdm.hdfsdm1_filter1] DualMic.initial_state _)).
  repeat constructor.
Defined.

(** C8: in the two-microphone callbacks, notifications that carry the
    unused [hdfsdm1_filter0] do nothing: after any number of them the buffers
    and the list of transmit requests are what they were, so no transmission
    has been started. *)
Theorem unused_channel_is_dropped :
  forall evs st,
    Forall (fun ev => Dfsdm.notification_handle ev = Dfsdm.hdfsdm1_filter0) evs ->
    DualMic.run evs st = st /\
    DualMic.huart1 (DualMic.run evs st) = DualMic.huart1 st /\
    (forall h st0,
        h = Dfsdm.hdfsdm1_filter0 ->
        DualMic.HAL_DFSDM_FilterRegConvHalfCpltCallback h st0 = st0 /\
        DualMic.HAL_DFSDM_FilterRegConvCpltCallback h st0 = st0).
Proof.
  intros evs st Hall.
  assert (Hrun : DualMic.run evs st = st).
  { apply dual_run_unmapped. eapply Forall_impl; [exact Hall|].
    intros ev ->. done. }
  rewrite Hrun. repeat split; try done; by subst.
Qed.

Lemma unused_channel_is_dropped_witness :
  DualMic.run [Dfsdm.HalfCplt Dfsdm.hdfsdm1_filter0;
               Dfsdm.Cplt Dfsdm.hdfsdm1_filter0] DualMic.initial_state
  = DualMic.initial_state.
Proof.
  refine (proj1 (unused_channel_is_dropped
                   [Dfsdm.HalfCplt Dfsdm.hdfsdm1_filter0;
                    Dfsdm.Cplt Dfsdm.hdfsdm1_filter0] DualMic.initial_state _)).
  repeat constructor.
Defined.

(** C9: a capture buffer holds [BUF_LENGTH] samples, the samples per
    millisecond times the number of microphones times the number of frames:
    8000 / 1000 * 1 * 1 = 8 elements of [int16_t], for [Buf_Mic0],
    [Buf_Mic1] and [dfsdm_buf] alike, and the callbacks keep it so. *)
Theorem capture_buffer_length :
  Dfsdm.BUF_LENGTH
    = (Dfsdm.SAMPLE_FREQUENCY ÷ 1000) * Dfsdm.MICROPHEN_NUMBER * Dfsdm.FRAME_NUMBER /\
  Dfsdm.BUF_LENGTH = 8 /\
  Z.of_nat (length (DualMic.Buf_Mic0 DualMic.initial_state)) = Dfsdm.BUF_LENGTH /\
  Z.of_nat (length (DualMic.Buf_Mic1 DualMic.initial_state)) = Dfsdm.BUF_LENGTH /\
  Z.of_nat (length (SingleMic.dfsdm_buf SingleMic.initial_state)) = Dfsdm.BUF_LENGTH /\
  (forall evs,
      Z.of_nat (length (DualMic.Buf_Mic1 (DualMic.run evs DualMic.initial_state)))
        = Dfsdm.BUF_LENGTH /\
      Z.of_nat (length (SingleMic.dfsdm_buf (SingleMic.run evs SingleMic.initial_state)))
        = Dfsdm.BUF_LENGTH).
Proof.
  repeat split; try reflexivity.
  - revert evs. cut (forall evs st, DualMic.Buf_Mic1 (DualMic.run evs st) = DualMic.Buf_Mic1 st).
    { intros H evs. by rewrite H. }
    unfold DualMic.run. induction evs as [|ev evs IH]; intros st; simpl; [done|].
    rewrite IH. destruct ev as [h|h]; simpl;
      unfold DualMic.HAL_DFSDM_FilterRegConvHalfCpltCallback,
             DualMic.HAL_DFSDM_FilterRegConvCpltCallback;
      repeat case_decide; done.
  - by rewrite single_run.
Qed.

(** ** Constant inputs *)

Lemma half_filter_stays n : after_constant half_filter 1 n = Some half_filter.
Proof.
  induction n as [|n IH]; [done|].
  by rewrite after_constant_S, IH.
Qed.

(** With the coefficient of [init_lowpass_filter] as well, the constant
    input 1 after a reset leaves every output at 0. *)
Lemma init_filter_stays st n :
  after_constant (init_lowpass_filter st) 1 n = Some (init_lowpass_filter st).
Proof.
  induction n as [|n IH]; [done|].
  rewrite after_constant_S, IH. cbn [mbind option_bind].
  assert (E : filter_sample (init_lowpass_filter st) 1
              = Some (0, init_lowpass_filter st)) by (vm_compute; reflexivity).
  by rewrite E.
Qed.

(** A coefficient that passes the check of the sample values keeps every
    constant signal and moves the output toward the input. *)
Lemma check_keeps_constant a :
  constant_check_from a sample_values = true -> keeps_constant a.
Proof.
  intros H c Hc.
  rewrite (filter_sample_clamp_output (filter_state a c) c eq_refl eq_refl).
  cbn [alpha prev_output filter_state].
  destruct (clamp_output_value a sample_values sample_count H c c Hc Hc) as [-> _].
  cbn. by rewrite (exact_output_diag a sample_values sample_count H c Hc).
Qed.

Lemma check_moves_toward_input a :
  constant_check_from a sample_values = true -> moves_toward_input a.
Proof.
  intros H c Hc Hc2. split.
  - exists (exact_output a (c + 2) c). split.
    + rewrite (filter_sample_clamp_output (filter_state a c) (c + 2) eq_refl eq_refl).
      cbn [alpha prev_output filter_state].
      by destruct (clamp_output_value a sample_values sample_count H (c + 2) c Hc2 Hc)
        as [-> _].
    + by apply (exact_output_up a sample_values sample_count H).
  - exists (exact_output a c (c + 2)). split.
    + rewrite (filter_sample_clamp_output (filter_state a (c + 2)) c eq_refl eq_refl).
      cbn [alpha prev_output filter_state].
      by destruct (clamp_output_value a sample_values sample_count H c (c + 2) Hc Hc2)
        as [-> _].
    + by apply (exact_output_down a sample_values sample_count H).
Qed.

Lemma ALPHA_in_unit_interval : in_unit_interval ALPHA.
Proof. rewrite ALPHA_value. by repeat split. Qed.

(** C6, what fails: with [alpha = 0.5] (between 0 and 1), no previous
    output and the constant input 1, every output is 0, so the distance to
    the input is 1 for ever and does not tend to 0; and with the coefficient
    8912253 * 2^-27 (between 0 and 1) the constant input 98 after the output
    98 (which the input 1480 gives from no previous output) gives 97, so the
    distance grows from 0 to 1. The same happens in the middle of a
    constant stream: from the previous output 100 the constant input 98
    gives 99, 98, 97, the distances 1, 0, 1. That coefficient does not keep
    the constant signal 98. *)
Lemma constant_input_counterexample :
  (lt (of_int 0) (alpha half_filter) = true /\
   lt (alpha half_filter) one = true /\
   in_int16 1 /\
   ~ distance_tends_to_zero half_filter 1) /\
  (lt (of_int 0) (alpha drift_filter) = true /\
   lt (alpha drift_filter) one = true /\
   in_int16 98 /\
   filter_sample (set_prev_output 0 drift_filter) 1480 = Some (98, drift_filter) /\
   ~ distance_never_grows drift_filter 98) /\
  (in_unit_interval (alpha drift_filter) /\
   in_int16 100 /\
   distance_after (set_prev_output 100 drift_filter) 98 1 = Some 1 /\
   distance_after (set_prev_output 100 drift_filter) 98 2 = Some 0 /\
   distance_after (set_prev_output 100 drift_filter) 98 3 = Some 1 /\
   ~ distance_never_grows (set_prev_output 100 drift_filter) 98 /\
   ~ keeps_constant (alpha drift_filter)).
Proof.
  split; [|split].
  - split; [reflexivity|]. split; [reflexivity|].
    split; [unfold in_int16, INT16_MIN, INT16_MAX; lia|].
    intros [N H]. specialize (H N (Nat.le_refl N)).
    unfold distance_after in H. rewrite half_filter_stays in H. done.
  - split; [reflexivity|]. split; [reflexivity|].
    split; [unfold in_int16, INT16_MIN, INT16_MAX; lia|].
    split; [reflexivity|].
    intros H. specialize (H 0%nat 0 1 eq_refl eq_refl). lia.
  - assert (E2 : distance_after (set_prev_output 100 drift_filter) 98 2 = Some 0)
      by (vm_compute; reflexivity).
    assert (E3 : distance_after (set_prev_output 100 drift_filter) 98 3 = Some 1)
      by (vm_compute; reflexivity).
    split; [by repeat split|].
    split; [unfold in_int16, INT16_MIN, INT16_MAX; lia|].
    split; [vm_compute; reflexivity|]. split; [done|]. split; [done|]. split.
    + intros H. specialize (H 2%nat 0 1 E2 E3). lia.
    + intros H.
      assert (Hc : in_int16 98) by (unfold in_int16, INT16_MIN, INT16_MAX; lia).
      specialize (H 98 Hc). vm_compute in H. discriminate H.
Qed.

(** C6, amended. In a state with the [int16_t] bounds and an [int16_t]
    previous output, for a constant [int16_t] input [c]:
    - for every binary32 coefficient between 0 and 1 that keeps every
      constant signal (the sample [v] after the output [v] gives [v]),
      every output is defined and the distance of the output to [c] never
      grows from one sample to the next; when the coefficient moreover
      moves the output toward an input two away by one at least, the
      distance falls by one at least at each sample while it is 2 or more,
      and so is at most 1 from the 65534th sample on;
    - keeping every constant signal is needed: a coefficient between 0 and
      1 under which no distance ever grows keeps every constant signal;
    - every coefficient that passes the check of the 65536 sample values
      has the two properties and so all the conclusions, and the
      coefficient [ALPHA] of [init_lowpass_filter] passes it;
    - the distance does not tend to 0: for every binary32 coefficient
      between 0 and 1 below 1, so with [ALPHA], after a reset the constant
      input 1 leaves the output at 0 for ever, at the distance 1. *)
Theorem constant_input_distance
    (a : float32) (st : simple_lowpass_filter_t) (c : Z) :
  alpha st = a ->
  min_val st = -32768 ->
  max_val st = 32767 ->
  in_int16 (prev_output st) ->
  in_int16 c ->
  (in_unit_interval a -> keeps_constant a ->
   distance_never_grows st c /\
   (forall n : nat, exists d,
       distance_after st c n = Some d /\ d <= Z.abs (prev_output st - c)) /\
   (moves_toward_input a ->
    (forall n : nat, exists d,
        distance_after st c n = Some d /\
        d <= Z.max 1 (Z.abs (prev_output st - c) - Z.of_nat n)) /\
    (forall (n : nat) d,
        distance_after st c n = Some d -> 2 <= d ->
        exists d', distance_after st c (S n) = Some d' /\ d' < d) /\
    (forall n : nat, 65534 <= Z.of_nat n ->
        exists d, distance_after st c n = Some d /\ d <= 1))) /\
  (in_unit_interval a ->
   (forall st' c', int16_state a st' -> in_int16 c' -> distance_never_grows st' c') ->
   keeps_constant a) /\
  (constant_check_from a sample_values = true ->
   keeps_constant a /\ moves_toward_input a /\
   distance_never_grows st c /\
   (forall n : nat, exists d,
       distance_after st c n = Some d /\
       d <= Z.max 1 (Z.abs (prev_output st - c) - Z.of_nat n)) /\
   (forall (n : nat) d,
       distance_after st c n = Some d -> 2 <= d ->
       exists d', distance_after st c (S n) = Some d' /\ d' < d) /\
   (forall n : nat, 65534 <= Z.of_nat n ->
       exists d, distance_after st c n = Some d /\ d <= 1)) /\
  (constant_check_from ALPHA sample_values = true /\ in_unit_interval ALPHA) /\
  (in_unit_interval a -> lt a one = true ->
   forall n : nat, distance_after (filter_state a 0) 1 n = Some 1) /\
  (forall n : nat, distance_after (init_lowpass_filter st) 1 n = Some 1).
Proof.
  intros Ha Hmin Hmax Hp Hc.
  assert (Hst : int16_state a st)
      by exact (conj Ha (conj Hmin (conj Hmax Hp))).
  assert (Hlate : (forall n : nat, exists d,
                      distance_after st c n = Some d /\
                      d <= Z.max 1 (Z.abs (prev_output st - c) - Z.of_nat n)) ->
                  forall n : nat, 65534 <= Z.of_nat n ->
                    exists d, distance_after st c n = Some d /\ d <= 1).
  { intros Hn n Hge. destruct (Hn n) as (d & E & Hd). exists d. split; [done|].
    unfold in_int16, INT16_MIN, INT16_MAX in *. lia. }
  split; [|split; [|split; [|split; [|split]]]].
  - intros Hu Hk. split; [by apply (unit_never_grows a Hu Hk)|]. split.
    + intros n.
      destruct (unit_after_constant a Hu Hk c n st Hst Hc) as (st' & E & _ & Hd).
      exists (Z.abs (prev_output st' - c)). split; [|done].
      unfold distance_after. by rewrite E.
    + intros Hm.
      assert (Hn : forall n : nat, exists d,
                 distance_after st c n = Some d /\
                 d <= Z.max 1 (Z.abs (prev_output st - c) - Z.of_nat n)).
      { intros n.
        destruct (unit_after_constant_toward a Hu Hk Hm c n st Hst Hc)
          as (st' & E & _ & Hd).
        exists (Z.abs (prev_output st' - c)). split; [|done].
        unfold distance_after. by rewrite E. }
      split; [done|]. split; [|by apply Hlate].
      intros n d. by apply (unit_strictly_falls a Hu Hk Hm).
  - intros Hu Hall v Hv.
    destruct (unit_filter_sample a Hu (filter_state a v) v
                (int16_state_filter_state a v Hv) Hv) as [E Hin].
    cbn [prev_output filter_state] in E, Hin.
    specialize (Hall (filter_state a v) v (int16_state_filter_state a v Hv) Hv
                  0%nat 0 (Z.abs (exact_output a v v - v))).
    unfold distance_after in Hall.
    rewrite after_constant_S, after_constant_0 in Hall.
    cbn [mbind option_bind fmap option_fmap option_map] in Hall.
    rewrite E in Hall. cbn in Hall.
    rewrite Z.sub_diag in Hall.
    specialize (Hall eq_refl eq_refl).
    assert (exact_output a v v = v) as Ev by lia.
    rewrite E, Ev. done.
  - intros Hcheck.
    assert (Hn : forall n : nat, exists d,
               distance_after st c n = Some d /\
               d <= Z.max 1 (Z.abs (prev_output st - c) - Z.of_nat n)).
    { intros n.
      destruct (after_constant_between a sample_values sample_count
                  Hcheck c n st Hst Hc) as (st' & E & _ & Hd & _).
      exists (Z.abs (prev_output st' - c)). split; [|done].
      unfold distance_after. by rewrite E. }
    split; [by apply check_keeps_constant|].
    split; [by apply check_moves_toward_input|].
    split; [by apply (distance_never_grows_between a sample_values sample_count
                        Hcheck)|].
    split; [done|]. split; [|by apply Hlate].
    intros n d. by apply (distance_strictly_falls a sample_values
                            sample_count Hcheck).
  - split; [exact constant_check_ALPHA|exact ALPHA_in_unit_interval].
  - intros Hu Hlt n. unfold distance_after.
    by rewrite (unit_stays_after_reset a Hu n Hlt).
  - intros n. unfold distance_after. by rewrite init_filter_stays.
Qed.

Lemma constant_input_distance_witness :
  exists d',
    distance_after (init_lowpass_filter half_filter) 100 1 = Some d' /\ d' < 100.
Proof.
  assert (Hin : forall z, -32768 <= z <= 32767 -> in_int16 z) by (intros z H; exact H).
  destruct (constant_input_distance ALPHA (init_lowpass_filter half_filter) 100
              eq_refl eq_refl eq_refl (Hin 0 ltac:(lia)) (Hin 100 ltac:(lia)))
    as (_ & _ & Hcheck & (Hok & _) & _).
  destruct (Hcheck Hok) as (_ & _ & _ & _ & Hfall & _).
  exact (Hfall 0%nat 100 eq_refl ltac:(lia)).
Defined.

(** * Further properties *)

(** ** [filter_block]: bounds, composition and the state it leaves *)

Lemma process_samples_app xs : forall st ys,
  process_samples st (xs ++ ys) =
    '(o1, st1) ← process_samples st xs;
    '(o2, st2) ← process_samples st1 ys;
    Some (o1 ++ o2, st2).
Proof.
  induction xs as [|x xs IH]; intros st ys; cbn.
  - by destruct (process_samples st ys) as [[o2 st2]|].
  - destruct (filter_sample st x) as [[y st1]|]; cbn; [|done].
    rewrite IH. destruct (process_samples st1 xs) as [[o1 st2]|]; cbn; [|done].
    by destruct (process_samples st2 ys) as [[o2 st3]|].
Qed.

Lemma filter_block_whole st input output :
  length output = length input ->
  filter_block st input output (length input) = process_samples st input.
Proof.
  intros H. unfold filter_block.
  rewrite filter_block_from_process by (simpl; lia).
  cbn [plus]. rewrite take_0, drop_0, firstn_all.
  rewrite drop_ge by lia.
  destruct (process_samples st input) as [[ys st']|]; cbn; [|done].
  by rewrite app_nil_r.
Qed.

(** A loop that ends has stayed inside both arrays. *)
Lemma filter_block_from_bounds n : forall i st input output r,
  filter_block_from n i st input output = Some r ->
  n = O \/ ((i + n <= length input)%nat /\ (i + n <= length output)%nat).
Proof.
  induction n as [|n IH]; intros i st input output r H; [by left|right].
  cbn [filter_block_from] in H.
  destruct (input !! i) as [x|] eqn:Ex; cbn in H; [|done].
  apply lookup_lt_Some in Ex.
  destruct (filter_sample st x) as [[y st1]|]; cbn in H; [|done].
  destruct (decide (i < length output)%nat) as [Hi|]; [|done].
  apply IH in H as [->|[H1 H2]]; [lia|].
  rewrite length_insert in H2. lia.
Qed.

Lemma process_samples_state xs : forall st ys st',
  process_samples st xs = Some (ys, st') ->
  alpha st' = alpha st /\ min_val st' = min_val st /\ max_val st' = max_val st /\
  prev_output st' = default (prev_output st) (last ys) /\
  Forall in_int16 ys.
Proof.
  induction xs as [|x xs IH]; intros st ys st' H; cbn in H.
  - by injection H as <- <-.
  - destruct (filter_sample st x) as [[y st1]|] eqn:E1; cbn in H; [|done].
    destruct (process_samples st1 xs) as [[ys1 st2]|] eqn:E2; cbn in H; [|done].
    injection H as <- <-.
    apply filter_sample_Some in E1 as [Hy ->].
    apply IH in E2 as (Ha & Hlo & Hhi & Hp & Hall).
    destruct (set_prev_output_fields y st) as (Ep & Ea & Elo & Ehi).
    rewrite Ha, Hlo, Hhi, Hp, Ep, Ea, Elo, Ehi.
    split; [done|]. split; [done|]. split; [done|]. split.
    + rewrite last_cons. by destruct (last ys1).
    + constructor; [|done]. by apply to_int16_in_range in Hy.
Qed.

(** What a defined call of [filter_block] has computed. *)
Lemma filter_block_Some st input output size output' st' :
  filter_block st input output size = Some (output', st') ->
  (size <= length input)%nat /\ (size <= length output)%nat /\
  exists ys, process_samples st (take size input) = Some (ys, st') /\
             length ys = size /\ output' = ys ++ drop size output.
Proof.
  intros H.
  assert (Hb : (size <= length input)%nat /\ (size <= length output)%nat).
  { apply filter_block_from_bounds in H as [->|H]; simpl in *; lia. }
  destruct Hb as [Hin Hout]. split; [done|]. split; [done|].
  unfold filter_block in H.
  rewrite filter_block_from_process in H by (simpl; lia).
  cbn [plus] in H. rewrite take_0, !drop_0 in H.
  destruct (process_samples st (take size input)) as [[ys st1]|] eqn:E;
    cbn in H; [|done].
  injection H as <- <-. exists ys. split; [done|]. split; [|done].
  apply process_samples_length in E. rewrite E, length_take. lia.
Qed.

(** X1: [filter_block] has a result exactly when [size] is at most the
    length of each of the two arrays and each of the [size] calls of
    [filter_sample] has one: with fewer than [size] cells in [input] or in
    [output] the loop reads or writes past the end of the array, which C
    leaves undefined. *)
Theorem filter_block_defined_iff
    (st : simple_lowpass_filter_t) (input output : list Z) (size : nat) :
  is_Some (filter_block st input output size) <->
  (size <= length input)%nat /\ (size <= length output)%nat /\
  is_Some (process_samples st (take size input)).
Proof.
  split.
  - intros [[output' st'] H].
    apply filter_block_Some in H as (Hin & Hout & ys & E & _).
    split; [done|]. split; [done|]. by rewrite E.
  - intros (Hin & Hout & [[ys st'] E]).
    unfold filter_block. rewrite filter_block_from_process by (simpl; lia).
    cbn [plus]. rewrite !drop_0, E. done.
Qed.

(** X2: a stream filtered block after block, the filter state going from
    one call of [filter_block] to the next, gives what one call over the
    whole stream gives: the same outputs, the same final state, and no
    result in the same cases. *)
Theorem filter_block_by_blocks
    (st : simple_lowpass_filter_t) (input1 input2 output1 output2 : list Z) :
  length output1 = length input1 ->
  length output2 = length input2 ->
  filter_block st (input1 ++ input2) (output1 ++ output2)
               (length input1 + length input2) =
    '(written1, st1) ← filter_block st input1 output1 (length input1);
    '(written2, st2) ← filter_block st1 input2 output2 (length input2);
    Some (written1 ++ written2, st2).
Proof.
  intros H1 H2.
  rewrite <- length_app.
  rewrite !filter_block_whole by (rewrite ?length_app; lia).
  rewrite process_samples_app.
  destruct (process_samples st input1) as [[written1 st1]|]; cbn; [|done].
  by rewrite filter_block_whole.
Qed.

Lemma filter_block_by_blocks_witness :
  filter_block half_filter ([32767; 0] ++ [0; 5]) ([7; 7] ++ [7; 7]) (2 + 2) =
    '(written1, st1) ← filter_block half_filter [32767; 0] [7; 7] 2;
    '(written2, st2) ← filter_block st1 [0; 5] [7; 7] 2;
    Some (written1 ++ written2, st2).
Proof.
  exact (filter_block_by_blocks half_filter [32767; 0] [0; 5] [7; 7] [7; 7]
           eq_refl eq_refl).
Defined.

(** X3: a call of [filter_block] that returns leaves the coefficient and
    the two bounds of the filter as they were, and [prev_output] is the last
    value it wrote ([prev_output] is unchanged when [size] is 0); the
    output array keeps its length and its cells from [size] on, and the
    [size] values written are [int16_t] values. *)
Theorem filter_block_final_state
    (st : simple_lowpass_filter_t) (input output : list Z) (size : nat)
    (output' : list Z) (st' : simple_lowpass_filter_t) :
  filter_block st input output size = Some (output', st') ->
  alpha st' = alpha st /\ min_val st' = min_val st /\ max_val st' = max_val st /\
  prev_output st' = default (prev_output st) (last (take size output')) /\
  length output' = length output /\
  drop size output' = drop size output /\
  Forall in_int16 (take size output').
Proof.
  intros H. apply filter_block_Some in H as (Hin & Hout & ys & E & Hlen & ->).
  apply process_samples_state in E as (Ha & Hlo & Hhi & Hp & Hall).
  rewrite take_app_length' by done. rewrite drop_app_length' by done.
  repeat (split; [done|]). split; [|done].
  rewrite length_app, length_drop. lia.
Qed.

Lemma filter_block_final_state_witness :
  alpha (set_prev_output 8191 half_filter) = alpha half_filter /\
  prev_output (set_prev_output 8191 half_filter)
    = default (prev_output half_filter) (last (take 2 [16383; 8191; 7])) /\
  drop 2 [16383; 8191; 7] = drop 2 [7; 7; 7].
Proof.
  assert (H : filter_block half_filter [32767; 0] [7; 7; 7] 2
              = Some ([16383; 8191; 7], set_prev_output 8191 half_filter))
    by (vm_compute; reflexivity).
  destruct (filter_block_final_state _ _ _ _ _ _ H)
    as (Ha & _ & _ & Hp & _ & Hd & _).
  exact (conj Ha (conj Hp Hd)).
Defined.

(** ** [int16_t] samples never leave the defined behaviour *)

Lemma filter_sample_int16 a st x :
  moderate a -> int16_state a st -> in_int16 x ->
  exists y, filter_sample st x = Some (y, set_prev_output y st) /\
            in_int16 y /\ int16_state a (set_prev_output y st).
Proof.
  intros Hm (Ha & Hmin & Hmax & Hp) Hx. rewrite <- Ha in Hm.
  destruct (filter_clamp_to_int16 st (filter_output_float st x) Hmin Hmax
              (filter_output_float_valid st x (proj1 Hm))
              (filter_output_float_not_nan st x Hm Hx Hp)) as (y & Hy & Hin & _).
  exists y. split; [by unfold filter_sample; rewrite Hy|]. split; [done|].
  destruct (set_prev_output_fields y st) as (Ep & Ea & Elo & Ehi).
  unfold int16_state. by rewrite Ep, Ea, Elo, Ehi.
Qed.

Lemma process_samples_int16 a xs : forall st,
  moderate a -> int16_state a st -> Forall in_int16 xs ->
  exists ys st', process_samples st xs = Some (ys, st') /\
                 length ys = length xs /\
                 Forall in_int16 ys /\ int16_state a st'.
Proof.
  induction xs as [|x xs IH]; intros st Hm Hst Hxs.
  - by exists [], st.
  - apply Forall_cons in Hxs as [Hx Hxs].
    destruct (filter_sample_int16 a st x Hm Hst Hx) as (y & Ey & Hy & Hst1).
    destruct (IH _ Hm Hst1 Hxs) as (ys & st' & E & Hlen & Hys & Hst').
    exists (y :: ys), st'. cbn. rewrite Ey. cbn. rewrite E. cbn.
    split; [done|]. split; [by rewrite Hlen|]. split; [by constructor|done].
Qed.

(** From [process_samples] on the first [size] samples to [filter_block]. *)
Lemma filter_block_of_process st input output size ys st' :
  (size <= length input)%nat -> (size <= length output)%nat ->
  process_samples st (take size input) = Some (ys, st') ->
  filter_block st input output size = Some (ys ++ drop size output, st').
Proof.
  intros Hin Hout E. unfold filter_block.
  rewrite filter_block_from_process by (simpl; lia).
  cbn [plus]. rewrite !drop_0, E. done.
Qed.

(** X4: in a filter state whose bounds are those of [int16_t], whose
    previous output is an [int16_t] value and whose coefficient is a
    binary32 number of magnitude [2^100] at most (the state
    [init_lowpass_filter] leaves is one), [filter_block] over [size]
    [int16_t] samples of arrays that hold [size] cells always has a result:
    no conversion is undefined. It writes [size] [int16_t] values and
    leaves a state of the same kind, so that the next block is defined as
    well. *)
Theorem filter_block_int16_defined
    (a : float32) (st : simple_lowpass_filter_t)
    (input output : list Z) (size : nat) :
  moderate a ->
  int16_state a st ->
  (size <= length input)%nat ->
  (size <= length output)%nat ->
  Forall in_int16 (take size input) ->
  exists ys st',
    filter_block st input output size = Some (ys ++ drop size output, st') /\
    length ys = size /\ Forall in_int16 ys /\ int16_state a st'.
Proof.
  intros Hm Hst Hin Hout Hxs.
  destruct (process_samples_int16 a _ st Hm Hst Hxs)
    as (ys & st' & E & Hlen & Hys & Hst').
  exists ys, st'. split; [by apply filter_block_of_process|].
  split; [|done]. rewrite Hlen, length_take. lia.
Qed.

Lemma ALPHA_moderate : moderate ALPHA.
Proof.
  rewrite ALPHA_value. split; [reflexivity|]. split; [reflexivity|].
  by vm_compute.
Qed.

Lemma init_int16_state st : int16_state ALPHA (init_lowpass_filter st).
Proof.
  split; [done|]. split; [done|]. split; [done|]. by vm_compute.
Qed.

Lemma filter_block_int16_defined_witness :
  exists ys st',
    filter_block (init_lowpass_filter half_filter) [32767; -32768; 5] [0; 0; 0; 0] 3
      = Some (ys ++ drop 3 [0; 0; 0; 0], st') /\
    length ys = 3%nat /\ Forall in_int16 ys /\ int16_state ALPHA st'.
Proof.
  apply (filter_block_int16_defined ALPHA (init_lowpass_filter half_filter)
           [32767; -32768; 5] [0; 0; 0; 0] 3
           ALPHA_moderate (init_int16_state half_filter)).
  - simpl; lia.
  - simpl; lia.
  - repeat constructor; by vm_compute.
Defined.

(** ** Coefficients between 0 and 1: no overshoot, and larger inputs
    never give smaller outputs *)

Lemma ALPHA_keeps_constant : keeps_constant ALPHA.
Proof. exact (check_keeps_constant ALPHA constant_check_ALPHA). Qed.

Lemma process_samples_range a lo hi xs : forall st,
  in_unit_interval a -> keeps_constant a ->
  int16_state a st ->
  lo <= prev_output st <= hi ->
  Forall in_int16 xs ->
  Forall (fun x => lo <= x <= hi) xs ->
  exists ys st', process_samples st xs = Some (ys, st') /\
                 length ys = length xs /\
                 Forall (fun y => lo <= y <= hi) ys /\
                 lo <= prev_output st' <= hi.
Proof.
  induction xs as [|x xs IH]; intros st Hu Hk Hst Hp Hxs Hr.
  - by exists [], st.
  - apply Forall_cons in Hxs as [Hx Hxs]. apply Forall_cons in Hr as [Hxr Hr].
    destruct (unit_sample_between a Hu Hk st x Hst Hx) as (y & Ey & Hst1 & Hb).
    assert (Hy : lo <= y <= hi) by lia.
    destruct (IH (set_prev_output y st) Hu Hk Hst1)
      as (ys & st' & E & Hlen & Hys & Hp');
      [by destruct (set_prev_output_fields y st) as (-> & _)|done|done|].
    exists (y :: ys), st'. cbn. rewrite Ey. cbn. rewrite E. cbn.
    split; [done|]. split; [by rewrite Hlen|]. split; [by constructor|done].
Qed.

(** X5: the filter does not overshoot. With a binary32 coefficient between
    0 and 1 that keeps every constant signal (the coefficient [ALPHA] of
    [init_lowpass_filter] is one), the [int16_t] bounds and an [int16_t]
    previous output, each output of [filter_sample] lies between the
    previous output and the input sample; hence when the previous output
    and the [size] samples given to [filter_block] all lie in an interval
    [lo, hi], so do the [size] outputs and the previous output that is
    left. *)
Theorem filter_block_no_overshoot
    (a : float32) (st : simple_lowpass_filter_t) (input output : list Z)
    (size : nat) (lo hi : Z) :
  in_unit_interval a ->
  keeps_constant a ->
  int16_state a st ->
  (size <= length input)%nat ->
  (size <= length output)%nat ->
  Forall in_int16 (take size input) ->
  lo <= prev_output st <= hi ->
  Forall (fun x => lo <= x <= hi) (take size input) ->
  (forall x, in_int16 x ->
     exists y, filter_sample st x = Some (y, set_prev_output y st) /\
               Z.min (prev_output st) x <= y <= Z.max (prev_output st) x) /\
  exists ys st',
    filter_block st input output size = Some (ys ++ drop size output, st') /\
    length ys = size /\
    Forall (fun y => lo <= y <= hi) ys /\
    lo <= prev_output st' <= hi.
Proof.
  intros Hu Hk Hst Hin Hout Hxs Hp Hr. split.
  - intros x Hx.
    destruct (unit_sample_between a Hu Hk st x Hst Hx) as (y & Ey & _ & Hb).
    by exists y.
  - destruct (process_samples_range a lo hi _ st Hu Hk Hst Hp Hxs Hr)
      as (ys & st' & E & Hlen & Hys & Hp').
    exists ys, st'. split; [by apply filter_block_of_process|].
    split; [|done]. rewrite Hlen, length_take. lia.
Qed.

Lemma filter_block_no_overshoot_witness :
  exists ys st',
    filter_block (init_lowpass_filter half_filter) [100; -20; 60] [0; 0; 0] 3
      = Some (ys ++ drop 3 [0; 0; 0], st') /\
    length ys = 3%nat /\
    Forall (fun y => -20 <= y <= 100) ys /\
    -20 <= prev_output st' <= 100.
Proof.
  refine (proj2 (filter_block_no_overshoot ALPHA (init_lowpass_filter half_filter)
           [100; -20; 60] [0; 0; 0] 3 (-20) 100
           ALPHA_in_unit_interval ALPHA_keeps_constant
           (init_int16_state half_filter) _ _ _ _ _)).
  - simpl; lia.
  - simpl; lia.
  - repeat constructor; by vm_compute.
  - simpl; lia.
  - repeat constructor; simpl; lia.
Defined.

Lemma process_samples_monotone a xs1 : forall xs2 st1 st2,
  in_unit_interval a ->
  int16_state a st1 ->
  int16_state a st2 ->
  prev_output st1 <= prev_output st2 ->
  Forall2 (fun x1 x2 => in_int16 x1 /\ in_int16 x2 /\ x1 <= x2) xs1 xs2 ->
  exists ys1 st1' ys2 st2',
    process_samples st1 xs1 = Some (ys1, st1') /\
    process_samples st2 xs2 = Some (ys2, st2') /\
    Forall2 Z.le ys1 ys2 /\
    prev_output st1' <= prev_output st2'.
Proof.
  induction xs1 as [|x1 xs1 IH]; intros xs2 st1 st2 Hu Hst1 Hst2 Hp H.
  - apply Forall2_nil_inv_l in H as ->.
    exists [], st1, [], st2. by repeat split.
  - apply Forall2_cons_inv_l in H as (x2 & xs2' & (Hx1 & Hx2 & Hle) & H & ->).
    assert (Hy : exact_output a x1 (prev_output st1)
                 <= exact_output a x2 (prev_output st2)).
    { apply (unit_output_mono a Hu); try assumption.
      - apply Hst1.
      - apply Hst2. }
    destruct (unit_filter_sample a Hu st1 x1 Hst1 Hx1) as [E1 Hin1].
    destruct (unit_filter_sample a Hu st2 x2 Hst2 Hx2) as [E2 Hin2].
    revert Hy E1 E2 Hin1 Hin2.
    generalize (exact_output a x1 (prev_output st1)).
    generalize (exact_output a x2 (prev_output st2)).
    intros y2 y1 Hy E1 E2 Hin1 Hin2.
    destruct (IH xs2' (set_prev_output y1 st1) (set_prev_output y2 st2) Hu
                (int16_state_set a st1 y1 Hst1 Hin1)
                (int16_state_set a st2 y2 Hst2 Hin2))
      as (ys1 & st1' & ys2 & st2' & F1 & F2 & Hys & Hp'); [|assumption|].
    { destruct (set_prev_output_fields y1 st1) as (-> & _).
      by destruct (set_prev_output_fields y2 st2) as (-> & _). }
    exists (y1 :: ys1), st1', (y2 :: ys2), st2'. cbn.
    rewrite E1, E2. cbn. rewrite F1, F2. cbn.
    split; [done|]. split; [done|]. split; [by constructor|done].
Qed.

(** X6: the filter keeps the order of its inputs, whatever the binary32
    coefficient between 0 and 1. Of two runs of [filter_block] from states
    with the same coefficient and the [int16_t] bounds, the second with a
    previous output and with samples that are at least those of the first,
    each output of the second is at least the output of the first at the
    same index. *)
Theorem filter_block_monotone
    (a : float32) (st1 st2 : simple_lowpass_filter_t)
    (input1 input2 output1 output2 : list Z) :
  in_unit_interval a ->
  int16_state a st1 ->
  int16_state a st2 ->
  prev_output st1 <= prev_output st2 ->
  Forall2 (fun x1 x2 => in_int16 x1 /\ in_int16 x2 /\ x1 <= x2) input1 input2 ->
  length output1 = length input1 ->
  length output2 = length input2 ->
  exists ys1 st1' ys2 st2',
    filter_block st1 input1 output1 (length input1) = Some (ys1, st1') /\
    filter_block st2 input2 output2 (length input2) = Some (ys2, st2') /\
    Forall2 Z.le ys1 ys2 /\
    prev_output st1' <= prev_output st2'.
Proof.
  intros Hu Hst1 Hst2 Hp H Hl1 Hl2.
  rewrite !filter_block_whole by done.
  by apply (process_samples_monotone a).
Qed.

Lemma filter_block_monotone_witness :
  exists ys1 st1' ys2 st2',
    filter_block (init_lowpass_filter half_filter) [100; -20] [0; 0] 2
      = Some (ys1, st1') /\
    filter_block (init_lowpass_filter half_filter) [101; 3000] [0; 0] 2
      = Some (ys2, st2') /\
    Forall2 Z.le ys1 ys2 /\
    prev_output st1' <= prev_output st2'.
Proof.
  apply (filter_block_monotone ALPHA
           (init_lowpass_filter half_filter) (init_lowpass_filter half_filter)
           [100; -20] [101; 3000] [0; 0] [0; 0]
           ALPHA_in_unit_interval
           (init_int16_state half_filter) (init_int16_state half_filter)).
  - simpl; lia.
  - repeat constructor; by vm_compute.
  - reflexivity.
  - reflexivity.
Defined.

(** ** [filter_block] on overlapping arrays *)

Section SharedMemory.

(** A write outside a window of the memory leaves the window as it was. *)
Lemma take_drop_insert_outside (memory : list Z) (first count index : nat) (y : Z) :
  (index < first \/ first + count <= index)%nat ->
  take count (drop first (<[index:=y]> memory)) = take count (drop first memory).
Proof.
  intros H. apply list_eq. intros k.
  destruct (decide (k < count)%nat) as [Hk|Hk].
  - rewrite !lookup_take_lt, !lookup_drop by done.
    apply list_lookup_insert_ne. lia.
  - by rewrite !lookup_take_ge by lia.
Qed.

Lemma shared_filter_block_from n : forall i st memory input output,
  (input + i + n <= length memory)%nat ->
  (output + i + n <= length memory)%nat ->
  (output <= input \/ input + i + n <= output)%nat ->
  Shared.filter_block_from n i st memory input output =
    (fun r => (take (output + i) memory ++ r.1 ++ drop (output + i + n) memory, r.2))
      <$> process_samples st (take n (drop (input + i) memory)).
Proof.
  induction n as [|n IH]; intros i st memory input output Hin Hout Hsep.
  - simpl. by rewrite Nat.add_0_r, take_drop.
  - destruct (lookup_lt_is_Some_2 memory (input + i)) as [x Hx]; [lia|].
    cbn [Shared.filter_block_from]. rewrite Hx. cbn [mbind option_bind].
    rewrite (drop_S _ _ _ Hx). cbn [take process_samples].
    destruct (filter_sample st x) as [[y st1]|]; [|done].
    cbn [mbind option_bind].
    rewrite decide_True by lia.
    rewrite IH by (rewrite ?length_insert; lia).
    replace (input + S i)%nat with (S (input + i)) by lia.
    rewrite take_drop_insert_outside by lia.
    destruct (process_samples st1 (take n (drop (S (input + i)) memory)))
      as [[ys st2]|]; [|done].
    cbn. do 2 f_equal.
    replace (output + S i)%nat with (S (output + i)) by lia.
    rewrite (take_S_r _ _ y) by (apply list_lookup_insert_eq; lia).
    rewrite take_insert_ge by lia.
    rewrite drop_insert_lt by lia.
    rewrite <- app_assoc. cbn. by rewrite Nat.add_succ_r.
Qed.

End SharedMemory.

(** X7: [filter_block] may run in place. When [input] and [output] point
    into one array and the cells written do not lie ahead of cells still to
    be read (the two pointers are equal, or [output] comes before [input],
    or the [size] cells of [output] start after those of [input]), the call
    computes what [size] successive calls of [filter_sample] compute from
    the samples the array held at the start, writes them over the cells
    from [output] on, and changes no other cell. *)
Theorem filter_block_in_place
    (st : simple_lowpass_filter_t) (memory : list Z) (input output size : nat) :
  (input + size <= length memory)%nat ->
  (output + size <= length memory)%nat ->
  (output <= input \/ input + size <= output)%nat ->
  Shared.filter_block st memory input output size =
    (fun r => (take output memory ++ r.1 ++ drop (output + size) memory, r.2))
      <$> process_samples st (take size (drop input memory)).
Proof.
  intros Hin Hout Hsep. unfold Shared.filter_block.
  rewrite shared_filter_block_from by lia.
  by rewrite !Nat.add_0_r.
Qed.

Lemma filter_block_in_place_witness :
  Shared.filter_block half_filter [9; 32767; 0; 0] 1 1 3 =
    (fun r => (take 1 [9; 32767; 0; 0] ++ r.1 ++ drop (1 + 3) [9; 32767; 0; 0], r.2))
      <$> process_samples half_filter (take 3 (drop 1 [9; 32767; 0; 0])).
Proof.
  apply (filter_block_in_place half_filter [9; 32767; 0; 0] 1 1 3); simpl; lia.
Defined.

(** ** The ends of the coefficient range, and silence *)

Section Coefficient.

(** Multiplying by [1.0f] is exact. *)
Lemma mul_one_l f : valid f = true -> is_finite f = true -> mul one f = f.
Proof.
  intros Hv Hf. destruct f as [s|s| |s m e]; try done.
  pose proof (valid_finite_digits _ _ _ Hv) as (He & Hd & Hn).
  pose proof (proj1 (valid_finite _ _ _) Hv) as [Hc Hle].
  unfold mul, one. cbn [SFmul xorb].
  assert (Hdig : Zdigits2 (Zpos (8388608 * m)) = Zdigits2 (Zpos m) + 23).
  { rewrite Pos2Z.inj_mul, Z.mul_comm.
    change (Zpos 8388608) with (2 ^ 23). apply Zdigits2_mul_pow2; lia. }
  assert (Hpre : -23 + e <= fexp prec emax (Zdigits2 (Zpos (8388608 * m)) + (-23 + e))).
  { rewrite Hdig.
    replace (Zdigits2 (Zpos m) + 23 + (-23 + e)) with (Zdigits2 (Zpos m) + e) by lia.
    rewrite Hc. lia. }
  destruct (binary_round_aux_spec s (8388608 * m) (-23 + e) Hpre)
    as (m2 & e2 & Hm2 & Hval & He2 & Hc2 & ->).
  rewrite Hdig in Hval, He2.
  replace (Zdigits2 (Zpos m) + 23 + (-23 + e)) with (Zdigits2 (Zpos m) + e)
    in Hval, He2 by lia.
  rewrite Hc in Hval, He2.
  replace (e - (-23 + e)) with 23 in Hval, He2 by lia.
  assert (Hm : Zpos (8388608 * m) = Zpos m * 2 ^ 23) by (rewrite Pos2Z.inj_mul; lia).
  rewrite Hm in Hval.
  rewrite rne_shift_exact in Hval by (try lia; apply Z.mod_mul; lia).
  rewrite Z.div_mul in Hval by lia.
  replace (-23 + e + 23) with e in Hval, He2 by lia.
  assert (Ee : e2 = e).
  { destruct (Z.eq_dec e2 e) as [|Hne]; [done|exfalso].
    assert (E1 : e2 = e + 1) by lia. subst e2.
    replace (e + 1 - e) with 1 in Hval by lia.
    change (2 ^ 1) with 2 in Hval.
    assert (Hm2p : 0 < m2) by lia.
    assert (Hdm : Zdigits2 (Zpos m) = Zdigits2 m2 + 1).
    { rewrite <- Hval. change 2 with (2 ^ 1).
      rewrite Zdigits2_mul_pow2 by lia. done. }
    rewrite fexp_eq in Hc, Hc2. rewrite Hdm in Hc. lia. }
  subst e2. rewrite Z.sub_diag, Z.pow_0_r, Z.mul_1_r in Hval. subst m2.
  by rewrite (proj2 (Z.leb_le e (emax - prec))) by (unfold emax, prec; lia).
Qed.

(** Adding a zero to a finite float changes the value of neither. *)
Lemma add_zero_r f s :
  is_finite f = true ->
  is_finite (add f (S754_zero s)) = true /\
  scaled (add f (S754_zero s)) = scaled f /\
  (valid f = true -> valid (add f (S754_zero s)) = true).
Proof.
  intros Hf. destruct f as [s'|s'| |s' m e]; try done.
  unfold add. cbn [SFadd]. by destruct s', s.
Qed.

Lemma add_zero_l f s :
  is_finite f = true ->
  is_finite (add (S754_zero s) f) = true /\
  scaled (add (S754_zero s) f) = scaled f /\
  (valid f = true -> valid (add (S754_zero s) f) = true).
Proof.
  intros Hf. destruct f as [s'|s'| |s' m e]; try done.
  unfold add. cbn [SFadd]. by destruct s, s'.
Qed.

(** A zero times a finite float is a zero. *)
Lemma mul_zero_l f s :
  is_finite f = true -> exists s', mul (S754_zero s) f = S754_zero s'.
Proof. intros Hf. destruct f as [s'|s'| |s' m e]; try done; by eexists. Qed.

Lemma mul_zero_r f s :
  is_finite f = true -> exists s', mul f (S754_zero s) = S754_zero s'.
Proof. intros Hf. destruct f as [s'|s'| |s' m e]; try done; by eexists. Qed.

(** The output when [output_float] is finite and has the value of the
    [int16_t] number [y]. *)
Lemma filter_sample_of_value st x y :
  min_val st = -32768 -> max_val st = 32767 ->
  valid (filter_output_float st x) = true ->
  is_finite (filter_output_float st x) = true ->
  scaled (filter_output_float st x) = y * 2 ^ 149 ->
  in_int16 y ->
  filter_sample st x = Some (y, set_prev_output y st).
Proof.
  intros Hmin Hmax Hv Hf Hs Hy.
  assert (Hn : is_nan (filter_output_float st x) = false)
    by (by destruct (filter_output_float st x)).
  destruct (filter_clamp_to_int16 st _ Hmin Hmax Hv Hn) as (z & Hz & _ & Hval).
  specialize (Hval Hf). rewrite Hs in Hval.
  assert (z = y) as ->.
  { unfold in_int16, INT16_MIN, INT16_MAX in Hy.
    assert (0 < 2 ^ 149) by (by apply Z.pow_pos_nonneg).
    rewrite Z.min_l, Z.max_l in Hval by nia.
    rewrite Hval. apply Z.quot_mul. lia. }
  unfold filter_sample. by rewrite Hz.
Qed.

End Coefficient.

(** X8: the two ends of the coefficient range, in binary32 arithmetic and
    with the [int16_t] bounds. With [alpha = 1.0f] the filter passes every
    [int16_t] sample through unchanged, whatever the previous output; with
    [alpha = 0.0f] it returns the previous output for every sample and its
    state does not change. *)
Theorem filter_sample_coefficient_ends
    (st : simple_lowpass_filter_t) (x : Z) :
  min_val st = -32768 ->
  max_val st = 32767 ->
  in_int16 x ->
  in_int16 (prev_output st) ->
  (alpha st = one -> filter_sample st x = Some (x, set_prev_output x st)) /\
  (alpha st = S754_zero false -> filter_sample st x = Some (prev_output st, st)).
Proof.
  intros Hmin Hmax Hx Hp.
  destruct (of_int_int16 x Hx) as (Fx & Vx & Sx).
  destruct (of_int_int16 _ Hp) as (Fp & Vp & Sp).
  split; intros Ha.
  - assert (H : valid (filter_output_float st x) = true /\
                is_finite (filter_output_float st x) = true /\
                scaled (filter_output_float st x) = x * 2 ^ 149).
    { unfold filter_output_float. rewrite Ha.
      rewrite (mul_one_l _ Vx Fx).
      change (sub one one) with (S754_zero false).
      destruct (mul_zero_l (of_int (prev_output st)) false Fp) as [s ->].
      destruct (add_zero_r (of_int x) s Fx) as (F & S & V).
      rewrite S. auto. }
    destruct H as (V & F & S).
    by apply filter_sample_of_value.
  - assert (H : valid (filter_output_float st x) = true /\
                is_finite (filter_output_float st x) = true /\
                scaled (filter_output_float st x) = prev_output st * 2 ^ 149).
    { unfold filter_output_float. rewrite Ha.
      change (sub one (S754_zero false)) with one.
      rewrite (mul_one_l _ Vp Fp).
      destruct (mul_zero_l (of_int x) false Fx) as [s ->].
      destruct (add_zero_l (of_int (prev_output st)) s Fp) as (F & S & V).
      rewrite S. auto. }
    destruct H as (V & F & S).
    rewrite (filter_sample_of_value st x (prev_output st)) by done.
    by destruct st.
Qed.

Lemma filter_sample_coefficient_ends_witness :
  filter_sample
    {| prev_output := 7; alpha := one; min_val := -32768; max_val := 32767 |}
    (-1234)
  = Some (-1234,
          set_prev_output (-1234)
            {| prev_output := 7; alpha := one;
               min_val := -32768; max_val := 32767 |}).
Proof.
  refine (proj1 (filter_sample_coefficient_ends
           {| prev_output := 7; alpha := one; min_val := -32768; max_val := 32767 |}
           (-1234) eq_refl eq_refl _ _) eq_refl); by vm_compute.
Defined.

Lemma filter_sample_silence st :
  moderate (alpha st) ->
  min_val st = -32768 -> max_val st = 32767 ->
  prev_output st = 0 ->
  filter_sample st 0 = Some (0, st).
Proof.
  intros (Va & Fa & Ba) Hmin Hmax Hp.
  assert (H : valid (filter_output_float st 0) = true /\
              is_finite (filter_output_float st 0) = true /\
              scaled (filter_output_float st 0) = 0 * 2 ^ 149).
  { unfold filter_output_float. rewrite Hp.
    change (of_int 0) with (S754_zero false).
    destruct (mul_zero_r (alpha st) false Fa) as [s1 ->].
    destruct (sub_scaled one (alpha st) eq_refl Va eq_refl Fa) as (Fs & _).
    { change (scaled one) with (2 ^ 149).
      assert (2 ^ 249 < 2 ^ 275) by (by apply Z.pow_lt_mono_r).
      assert (2 ^ 149 < 2 ^ 275) by (by apply Z.pow_lt_mono_r).
      change (2 ^ 276) with (2 * 2 ^ 275). lia. }
    destruct (mul_zero_r (sub one (alpha st)) false Fs) as [s2 ->].
    by destruct s1, s2. }
  destruct H as (V & F & S).
  rewrite (filter_sample_of_value st 0 0) by (try done; by vm_compute).
  rewrite <- Hp. by destruct st.
Qed.

(** X9: silence stays silence. In a state whose previous output is 0,
    with the [int16_t] bounds and any coefficient that is a binary32 number
    of magnitude [2^100] at most, [filter_block] over [size] samples equal
    to 0 writes [size] zeros and leaves the state as it was. *)
Theorem filter_block_silence
    (st : simple_lowpass_filter_t) (output : list Z) (size : nat) :
  moderate (alpha st) ->
  min_val st = -32768 ->
  max_val st = 32767 ->
  prev_output st = 0 ->
  (size <= length output)%nat ->
  filter_block st (replicate size 0) output size =
    Some (replicate size 0 ++ drop size output, st).
Proof.
  intros Ha Hmin Hmax Hp Hout.
  apply filter_block_of_process; [by rewrite length_replicate|done|].
  rewrite take_ge by (by rewrite length_replicate).
  clear Hout. induction size as [|n IH]; [done|].
  cbn. rewrite filter_sample_silence by done. cbn. by rewrite IH.
Qed.

Lemma filter_block_silence_witness :
  filter_block (init_lowpass_filter half_filter) (replicate 3 0) [5; 5; 5; 5] 3 =
    Some (replicate 3 0 ++ drop 3 [5; 5; 5; 5], (init_lowpass_filter half_filter)).
Proof.
  apply (filter_block_silence (init_lowpass_filter half_filter) [5; 5; 5; 5] 3).
  - exact ALPHA_moderate.
  - reflexivity.
  - reflexivity.
  - reflexivity.
  - simpl; lia.
Defined.

(** ** The DFSDM callbacks on any sequence of notifications *)

Section DualMicRuns.
Import Dfsdm DualMic.

Lemma dual_run_filter evs : forall st,
  run evs st =
    {| Buf_Mic0 := Buf_Mic0 st;
       Buf_Mic1 := Buf_Mic1 st;
       huart1 := huart1 st ++
         (completed_half <$>
            filter (fun ev => notification_handle ev = hdfsdm1_filter1) evs) |}.
Proof.
  unfold run.
  induction evs as [|ev evs IH]; intros st; simpl.
  - rewrite app_nil_r. by destruct st.
  - rewrite IH.
    destruct (decide (notification_handle ev = hdfsdm1_filter1)) as [Hev|Hev].
    + rewrite (dual_notify_mapped _ _ Hev), filter_cons_True by done. simpl.
      by rewrite <- app_assoc.
    + by rewrite (dual_notify_unmapped _ _ Hev), filter_cons_False by done.
Qed.

End DualMicRuns.

(** X10: in the two-microphone callbacks only [hdfsdm1_filter1] counts.
    After any sequence of notifications, whatever handles they carry
    ([hdfsdm1_filter0], [hdfsdm1_filter1] or any other one), the requests
    handed to the UART are those for the notifications of
    [hdfsdm1_filter1], in their order: one half of [Buf_Mic1] for each,
    nothing for the others; the two buffers are as they were. *)
Theorem dual_mic_transmits_for_filter1_only
    (evs : list Dfsdm.notification) (st : DualMic.bsp_state) :
  DualMic.huart1 (DualMic.run evs st) =
    DualMic.huart1 st ++
      (DualMic.completed_half <$>
         filter (fun ev => Dfsdm.notification_handle ev = Dfsdm.hdfsdm1_filter1) evs) /\
  DualMic.Buf_Mic0 (DualMic.run evs st) = DualMic.Buf_Mic0 st /\
  DualMic.Buf_Mic1 (DualMic.run evs st) = DualMic.Buf_Mic1 st /\
  (forall h st0,
      h <> Dfsdm.hdfsdm1_filter1 ->
      DualMic.HAL_DFSDM_FilterRegConvHalfCpltCallback h st0 = st0 /\
      DualMic.HAL_DFSDM_FilterRegConvCpltCallback h st0 = st0).
Proof.
  rewrite dual_run_filter. simpl. repeat split; try done.
  - exact (dual_notify_unmapped (Dfsdm.HalfCplt h) st0 H).
  - exact (dual_notify_unmapped (Dfsdm.Cplt h) st0 H).
Qed.

(** X11: the callbacks never hand the UART bytes outside the capture
    buffer. Every request that a sequence of notifications adds is for
    [Buf_Mic1] (never for [Buf_Mic0]) in the two-microphone file and for
    [dfsdm_buf] in the single-microphone one, starts at byte 0 or at the
    half length, and ends at or before the last byte of the [BUF_LENGTH]
    samples of the array. *)
Theorem transmit_requests_within_buffer :
  (forall evs st r,
      r ∈ DualMic.huart1 (DualMic.run evs st) ->
      r ∈ DualMic.huart1 st \/
      (Dfsdm.ptr_array (Dfsdm.pData r) = DualMic.array_Buf_Mic1 /\
       0 <= Dfsdm.ptr_offset (Dfsdm.pData r) /\
       Dfsdm.ptr_offset (Dfsdm.pData r) + Dfsdm.Size r
         <= Dfsdm.BUF_LENGTH * Dfsdm.sizeof_int16_t)) /\
  (forall evs st r,
      r ∈ SingleMic.huart1 (SingleMic.run evs st) ->
      r ∈ SingleMic.huart1 st \/
      (Dfsdm.ptr_array (Dfsdm.pData r) = SingleMic.array_dfsdm_buf /\
       0 <= Dfsdm.ptr_offset (Dfsdm.pData r) /\
       Dfsdm.ptr_offset (Dfsdm.pData r) + Dfsdm.Size r
         <= Dfsdm.BUF_LENGTH * Dfsdm.sizeof_int16_t)).
Proof.
  split; intros evs st r.
  - rewrite dual_run_filter. simpl.
    rewrite elem_of_app, list_elem_of_fmap.
    intros [H|(ev & -> & _)]; [by left|right].
    destruct ev; by vm_compute.
  - rewrite single_run. simpl.
    rewrite elem_of_app, list_elem_of_fmap.
    intros [H|(ev & -> & _)]; [by left|right].
    destruct ev; by vm_compute.
Qed.

Lemma transmit_requests_within_buffer_witness :
  Dfsdm.second_half DualMic.array_Buf_Mic1 ∈ [] \/
  (Dfsdm.ptr_array (Dfsdm.pData (Dfsdm.second_half DualMic.array_Buf_Mic1))
     = DualMic.array_Buf_Mic1 /\
   0 <= Dfsdm.ptr_offset (Dfsdm.pData (Dfsdm.second_half DualMic.array_Buf_Mic1)) /\
   Dfsdm.ptr_offset (Dfsdm.pData (Dfsdm.second_half DualMic.array_Buf_Mic1))
     + Dfsdm.Size (Dfsdm.second_half DualMic.array_Buf_Mic1)
     <= Dfsdm.BUF_LENGTH * Dfsdm.sizeof_int16_t).
Proof.
  apply (proj1 transmit_requests_within_buffer
           [Dfsdm.Cplt Dfsdm.hdfsdm1_filter0; Dfsdm.Cplt Dfsdm.hdfsdm1_filter1]
           DualMic.initial_state).
  vm_compute. apply list_elem_of_here.
Defined.

(** ** The peak search of the analysis script *)

Section DoubleOrder.
Import Matlab.

(** [>] on numbers is the order of the keys. *)
Lemma gt_key a b :
  isnan a = false -> isnan b = false ->
  gt a b = true <-> key_lt (order_key b) (order_key a).
Proof.
  intros Ha Hb. unfold gt, SFltb, SFcompare, key_lt.
  destruct a as [sa|sa| |sa ma ea], b as [sb|sb| |sb mb eb]; try done;
    try (destruct sa); try (destruct sb); cbn; try (split; [done|lia]);
    try (split; [lia|done]).
  - change (Pos.compare_cont Eq mb ma) with (Pos.compare mb ma).
    destruct (Z.compare_spec eb ea), (Pos.compare_spec mb ma); cbn;
      split; try done; lia.
  - change (Pos.compare_cont Eq mb ma) with (Pos.compare mb ma).
    destruct (Z.compare_spec eb ea), (Pos.compare_spec mb ma); cbn;
      split; try done; lia.
Qed.

Lemma gt_not_nan a b : gt a b = true -> isnan a = false /\ isnan b = false.
Proof.
  unfold gt, SFltb, SFcompare.
  by destruct a as [sa|sa| |sa ma ea], b as [sb|sb| |sb mb eb].
Qed.

Lemma gt_asym a b : gt a b = true -> gt b a = false.
Proof.
  intros H. destruct (gt_not_nan a b H) as [Ha Hb].
  apply (gt_key a b Ha Hb) in H.
  destruct (gt b a) eqn:E; [|done].
  apply (gt_key b a Hb Ha) in E. unfold key_lt in *. lia.
Qed.

(** [a > b >= c] gives [a > c]. *)
Lemma gt_ge_trans a b c :
  isnan c = false -> gt a b = true -> gt c b = false -> gt a c = true.
Proof.
  intros Hc H1 H2. destruct (gt_not_nan a b H1) as [Ha Hb].
  apply (gt_key a b Ha Hb) in H1. apply (gt_key a c Ha Hc).
  assert (H3 : ~ key_lt (order_key b) (order_key c)).
  { intros H. apply (gt_key c b Hc Hb) in H. congruence. }
  unfold key_lt in *. lia.
Qed.

(** [a >= b >= c] gives [a >= c]. *)
Lemma ge_ge_trans a b c :
  isnan a = false -> isnan b = false -> isnan c = false ->
  gt b a = false -> gt c b = false -> gt c a = false.
Proof.
  intros Ha Hb Hc H1 H2.
  destruct (gt c a) eqn:E; [|done].
  apply (gt_key c a Hc Ha) in E.
  assert (H3 : ~ key_lt (order_key a) (order_key b)).
  { intros H. apply (gt_key b a Hb Ha) in H. congruence. }
  assert (H4 : ~ key_lt (order_key b) (order_key c)).
  { intros H. apply (gt_key c b Hc Hb) in H. congruence. }
  unfold key_lt in *. lia.
Qed.

(** [a >= b > c] gives [a > c]. *)
Lemma ge_gt_trans a b c :
  isnan a = false -> gt b a = false -> gt b c = true -> gt a c = true.
Proof.
  intros Ha H1 H2. destruct (gt_not_nan b c H2) as [Hb Hc].
  apply (gt_key b c Hb Hc) in H2. apply (gt_key a c Ha Hc).
  assert (H3 : ~ key_lt (order_key a) (order_key b)).
  { intros H. apply (gt_key b a Hb Ha) in H. congruence. }
  unfold key_lt in *. lia.
Qed.

End DoubleOrder.

Section FindPeaks.
Import Matlab.

Lemma index_lookup {A : Type} (v : list A) (i : nat) :
  (1 <= i)%nat -> index v i = v !! (i - 1)%nat.
Proof. intros H. destruct i as [|j]; [lia|]. cbn. by rewrite Nat.sub_0_r. Qed.

Lemma index_is_Some {A : Type} (v : list A) (i : nat) :
  is_Some (index v i) <-> (1 <= i <= length v)%nat.
Proof.
  destruct i as [|j]; cbn.
  - split; [by intros [? ?]|lia].
  - rewrite lookup_lt_is_Some. lia.
Qed.

Lemma max_is_Some (v : list double) : v <> [] -> is_Some (max v).
Proof. destruct v as [|a v]; [done|]. intros _. cbn. by destruct (max v). Qed.

(** The test of the loop, when it is true. *)
Lemma is_peak_true magnitude threshold i :
  is_peak magnitude threshold i = Some true <->
  exists a b c t,
    index magnitude i = Some a /\ index magnitude (i - 1) = Some b /\
    index magnitude (i + 1) = Some c /\ threshold = Some t /\
    gt a b = true /\ gt a c = true /\ gt a t = true.
Proof.
  unfold is_peak. split.
  - destruct (index magnitude i) as [a|]; cbn; [|done].
    destruct (index magnitude (i - 1)) as [b|]; cbn; [|done].
    destruct (gt a b) eqn:E1; [|done].
    destruct (index magnitude (i + 1)) as [c|]; cbn; [|done].
    destruct (gt a c) eqn:E2; [|done].
    destruct threshold as [t|]; cbn; [|done].
    intros [= E3]. by exists a, b, c, t.
  - intros (a & b & c & t & -> & -> & -> & -> & E1 & E2 & E3). cbn.
    rewrite E1. cbn. rewrite E2. cbn. by rewrite E3.
Qed.

(** The test has a result at every index the loop visits. *)
Lemma is_peak_defined magnitude i :
  (2 <= i)%nat -> (i + 1 <= length magnitude)%nat ->
  is_Some (is_peak magnitude (find_peaks_threshold magnitude) i).
Proof.
  intros H1 H2. unfold is_peak.
  destruct (proj2 (index_is_Some magnitude i)) as [a ->]; [lia|].
  destruct (proj2 (index_is_Some magnitude (i - 1))) as [b ->]; [lia|].
  destruct (proj2 (index_is_Some magnitude (i + 1))) as [c ->]; [lia|].
  cbn. destruct (gt a b); [|done]. cbn. destruct (gt a c); [|done].
  unfold find_peaks_threshold.
  destruct (max_is_Some magnitude) as [m ->]; [|done].
  intros ->. simpl in H2. lia.
Qed.

Lemma find_peaks_loop_filter magnitude threshold indices : forall peaks,
  (forall i, i ∈ indices -> is_Some (is_peak magnitude threshold i)) ->
  find_peaks_loop magnitude threshold indices peaks =
    Some (peaks ++
          filter (fun i => is_peak magnitude threshold i = Some true) indices).
Proof.
  induction indices as [|i indices IH]; intros peaks Hdef;
    cbn [find_peaks_loop].
  - by rewrite filter_nil, app_nil_r.
  - destruct (Hdef i) as [b Hb]; [by left|]. rewrite Hb.
    cbn [mbind option_bind].
    rewrite IH by (intros j Hj; apply Hdef; by right).
    destruct b.
    + rewrite filter_cons_True by done. by rewrite <- app_assoc.
    + rewrite filter_cons_False; [done|]. by rewrite Hb.
Qed.

(** The sort is a permutation, and it looks at the values only. *)
Local Abbreviation on_snd g := (fun p : double * _ => (p.1, g p.2)).

Lemma insert_descend_perm {A : Type} (x : double * A) l :
  insert_descend x l ≡ₚ x :: l.
Proof.
  induction l as [|h l IH]; cbn; [done|].
  destruct (sorts_before x.1 h.1); [done|].
  rewrite IH. apply Permutation_swap.
Qed.

Lemma sort_descend_from_perm {A : Type} (l : list (double * A)) : forall sorted,
  foldl (fun sorted x => insert_descend x sorted) sorted l ≡ₚ sorted ++ l.
Proof.
  induction l as [|x l IH]; intros sorted; cbn.
  - by rewrite app_nil_r.
  - rewrite IH, insert_descend_perm. apply Permutation_middle.
Qed.

Lemma sort_descend_perm {A : Type} (l : list (double * A)) : sort_descend l ≡ₚ l.
Proof. unfold sort_descend. by rewrite sort_descend_from_perm. Qed.

Lemma insert_descend_fmap {A B : Type} (g : A -> B) (x : double * A) l :
  on_snd g <$> insert_descend x l =
  insert_descend (on_snd g x) (on_snd g <$> l).
Proof.
  induction l as [|h l IH]; cbn; [done|].
  destruct (sorts_before x.1 h.1); cbn; [done|]. by rewrite IH.
Qed.

Lemma sort_descend_from_fmap {A B : Type} (g : A -> B) (l : list (double * A)) :
  forall sorted,
  on_snd g <$> foldl (fun sorted x => insert_descend x sorted) sorted l =
  foldl (fun sorted x => insert_descend x sorted) (on_snd g <$> sorted)
        (on_snd g <$> l).
Proof.
  induction l as [|x l IH]; intros sorted; cbn; [done|].
  by rewrite IH, insert_descend_fmap.
Qed.

Lemma zip_fmap_snd {A B : Type} (g : A -> B) (l : list double) : forall k,
  zip l (g <$> k) = on_snd g <$> zip l k.
Proof.
  induction l as [|a l IH]; intros [|b k]; cbn; try done. by rewrite <- IH.
Qed.

Lemma mapM_default {A B : Type} (f : A -> option B) (d : B) (l : list A) :
  (forall x, x ∈ l -> is_Some (f x)) ->
  mapM f l = Some ((fun x => default d (f x)) <$> l).
Proof.
  induction l as [|x l IH]; intros H; cbn; [done|].
  destruct (H x) as [y Hy]; [by left|]. rewrite Hy. cbn.
  rewrite IH by (intros z Hz; apply H; by right). done.
Qed.

(** Indexing a vector by [1, 2, ..., n] gives the vector. *)
Lemma fmap_index_seq {A : Type} (d : A) (v : list A) :
  (fun j => default d (index v j)) <$> seq 1 (length v) = v.
Proof.
  apply list_eq. intros k. rewrite list_lookup_fmap.
  destruct (decide (k < length v)%nat) as [Hk|Hk].
  - rewrite lookup_seq_lt by done. cbn.
    by destruct (lookup_lt_is_Some_2 v k Hk) as [x ->].
  - rewrite lookup_seq_ge by lia. cbn. symmetry. apply lookup_ge_None. lia.
Qed.

(** [peaks(sort_idx)] is the list of peaks sorted with their values. *)
Lemma sort_by_index (values : list double) (peaks : list nat) :
  length values = length peaks ->
  mapM (index peaks) (sort_descend_index values) =
    Some (snd <$> sort_descend (zip values peaks)).
Proof.
  intros Hlen. unfold sort_descend_index.
  set (g := fun j => default O (index peaks j)).
  rewrite (mapM_default _ O).
  - f_equal. fold g.
    assert (Hz : zip values peaks = on_snd g <$> zip values (seq 1 (length values))).
    { rewrite <- (fmap_index_seq O peaks) at 1. fold g. rewrite <- Hlen.
      apply zip_fmap_snd. }
    rewrite Hz. unfold sort_descend.
    rewrite <- (sort_descend_from_fmap g _ []).
    rewrite <- !list_fmap_compose. done.
  - intros j Hj. apply index_is_Some.
    rewrite sort_descend_perm, snd_zip in Hj by (rewrite length_seq; lia).
    apply elem_of_seq in Hj. lia.
Qed.

End FindPeaks.

Section FindPeaksResult.
Import Matlab.

(** How two entries of the sorted list stand: the later one is not
    larger, and of two equal values the one with the smaller index comes
    first. *)
Local Abbreviation precedes :=
  (fun x y : double * nat =>
     gt y.1 x.1 = false /\ (gt x.1 y.1 = false -> (x.2 < y.2)%nat)).

Lemma ordered_pairs_lookup {A : Type} (R : A -> A -> Prop) (l : list A) :
  ForallOrdPairs R l ->
  forall j k x y, (j < k)%nat -> l !! j = Some x -> l !! k = Some y -> R x y.
Proof.
  induction 1 as [|a l Ha Hl IH]; intros j k x y Hjk Hj Hk; [done|].
  destruct k as [|k]; [lia|]. cbn in Hk.
  destruct j as [|j]; cbn in Hj.
  - injection Hj as <-. rewrite Forall_forall in Ha.
    apply Ha. by eapply list_elem_of_lookup_2.
  - apply (IH j k); [lia|done|done].
Qed.

Lemma ordered_pairs_filter {A : Type} (R : A -> A -> Prop)
    (P : A -> Prop) `{!forall x, Decision (P x)} (l : list A) :
  ForallOrdPairs R l -> ForallOrdPairs R (filter P l).
Proof.
  induction 1 as [|a l Ha Hl IH]; [constructor|].
  destruct (decide (P a)).
  - rewrite filter_cons_True by done. constructor; [|done].
    rewrite Forall_forall in Ha |- *. intros y Hy.
    apply list_elem_of_filter in Hy as [_ Hy]. by apply Ha.
  - by rewrite filter_cons_False.
Qed.

Lemma ordered_pairs_seq s n : ForallOrdPairs Nat.lt (seq s n).
Proof.
  revert s. induction n as [|n IH]; intros s; cbn; constructor; [|done].
  apply Forall_forall. intros x Hx. apply elem_of_seq in Hx. lia.
Qed.

Lemma insert_descend_sorted (x : double * nat) l :
  isnan x.1 = false ->
  Forall (fun h => isnan h.1 = false) l ->
  Forall (fun h => (h.2 < x.2)%nat) l ->
  ForallOrdPairs precedes l ->
  ForallOrdPairs precedes (insert_descend x l).
Proof.
  intros Hx Hnan Hlt Hs.
  induction Hs as [|h l Hh Hl IH]; cbn.
  - constructor; [done|constructor].
  - apply Forall_cons in Hnan as [Hnh Hnan].
    apply Forall_cons in Hlt as [Hlh Hlt].
    unfold sorts_before. rewrite Hx. cbn [andb orb].
    destruct (gt x.1 h.1) eqn:E.
    + constructor; [|by constructor].
      constructor.
      * split; [by apply gt_asym|congruence].
      * rewrite Forall_forall in Hh, Hnan |- *. intros y Hy.
        destruct (Hh y Hy) as [Hyh _].
        assert (Hxy : gt x.1 y.1 = true)
          by (apply (gt_ge_trans _ h.1); [by apply Hnan|done|done]).
        split; [by apply gt_asym|congruence].
    + constructor; [|by apply IH].
      rewrite insert_descend_perm. by constructor.
Qed.

Lemma sort_descend_from_sorted (l : list (double * nat)) : forall sorted,
  Forall (fun h => isnan h.1 = false) sorted ->
  Forall (fun h => isnan h.1 = false) l ->
  ForallOrdPairs precedes sorted ->
  ForallOrdPairs Nat.lt (snd <$> l) ->
  Forall (fun h => Forall (fun x => (h.2 < x.2)%nat) l) sorted ->
  ForallOrdPairs precedes
    (foldl (fun sorted x => insert_descend x sorted) sorted l).
Proof.
  induction l as [|x l IH]; intros sorted Hns Hnl Hs Hl Hlt; cbn; [done|].
  apply Forall_cons in Hnl as [Hnx Hnl].
  inversion Hl as [|? ? Hxl Hl']; subst.
  apply IH; try done.
  - rewrite insert_descend_perm. by constructor.
  - apply insert_descend_sorted; try done.
    eapply Forall_impl; [exact Hlt|]. cbn. intros h Hh.
    by apply Forall_cons in Hh as [? _].
  - rewrite insert_descend_perm. constructor.
    + apply Forall_forall. intros y Hy.
      rewrite Forall_forall in Hxl. apply Hxl.
      by apply (list_elem_of_fmap_2 snd).
    + eapply Forall_impl; [exact Hlt|]. cbn. intros h Hh.
      by apply Forall_cons in Hh as [_ ?].
Qed.

(** The indices the loop collects, in increasing order. *)
Local Abbreviation loop_peaks magnitude :=
  (filter (fun i => is_peak magnitude (find_peaks_threshold magnitude) i = Some true)
          (seq 2 (length magnitude - 1 - 1))).

Lemma loop_peaks_spec magnitude i :
  i ∈ loop_peaks magnitude <->
  (2 <= i)%nat /\ (i + 1 <= length magnitude)%nat /\
  exists a b c t,
    index magnitude i = Some a /\ index magnitude (i - 1) = Some b /\
    index magnitude (i + 1) = Some c /\
    find_peaks_threshold magnitude = Some t /\
    gt a b = true /\ gt a c = true /\ gt a t = true.
Proof.
  rewrite list_elem_of_filter, elem_of_seq, is_peak_true. split.
  - intros [H Hi]. split; [lia|]. split; [lia|done].
  - intros (H1 & H2 & H). split; [done|lia].
Qed.

(** [find_peaks] always has a result: the peaks of the loop, sorted with
    their values. *)
Lemma find_peaks_result magnitude :
  exists values,
    Forall2 (fun p v => index magnitude p = Some v) (loop_peaks magnitude) values /\
    find_peaks magnitude =
      Some (snd <$> sort_descend (zip values (loop_peaks magnitude))).
Proof.
  exists ((fun p => default S754_nan (index magnitude p)) <$> loop_peaks magnitude).
  split.
  - apply Forall2_fmap_r, Forall_Forall2_diag, Forall_forall.
    intros p Hp. apply loop_peaks_spec in Hp as (_ & _ & a & b & c & t & Ea & _).
    cbn. by rewrite Ea.
  - unfold find_peaks.
    rewrite find_peaks_loop_filter.
    2:{ intros i Hi. apply elem_of_seq in Hi. apply is_peak_defined; lia. }
    cbn [app mbind option_bind].
    rewrite (mapM_default _ S754_nan).
    2:{ intros p Hp. apply loop_peaks_spec in Hp as (_ & _ & a & b & c & t & Ea & _).
        by rewrite Ea. }
    cbn [mbind option_bind].
    apply sort_by_index. by rewrite length_fmap.
Qed.

Lemma find_peaks_perm magnitude :
  exists peak_indices,
    find_peaks magnitude = Some peak_indices /\
    peak_indices ≡ₚ loop_peaks magnitude.
Proof.
  destruct (find_peaks_result magnitude) as (values & Hv & ->).
  eexists. split; [done|].
  rewrite sort_descend_perm. rewrite snd_zip; [done|].
  apply Forall2_length in Hv. lia.
Qed.

(** Two peaks are never next to each other. *)
Lemma loop_peaks_apart magnitude i :
  i ∈ loop_peaks magnitude -> S i ∉ loop_peaks magnitude.
Proof.
  rewrite !loop_peaks_spec.
  intros (H1 & H2 & a & b & c & t & Ea & Eb & Ec & _ & _ & Hac & _).
  intros (_ & _ & a' & b' & _ & _ & Ea' & Eb' & _ & _ & Hab' & _).
  replace (S i - 1)%nat with i in Eb' by lia.
  replace (i + 1)%nat with (S i) in Ec by lia.
  rewrite Ea in Eb'. rewrite Ec in Ea'.
  injection Eb' as <-. injection Ea' as <-.
  apply gt_asym in Hac. congruence.
Qed.

Lemma loop_peaks_apart_test magnitude i :
  is_peak magnitude (find_peaks_threshold magnitude) i = Some true ->
  is_peak magnitude (find_peaks_threshold magnitude) (S i) <> Some true.
Proof.
  rewrite !is_peak_true.
  intros (a & b & c & t & Ea & Eb & Ec & _ & _ & Hac & _).
  intros (a' & b' & _ & _ & Ea' & Eb' & _ & _ & Hab' & _).
  replace (S i - 1)%nat with i in Eb' by lia.
  replace (i + 1)%nat with (S i) in Ec by lia.
  rewrite Ea in Eb'. rewrite Ec in Ea'.
  injection Eb' as <-. injection Ea' as <-.
  apply gt_asym in Hac. congruence.
Qed.

(** Among [n] successive indices at most half, rounded up, satisfy a
    property that no two neighbours both satisfy. *)
Lemma filter_apart_length (P : nat -> Prop) `{!forall i, Decision (P i)} :
  (forall i, P i -> ~ P (S i)) ->
  forall n s, (2 * length (filter P (seq s n)) <= n + 1)%nat.
Proof.
  intros Hapart n. induction n as [n IH] using lt_wf_ind. intros s.
  destruct n as [|n]; [cbn; lia|].
  cbn [seq]. destruct (decide (P s)) as [Hs|Hs].
  - rewrite filter_cons_True by done.
    destruct n as [|n]; [cbn; lia|].
    cbn [seq]. rewrite filter_cons_False by (by apply Hapart).
    specialize (IH n ltac:(lia) (S (S s))). cbn [length]. lia.
  - rewrite filter_cons_False by done.
    specialize (IH n ltac:(lia) (S s)). lia.
Qed.

End FindPeaksResult.

Section FindPeaksSorted.
Import Matlab.

Lemma elem_of_zip_Forall2 {A B : Type} (R : A -> B -> Prop) (l : list A) (k : list B) :
  Forall2 R l k -> forall x y, (y, x) ∈ zip k l -> R x y.
Proof.
  induction 1 as [|a b l k Hab Hlk IH]; intros x y Hin; cbn in Hin.
  - by apply elem_of_nil in Hin.
  - apply elem_of_cons in Hin as [[= -> ->]|Hin]; [done|by apply IH].
Qed.

(** The sorted list of the peaks with their values. *)
Lemma find_peaks_sorted_pairs magnitude :
  exists sorted,
    find_peaks magnitude = Some (snd <$> sorted) /\
    Forall (fun x => index magnitude x.2 = Some x.1) sorted /\
    ForallOrdPairs
      (fun x y : double * nat =>
         gt y.1 x.1 = false /\ (gt x.1 y.1 = false -> (x.2 < y.2)%nat))
      sorted.
Proof.
  destruct (find_peaks_result magnitude) as (values & Hv & E).
  eexists. split; [exact E|].
  assert (Hlen : length values = length
            (filter (fun i => is_peak magnitude (find_peaks_threshold magnitude) i
                              = Some true)
                    (seq 2 (length magnitude - 1 - 1))))
    by (apply Forall2_length in Hv; lia).
  assert (Hval : Forall (fun x : double * nat => index magnitude x.2 = Some x.1)
            (zip values
               (filter (fun i => is_peak magnitude (find_peaks_threshold magnitude) i
                                 = Some true)
                       (seq 2 (length magnitude - 1 - 1))))).
  { apply Forall_forall. intros [v p] Hin.
    by apply (elem_of_zip_Forall2 _ _ _ Hv). }
  assert (Hnan : Forall (fun x : double * nat => isnan x.1 = false)
            (zip values
               (filter (fun i => is_peak magnitude (find_peaks_threshold magnitude) i
                                 = Some true)
                       (seq 2 (length magnitude - 1 - 1))))).
  { apply Forall_forall. intros [v p] Hin.
    pose proof (elem_of_zip_Forall2 _ _ _ Hv _ _ Hin) as Ev. cbn in Ev.
    assert (Hp : p ∈ filter (fun i => is_peak magnitude
                                 (find_peaks_threshold magnitude) i = Some true)
                       (seq 2 (length magnitude - 1 - 1))).
    { apply (list_elem_of_fmap_2 snd) in Hin.
      by rewrite snd_zip in Hin by lia. }
    apply loop_peaks_spec in Hp as (_ & _ & a & b & c & t & Ea & _ & _ & _ & Hab & _).
    rewrite Ea in Ev. injection Ev as <-.
    by apply gt_not_nan in Hab as [? _]. }
  split.
  - by rewrite sort_descend_perm.
  - apply sort_descend_from_sorted; try done.
    + constructor.
    + rewrite snd_zip by lia.
      apply ordered_pairs_filter, ordered_pairs_seq.
Qed.

End FindPeaksSorted.

(** X12: [find_peaks] has a result for every vector of magnitudes (no index
    is out of range and no operand of [&&] is empty), and the indices it
    returns, each once, are exactly the interior indices [i], from 2 to
    [length(magnitude) - 1], whose magnitude is greater than the magnitude
    of both neighbours and greater than the threshold, a tenth of the
    largest magnitude. The first and the last index are never returned, and a
    vector of fewer than three elements has no peak. *)
Theorem find_peaks_interior_maxima (magnitude : list Matlab.double) :
  exists peak_indices,
    Matlab.find_peaks magnitude = Some peak_indices /\
    NoDup peak_indices /\
    (forall i,
        i ∈ peak_indices <->
        (2 <= i)%nat /\ (i + 1 <= length magnitude)%nat /\
        exists a b c t,
          Matlab.index magnitude i = Some a /\
          Matlab.index magnitude (i - 1) = Some b /\
          Matlab.index magnitude (i + 1) = Some c /\
          Matlab.find_peaks_threshold magnitude = Some t /\
          Matlab.gt a b = true /\ Matlab.gt a c = true /\ Matlab.gt a t = true) /\
    ((length magnitude <= 2)%nat -> peak_indices = []).
Proof.
  destruct (find_peaks_perm magnitude) as (l & E & Hperm).
  exists l. split; [done|]. split; [|split].
  - rewrite Hperm. apply NoDup_filter, NoDup_seq.
  - intros i. rewrite Hperm. apply loop_peaks_spec.
  - intros Hlen. destruct l as [|i l]; [done|exfalso].
    assert (Hi : i ∈ i :: l) by left.
    rewrite Hperm in Hi. apply loop_peaks_spec in Hi. lia.
Qed.

(** X13: [find_peaks] never returns two neighbouring indices, so that it
    returns at most [(length(magnitude) - 1) / 2] peaks. *)
Theorem find_peaks_no_neighbours
    (magnitude : list Matlab.double) (peak_indices : list nat) :
  Matlab.find_peaks magnitude = Some peak_indices ->
  (forall i, i ∈ peak_indices -> S i ∉ peak_indices) /\
  (2 * length peak_indices <= length magnitude - 1)%nat.
Proof.
  intros E. destruct (find_peaks_perm magnitude) as (l & E' & Hperm).
  rewrite E in E'. injection E' as <-. split.
  - intros i. rewrite Hperm. apply loop_peaks_apart.
  - rewrite Hperm.
    pose proof (filter_apart_length
                  (fun i => Matlab.is_peak magnitude
                              (Matlab.find_peaks_threshold magnitude) i = Some true)
                  (loop_peaks_apart_test magnitude)
                  (length magnitude - 1 - 1) 2) as H.
    destruct (decide (length magnitude <= 1)%nat) as [Hs|Hs]; [|lia].
    replace (length magnitude - 1 - 1)%nat with O in * by lia.
    cbn in *. lia.
Qed.

Lemma find_peaks_no_neighbours_witness :
  (forall i, i ∈ [4; 2]%nat -> S i ∉ [4; 2]%nat) /\
  (2 * length [4; 2]%nat <= 5 - 1)%nat.
Proof.
  apply (find_peaks_no_neighbours
           [S754_zero false; S754_finite false 4503599627370496 (-52);
            S754_zero false; S754_finite false 4503599627370496 (-51);
            S754_zero false] [4; 2]%nat).
  vm_compute. reflexivity.
Defined.

(** X14: [find_peaks] returns the peaks by decreasing magnitude: of two
    indices of its result, the magnitude at the later one is not greater
    than the magnitude at the earlier one, and when neither magnitude is
    greater the smaller index comes first. *)
Theorem find_peaks_descending
    (magnitude : list Matlab.double) (peak_indices : list nat)
    (j k p q : nat) :
  Matlab.find_peaks magnitude = Some peak_indices ->
  (j < k)%nat ->
  peak_indices !! j = Some p ->
  peak_indices !! k = Some q ->
  exists a b,
    Matlab.index magnitude p = Some a /\
    Matlab.index magnitude q = Some b /\
    Matlab.gt b a = false /\
    (Matlab.gt a b = false -> (p < q)%nat).
Proof.
  intros E Hjk Hj Hk.
  destruct (find_peaks_sorted_pairs magnitude) as (sorted & E' & Hval & Hs).
  rewrite E in E'. injection E' as ->.
  rewrite list_lookup_fmap in Hj, Hk.
  destruct (sorted !! j) as [[a p']|] eqn:Ej; [|done].
  destruct (sorted !! k) as [[b q']|] eqn:Ek; [|done].
  cbn in Hj, Hk. injection Hj as ->. injection Hk as ->.
  exists a, b.
  rewrite Forall_forall in Hval.
  split; [exact (Hval _ (list_elem_of_lookup_2 _ _ _ Ej))|].
  split; [exact (Hval _ (list_elem_of_lookup_2 _ _ _ Ek))|].
  exact (ordered_pairs_lookup _ _ Hs j k _ _ Hjk Ej Ek).
Qed.

Lemma find_peaks_descending_witness :
  exists a b,
    Matlab.index
      [S754_zero false; S754_finite false 4503599627370496 (-52);
       S754_zero false; S754_finite false 4503599627370496 (-51);
       S754_zero false] 4 = Some a /\
    Matlab.index
      [S754_zero false; S754_finite false 4503599627370496 (-52);
       S754_zero false; S754_finite false 4503599627370496 (-51);
       S754_zero false] 2 = Some b /\
    Matlab.gt b a = false /\
    (Matlab.gt a b = false -> (4 < 2)%nat).
Proof.
  apply (find_peaks_descending
           [S754_zero false; S754_finite false 4503599627370496 (-52);
            S754_zero false; S754_finite false 4503599627370496 (-51);
            S754_zero false] [4; 2]%nat 0 1 4 2).
  - vm_compute. reflexivity.
  - lia.
  - reflexivity.
  - reflexivity.
Defined.

(** ** Samples of opposite sign *)

Section SignSymmetry.

Lemma binary_round_aux_opp s m e l :
  binary_round_aux prec emax (negb s) m e l =
  SFopp (binary_round_aux prec emax s m e l).
Proof.
  unfold binary_round_aux.
  destruct (shr_fexp prec emax m e l) as [mrs' e'].
  destruct (shr_fexp prec emax _ e' loc_Exact) as [mrs'' e''].
  destruct (shr_m mrs''); [done| |done].
  by destruct (e'' <=? emax - prec).
Qed.

Lemma binary_round_opp s m e :
  binary_round prec emax (negb s) m e = SFopp (binary_round prec emax s m e).
Proof.
  unfold binary_round.
  destruct (shl_align m e _) as [mz ez]. apply binary_round_aux_opp.
Qed.

Lemma binary_normalize_opp z e :
  z <> 0 ->
  binary_normalize prec emax (- z) e false =
  SFopp (binary_normalize prec emax z e false).
Proof.
  intros Hz. destruct z as [|p|p]; [done| |]; cbn [Z.opp binary_normalize].
  - apply (binary_round_opp false).
  - apply (binary_round_opp true).
Qed.

Lemma mul_opp_r a f : mul a (SFopp f) = SFopp (mul a f).
Proof.
  unfold mul.
  destruct a as [sa|sa| |sa ma ea], f as [sf|sf| |sf mf ef]; cbn [SFopp SFmul];
    try done; try (by rewrite <- negb_xorb_r).
  rewrite <- negb_xorb_r. apply binary_round_aux_opp.
Qed.

Lemma same_number_refl f : same_number f f.
Proof. by left. Qed.

Lemma same_number_zero s s' : same_number (S754_zero s) (S754_zero s').
Proof. right. by exists s, s'. Qed.

Lemma add_opp f g : same_number (add (SFopp f) (SFopp g)) (SFopp (add f g)).
Proof.
  unfold add.
  destruct f as [sf|sf| |sf mf ef], g as [sg|sg| |sg mg eg]; cbn [SFopp SFadd];
    try apply same_number_refl;
    try (destruct sf, sg; cbn;
         first [apply same_number_refl | apply same_number_zero]).
  set (z := cond_Zopp sf (Zpos (shl_align mf ef (Z.min ef eg)).1) +
            cond_Zopp sg (Zpos (shl_align mg eg (Z.min ef eg)).1)).
  replace (cond_Zopp (negb sf) (Zpos (shl_align mf ef (Z.min ef eg)).1) +
           cond_Zopp (negb sg) (Zpos (shl_align mg eg (Z.min ef eg)).1))
    with (- z) by (unfold z; destruct sf, sg; cbn [negb cond_Zopp]; lia).
  destruct (Z.eq_dec z 0) as [->|Hz].
  - apply same_number_zero.
  - left. by apply binary_normalize_opp.
Qed.

Lemma add_same_number f f' g g' :
  same_number f f' -> same_number g g' -> same_number (add f g) (add f' g').
Proof.
  intros [->|(s1 & s1' & -> & ->)] [->|(s2 & s2' & -> & ->)].
  - apply same_number_refl.
  - destruct f' as [sf|sf| |sf mf ef]; cbn;
      first [apply same_number_refl | idtac].
    destruct sf, s2, s2'; cbn; apply same_number_zero.
  - destruct g' as [sg|sg| |sg mg eg]; cbn;
      first [apply same_number_refl | idtac].
    destruct s1, s1', sg; cbn; apply same_number_zero.
  - destruct s1, s1', s2, s2'; cbn; apply same_number_zero.
Qed.

(** The product of the coefficient and the opposite sample. *)
Lemma mul_of_int_opp a x :
  same_number (mul a (of_int (- x))) (SFopp (mul a (of_int x))).
Proof.
  destruct (Z.eq_dec x 0) as [->|Hx].
  - change (of_int (- 0)) with (S754_zero false).
    change (of_int 0) with (S754_zero false).
    destruct a as [sa|sa| |sa ma ea]; cbn;
      first [apply same_number_refl | apply same_number_zero].
  - left. unfold of_int. rewrite binary_normalize_opp by done.
    apply mul_opp_r.
Qed.

Lemma filter_output_float_opp st x :
  same_number
    (filter_output_float (set_prev_output (- prev_output st) st) (- x))
    (SFopp (filter_output_float st x)).
Proof.
  unfold filter_output_float.
  destruct (set_prev_output_fields (- prev_output st) st) as (-> & -> & _).
  pose proof (add_opp (mul (alpha st) (of_int x))
                (mul (sub one (alpha st)) (of_int (prev_output st)))) as H.
  pose proof (add_same_number _ _ _ _
                (mul_of_int_opp (alpha st) x)
                (mul_of_int_opp (sub one (alpha st)) (prev_output st))) as H'.
  destruct H' as [->|(s & s' & -> & E)]; [done|].
  rewrite E in H. destruct H as [<-|(s1 & s1' & [= <-] & ->)].
  - apply same_number_zero.
  - apply same_number_zero.
Qed.

(** What the two range tests and the conversion see of a float. *)
Lemma same_number_opp f g :
  same_number g (SFopp f) ->
  valid g = valid f /\ is_nan g = is_nan f /\ is_finite g = is_finite f /\
  scaled g = - scaled f.
Proof.
  intros [->|(s & s' & -> & E)].
  - destruct f as [sf|sf| |sf mf ef]; try done.
    cbn. repeat split; try done. destruct sf; cbn; lia.
  - by destruct f as [sf|sf| |sf mf ef].
Qed.

End SignSymmetry.

(** X15: the filter treats samples of opposite sign alike. In a state with
    a binary32 coefficient and the [int16_t] bounds, when [filter_sample]
    returns [y] for the sample [x] after the previous output [p], and [y]
    is not at a bound ([-32767 < y < 32767]), it returns [-y] for the
    sample [-x] after the previous output [-p]: the rounding of the float
    operations and the conversion, which drops the fraction, add no
    offset to either side. *)
Theorem filter_sample_sign_symmetry
    (st : simple_lowpass_filter_t) (x y : Z) (st' : simple_lowpass_filter_t) :
  valid (alpha st) = true ->
  min_val st = -32768 ->
  max_val st = 32767 ->
  filter_sample st x = Some (y, st') ->
  Z.abs y < 32767 ->
  filter_sample (set_prev_output (- prev_output st) st) (- x) =
    Some (- y, set_prev_output (- y) st).
Proof.
  intros Ha Hmin Hmax E Hy.
  apply filter_sample_Some in E as [E _].
  set (f := filter_output_float st x) in *.
  set (st1 := set_prev_output (- prev_output st) st).
  set (g := filter_output_float st1 (- x)).
  destruct (same_number_opp f g (filter_output_float_opp st x))
    as (Vg & Ng & Fg & Sg).
  pose proof (filter_output_float_valid st x Ha) as Vf. fold f in Vf.
  assert (Nf : is_nan f = false).
  { destruct f; try done. by rewrite filter_clamp_nan in E. }
  destruct (filter_clamp_to_int16 st f Hmin Hmax Vf Nf) as (y0 & E0 & _ & Hval).
  rewrite E in E0. injection E0 as <-.
  assert (H149 : 0 < 2 ^ 149) by done.
  assert (Ff : is_finite f = true).
  { destruct f as [sf|sf| |sf mf ef]; try done.
    unfold filter_clamp in E. rewrite Hmin, Hmax in E.
    destruct sf; vm_compute in E; injection E as <-; lia. }
  specialize (Hval Ff).
  assert (Hin : Z.abs (scaled f) < 32767 * 2 ^ 149).
  { destruct (Z_lt_le_dec (Z.abs (scaled f)) (32767 * 2 ^ 149)) as [|Hge];
      [done|exfalso].
    destruct (Z_lt_le_dec (scaled f) 0) as [Hneg|Hpos].
    - assert (Hle : Z.max (Z.min (scaled f) (32767 * 2 ^ 149)) (-32768 * 2 ^ 149)
                    <= -32767 * 2 ^ 149) by lia.
      apply (Z.quot_le_mono _ _ (2 ^ 149)) in Hle; [|done].
      rewrite Z.quot_mul in Hle by lia. lia.
    - assert (Hle : 32767 * 2 ^ 149
                    <= Z.max (Z.min (scaled f) (32767 * 2 ^ 149)) (-32768 * 2 ^ 149))
        by lia.
      apply (Z.quot_le_mono _ _ (2 ^ 149)) in Hle; [|done].
      rewrite Z.quot_mul in Hle by lia. lia. }
  rewrite Z.min_l, Z.max_l in Hval by lia.
  assert (Hmin1 : min_val st1 = -32768)
    by (unfold st1; by destruct (set_prev_output_fields (- prev_output st) st)
                      as (_ & _ & -> & _)).
  assert (Hmax1 : max_val st1 = 32767)
    by (unfold st1; by destruct (set_prev_output_fields (- prev_output st) st)
                      as (_ & _ & _ & ->)).
  assert (Vg' : valid g = true) by congruence.
  assert (Ng' : is_nan g = false) by congruence.
  destruct (filter_clamp_to_int16 st1 g Hmin1 Hmax1 Vg' Ng') as (y1 & E1 & _ & Hval1).
  rewrite Fg, Sg in Hval1. specialize (Hval1 Ff).
  rewrite Z.min_l, Z.max_l in Hval1 by lia.
  rewrite Z.quot_opp_l in Hval1 by lia. rewrite <- Hval in Hval1. subst y1.
  unfold filter_sample. fold g. rewrite E1. cbn.
  unfold st1. by destruct st.
Qed.

Lemma filter_sample_sign_symmetry_witness :
  filter_sample (set_prev_output (- prev_output half_filter) half_filter) (- 32767)
  = Some (- 16383, set_prev_output (- 16383) half_filter).
Proof.
  apply (filter_sample_sign_symmetry half_filter 32767 16383
           (set_prev_output 16383 half_filter)).
  - reflexivity.
  - reflexivity.
  - reflexivity.
  - vm_compute. reflexivity.
  - vm_compute. reflexivity.
Defined.

(** ** How close the output is to the formula *)

Section Accuracy.

Lemma round_scaled_pos_error M k :
  0 <= k -> 0 <= M <= 2 ^ (k + 24) -> Z.abs (round_scaled_pos M - M) <= 2 ^ k.
Proof.
  intros Hk [HM0 HM].
  assert (H2k : 0 < 2 ^ k) by (apply Z.pow_pos_nonneg; lia).
  destruct (Z.eq_dec M 0) as [->|HMne]; [rewrite round_scaled_pos_0; lia|].
  destruct (Z.eq_dec M (2 ^ (k + 24))) as [->|HMlt].
  - (* a power of two is kept *)
    unfold round_scaled_pos.
    assert (Hd : Zdigits2 (2 ^ (k + 24)) = k + 25).
    { apply Zdigits2_unique; [apply Z.pow_pos_nonneg; lia|].
      replace (k + 25 - 1) with (k + 24) by lia. split; [lia|].
      apply Z.pow_lt_mono_r; lia. }
    rewrite Hd. replace (Z.max (k + 25 - 24) 0) with (k + 1) by lia.
    replace (k + 24) with (23 + (k + 1)) by lia.
    rewrite (Z.pow_add_r 2 23 (k + 1)) by lia.
    rewrite rne_shift_exact by (try apply Z.mod_mul; lia).
    rewrite Z.div_mul by lia. lia.
  - unfold round_scaled_pos.
    pose proof (Zdigits2_lt_pow2 M (k + 24) ltac:(lia) ltac:(lia) ltac:(lia)) as Hd.
    remember (Z.max (Zdigits2 M - 24) 0) as n eqn:En.
    assert (Hn : 0 <= n <= k) by (rewrite En; lia).
    pose proof (rne_shift_bounds M n ltac:(lia)) as [Hlo Hhi].
    assert (H2n : 0 < 2 ^ n) by (apply Z.pow_pos_nonneg; lia).
    assert (Hle : 2 ^ n <= 2 ^ k) by (apply Z.pow_le_mono_r; lia).
    pose proof (Z.div_mod M (2 ^ n) ltac:(lia)) as Hdm.
    pose proof (Z.mod_pos_bound M (2 ^ n) H2n) as Hmod.
    nia.
Qed.

Lemma round_scaled_error N k :
  0 <= k -> Z.abs N <= 2 ^ (k + 24) -> Z.abs (round_scaled N - N) <= 2 ^ k.
Proof.
  intros Hk HN.
  destruct (Z_lt_le_dec N 0) as [Hneg|Hpos].
  - rewrite round_scaled_nonpos by lia.
    pose proof (round_scaled_pos_error (- N) k Hk ltac:(lia)). lia.
  - rewrite round_scaled_nonneg by lia.
    pose proof (round_scaled_pos_error N k Hk ltac:(lia)). lia.
Qed.

Variable a : float32.
Hypothesis a_unit : in_unit_interval a.

(** The output and the formula, both in units of [2^-149]. *)
Lemma exact_output_error x p :
  in_int16 x -> in_int16 p ->
  Z.abs (exact_output a x p * 2 ^ 149
         - (scaled a * x + (2 ^ 149 - scaled a) * p))
    < 2 ^ 149 + 2 ^ 143.
Proof.
  intros Hx Hp.
  destruct a_unit as (Va & Fa & _).
  pose proof (unit_scaled a a_unit) as Ba.
  destruct (unit_complement a a_unit) as (Vb & Fb & Bb).
  destruct (unit_term a x Va Fa Ba Hx) as (_ & _ & SX & _).
  destruct (unit_term (sub one a) p Vb Fb Bb Hp) as (_ & _ & SY & _).
  destruct (sub_scaled one a eq_refl Va eq_refl Fa) as (_ & _ & Sb).
  { change (scaled one) with (2 ^ 149).
    assert (2 ^ 149 < 2 ^ 276) by (by apply Z.pow_lt_mono_r). lia. }
  change (scaled one) with (2 ^ 149) in Sb.
  unfold exact_output, input_term, feedback_term. rewrite SX, SY.
  remember (scaled a) as sa eqn:Esa in *.
  remember (scaled (sub one a)) as sb eqn:Esb in *.
  clear Esa Esb SX SY.
  unfold in_int16, INT16_MIN, INT16_MAX in Hx, Hp.
  assert (H125 : 2 ^ 149 = 2 ^ 125 * 16777216) by done.
  assert (H126 : 2 ^ 126 = 2 ^ 125 * 2) by done.
  assert (H140 : 2 ^ 140 = 2 ^ 125 * 32768) by done.
  assert (H141 : 2 ^ 141 = 2 ^ 125 * 65536) by done.
  assert (H143 : 2 ^ 143 = 2 ^ 125 * 262144) by done.
  assert (P125 : 0 < 2 ^ 125) by done.
  (* the three roundings and the rounding of the complement *)
  assert (Eb : Z.abs (sb - (2 ^ 149 - sa)) <= 2 ^ 125).
  { rewrite Sb. apply (round_scaled_error _ 125); [lia|].
    change (2 ^ (125 + 24)) with (2 ^ 149). lia. }
  assert (EX : Z.abs (round_scaled (sa * x) - sa * x) <= 2 ^ 140).
  { apply (round_scaled_error _ 140); [lia|].
    change (2 ^ (140 + 24)) with (2 ^ 149 * 32768).
    rewrite Z.abs_mul, (Z.abs_eq sa) by lia. nia. }
  assert (EY : Z.abs (round_scaled (sb * p) - sb * p) <= 2 ^ 140).
  { apply (round_scaled_error _ 140); [lia|].
    change (2 ^ (140 + 24)) with (2 ^ 149 * 32768).
    rewrite Z.abs_mul, (Z.abs_eq sb) by lia. nia. }
  remember (round_scaled (sa * x)) as A eqn:EA.
  remember (round_scaled (sb * p)) as B eqn:EB.
  remember (sa * x + (2 ^ 149 - sa) * p) as E eqn:EE.
  assert (HE : -32768 * 2 ^ 149 <= E <= 32767 * 2 ^ 149) by (rewrite EE; nia).
  assert (HAB : Z.abs (A + B - E) <= 2 ^ 140 + 2 ^ 140 + 2 ^ 140).
  { assert (Z.abs (sb * p - (2 ^ 149 - sa) * p) <= 2 ^ 140).
    { replace (sb * p - (2 ^ 149 - sa) * p) with ((sb - (2 ^ 149 - sa)) * p) by ring.
      rewrite Z.abs_mul. nia. }
    rewrite EE. lia. }
  assert (EV : Z.abs (round_scaled (A + B) - (A + B)) <= 2 ^ 141).
  { apply (round_scaled_error _ 141); [lia|].
    change (2 ^ (141 + 24)) with (2 ^ 149 * 65536). lia. }
  remember (round_scaled (A + B)) as V eqn:EV'.
  assert (HV : Z.abs (V - E) < 2 ^ 143) by lia.
  unfold clamp_scaled.
  remember (Z.max (Z.min V (32767 * 2 ^ 149)) (-32768 * 2 ^ 149)) as W eqn:EW.
  assert (HW : Z.abs (W - E) < 2 ^ 143) by (rewrite EW; lia).
  assert (H149 : 0 < 2 ^ 149) by done.
  assert (HQ : Z.abs (W ÷ 2 ^ 149 * 2 ^ 149 - W) < 2 ^ 149).
  { pose proof (Z.quot_rem W (2 ^ 149) ltac:(lia)) as Hqr.
    pose proof (Z.rem_bound_abs W (2 ^ 149) ltac:(lia)) as Hrb.
    rewrite (Z.abs_eq (2 ^ 149)) in Hrb by lia. lia. }
  lia.
Qed.

End Accuracy.

(** X16: with a binary32 coefficient alpha between 0 and 1, the [int16_t]
    bounds and [int16_t] sample and previous output, the value that
    [filter_sample] returns differs from the real number
    [alpha * x + (1 - alpha) * prev_output] of the formula by less than
    [1 + 1/64]: less than one for the fraction that the conversion to
    [int16_t] drops, the rest for the four roundings of the float
    operations. *)
Theorem filter_sample_accuracy
    (st : simple_lowpass_filter_t) (x : Z) :
  in_unit_interval (alpha st) ->
  min_val st = -32768 ->
  max_val st = 32767 ->
  in_int16 (prev_output st) ->
  in_int16 x ->
  exists y,
    filter_sample st x = Some (y, set_prev_output y st) /\
    (Rabs (IZR y - (real_value (alpha st) * IZR x
                    + (1 - real_value (alpha st)) * IZR (prev_output st)))
     < 1 + / 64)%R.
Proof.
  intros Hu Hmin Hmax Hp Hx.
  assert (Hst : int16_state (alpha st) st)
    by exact (conj eq_refl (conj Hmin (conj Hmax Hp))).
  destruct (unit_filter_sample (alpha st) Hu st x Hst Hx) as [E _].
  exists (exact_output (alpha st) x (prev_output st)). split; [done|].
  pose proof (exact_output_error (alpha st) Hu x (prev_output st) Hx Hp) as HD.
  revert HD. generalize (exact_output (alpha st) x (prev_output st)). intros y HD.
  unfold real_value.
  remember (scaled (alpha st)) as sa eqn:Esa in *.
  remember (prev_output st) as p eqn:Ep in *.
  assert (HT : (0 < IZR (2 ^ 149))%R) by (by apply IZR_lt).
  assert (H64 : (IZR (2 ^ 143) = IZR (2 ^ 149) / 64)%R).
  { change (2 ^ 149) with (2 ^ 143 * 64). rewrite mult_IZR. field. }
  apply IZR_lt in HD.
  rewrite abs_IZR, plus_IZR, minus_IZR, plus_IZR, !mult_IZR, minus_IZR, H64 in HD.
  remember (IZR (2 ^ 149)) as T eqn:ET in *.
  replace (IZR y - (IZR sa / T * IZR x + (1 - IZR sa / T) * IZR p))%R
    with ((IZR y * T - (IZR sa * IZR x + (T - IZR sa) * IZR p)) / T)%R
    by (field; lra).
  unfold Rdiv at 1. rewrite Rabs_mult, (Rabs_right (/ T)).
  2:{ apply Rle_ge, Rlt_le, Rinv_0_lt_compat, HT. }
  apply (Rmult_lt_reg_r T); [done|].
  rewrite Rmult_assoc, Rinv_l, Rmult_1_r by lra.
  lra.
Qed.

Lemma filter_sample_accuracy_witness :
  exists y,
    filter_sample (init_lowpass_filter half_filter) 1000
      = Some (y, set_prev_output y (init_lowpass_filter half_filter)) /\
    (Rabs (IZR y - (real_value ALPHA * IZR 1000 + (1 - real_value ALPHA) * IZR 0))
     < 1 + / 64)%R.
Proof.
  apply (filter_sample_accuracy (init_lowpass_filter half_filter) 1000).
  - exact ALPHA_in_unit_interval.
  - reflexivity.
  - reflexivity.
  - by vm_compute.
  - by vm_compute.
Defined.
